(** * DocuIntel retrieval / generation / streaming core

    A shallow embedding of

    - [lib/services/langchain-rag.ts]  (Segmenter, Chunker, Vector Index,
      Retriever, Grounded Generator), and
    - [app/api/ai/stream/route.ts]     (Streaming Session),

    followed by the properties of the specification that were checked
    against it (Parts IV to IX), and by further properties of the same
    code (Parts X to XV): the index under [upsert], the passages of the
    chunker, batched embedding and ingestion, answers, the payloads of a
    session and its wire format.

    Conventions.
    - A JavaScript string is the list of its UTF-16 code units.
    - A JavaScript number that holds a similarity score, a confidence or a
      progress percentage is an IEEE-754 binary64 value ([float]); lengths,
      offsets and counts are integers, negative where the code lets them
      be (the window, the overlap, [topK]).
    - An exception is an explicit [Thrown] outcome; the external provider
      (embedding and completion calls) is an argument of the functions
      that use it. *)

From Stdlib Require Import String Ascii.
From Stdlib Require Import ZArith NArith Bool Lia Floats List Sorted Permutation.
From Stdlib Require Import DecimalString DecimalNat.
Import ListNotations.
Set Warnings "-inexact-float,-register-all".

(* ================================================================== *)
(** * Part I.  JavaScript values used by the two source files         *)
(* ================================================================== *)

Module JS.

(** ** Strings *)

Definition code_unit := N.
Definition jsstring := list code_unit.

(** An ASCII literal, one code unit per character. *)
Definition lit (s : string) : jsstring :=
  map N_of_ascii (list_ascii_of_string s).

Definition code_eqb (a b : code_unit) : bool := N.eqb a b.

Fixpoint str_eqb (a b : jsstring) : bool :=
  match a, b with
  | [], [] => true
  | x :: a', y :: b' => code_eqb x y && str_eqb a' b'
  | _, _ => false
  end.

(** Truthiness of a string: only the empty string is falsy. *)
Definition truthy_str (s : jsstring) : bool :=
  match s with [] => false | _ :: _ => true end.

(** [\s] of a regular expression, and the characters removed by
    [String.prototype.trim]: WhiteSpace and LineTerminator. *)
Definition is_space (c : code_unit) : bool :=
  ((9 <=? c) && (c <=? 13) || (c =? 32) || (c =? 160) || (c =? 5760)
   || (8192 <=? c) && (c <=? 8202) || (c =? 8232) || (c =? 8233)
   || (c =? 8239) || (c =? 8287) || (c =? 12288) || (c =? 65279))%N.

(** [\d] *)
Definition is_digit (c : code_unit) : bool := ((48 <=? c) && (c <=? 57))%N.

(** [[A-Z]] *)
Definition is_upper (c : code_unit) : bool := ((65 <=? c) && (c <=? 90))%N.

Definition LF : code_unit := 10%N.

Fixpoint drop_while (p : code_unit -> bool) (s : jsstring) : jsstring :=
  match s with
  | c :: s' => if p c then drop_while p s' else s
  | [] => []
  end.

(** [String.prototype.trim] *)
Definition trim (s : jsstring) : jsstring :=
  rev (drop_while is_space (rev (drop_while is_space s))).

(** Canonicalisation of a code unit under the [i] flag (without [u]):
    an ASCII lower-case letter becomes upper case; a code unit of 128 or
    more never canonicalises to an ASCII one. *)
Definition canon (c : code_unit) : code_unit :=
  (if (97 <=? c) && (c <=? 122) then c - 32 else c)%N.

(** [s] starts with the ASCII word [w], compared case-insensitively;
    returns what follows the word. *)
Fixpoint strip_prefix_ci (w s : jsstring) : option jsstring :=
  match w with
  | [] => Some s
  | a :: w' =>
      match s with
      | c :: s' => if code_eqb (canon a) (canon c) then strip_prefix_ci w' s'
                   else None
      | [] => None
      end
  end.

Definition starts_with (p : code_unit -> bool) (s : jsstring) : bool :=
  match s with c :: _ => p c | [] => false end.

(** [String.prototype.slice(from, to)] on integers. *)
Definition clamp_index (len i : Z) : Z :=
  if (i <? 0)%Z then Z.max (len + i) 0 else Z.min i len.

Definition slice {A} (s : list A) (from to : Z) : list A :=
  let len := Z.of_nat (length s) in
  let k := clamp_index len from in
  let final := clamp_index len to in
  firstn (Z.to_nat (final - k)) (skipn (Z.to_nat k) s).

(** [String.prototype.substring(0, n)] for a non-negative literal [n]. *)
Definition substring0 (s : jsstring) (n : nat) : jsstring := firstn n s.

(** Decimal rendering of a non-negative integer, as in a template
    literal. *)
Definition decimal (n : nat) : jsstring :=
  lit (NilEmpty.string_of_uint (Nat.to_uint n)).

(** ** [String.prototype.split] with a regular expression

    The splitter walks the positions [q] of the string; [p] is the start
    of the piece being built ([cur] holds that piece, reversed).  A match
    at [q] that ends at [p] itself is skipped, so a zero-width match never
    splits at the start of a piece. *)

(** Zero-width patterns (look-ahead or look-behind): [look prev rest]
    decides whether the pattern matches between [prev] and [rest]. *)
Fixpoint split_zero_width (look : code_unit -> jsstring -> bool)
    (cur : jsstring) (s : jsstring) : list jsstring :=
  match s with
  | [] => [rev cur]
  | c :: s' =>
      match cur with
      | prev :: _ =>
          if look prev s then rev cur :: split_zero_width look [c] s'
          else split_zero_width look (c :: cur) s'
      | [] => split_zero_width look [c] s'
      end
  end.

(** Consuming patterns that never match the empty string: [m rest] is the
    length of the match starting at [rest], if any.  [skip] counts the
    code units of the current match still to be passed over. *)
Fixpoint split_consuming (m : jsstring -> option nat) (skip : nat)
    (cur : jsstring) (s : jsstring) : list jsstring :=
  match s with
  | [] => [rev cur]
  | c :: s' =>
      match skip with
      | S k => split_consuming m k cur s'
      | O =>
          match m s with
          | Some (S k) => rev cur :: split_consuming m k [] s'
          | _ => split_consuming m 0 (c :: cur) s'
          end
      end
  end.

(** ** Numbers *)

#[local] Open Scope float_scope.

(** The number that holds an integer (below [2 ^ 63]). *)
Definition num_of_Z (z : Z) : float := PrimFloat.of_uint63 (Uint63.of_Z z).

Definition num_of_nat (n : nat) : float := num_of_Z (Z.of_nat n).

(** Truthiness of a number: [0], [-0] and [NaN] are falsy. *)
Definition truthy_num (x : float) : bool :=
  negb ((x =? 0) || is_nan x).

(** [Math.min] of two numbers. *)
Definition Math_min (a b : float) : float :=
  if is_nan a || is_nan b then nan
  else if a <? b then a
  else if b <? a then b
  else if get_sign a then a else b.

(** [Math.round]: the integer nearest to [x], a tie going towards
    [+Infinity].  A number with a non-negative exponent is an integer
    already, and so are the zeros, the infinities and [NaN] their own
    rounding; below, the mantissa [m] of [x = m * 2 ^ e] is divided by
    [2 ^ (- e)], and a negative number that rounds to zero gives [-0]. *)
Definition Math_round (x : float) : float :=
  match Prim2SF x with
  | S754_finite s m e =>
      if (0 <=? e)%Z then x
      else
        let unit := (2 ^ (- e))%Z in
        let half := (2 ^ (- e - 1))%Z in
        if s then - num_of_Z ((Zpos m + half - 1) / unit)
        else num_of_Z ((Zpos m + half) / unit)
  | _ => x
  end.

(** ** [Array.prototype.sort] with a comparison function

    The sort is stable, and for a consistent comparison function every
    stable sort returns the same array; it is written here as the stable
    insertion sort: an element goes behind exactly the elements that the
    comparison function puts strictly before it ([comparefn(y, x) < 0]).

    A comparison function that returns [NaN] for some pairs (read as 0)
    is not consistent, and the language then leaves the order to the
    engine: the array below is still a permutation of the argument, as
    every engine's is, but its order is the engine's only where the
    engine's algorithm happens to make the same moves (as on an array that
    the comparison function never wants changed).  Whatever is stated
    about the order of a sorted array is therefore stated for comparison
    results that are numbers. *)
Section Sort.
Context {A : Type}.
Variable comparefn : A -> A -> float.

Fixpoint sort_insert (x : A) (l : list A) : list A :=
  match l with
  | [] => [x]
  | y :: l' =>
      if comparefn y x <? 0 then y :: sort_insert x l' else x :: y :: l'
  end.

Definition sort (l : list A) : list A := fold_right sort_insert [] l.

End Sort.

(** ** [Map] with string keys

    A [Map] iterates in the order of first insertion of its keys; setting
    an existing key keeps its position. *)
Section Map.
Context {V : Type}.

Definition jsmap := list (jsstring * V).

Fixpoint map_get (m : jsmap) (k : jsstring) : option V :=
  match m with
  | [] => None
  | (k', v) :: m' => if str_eqb k' k then Some v else map_get m' k
  end.

Fixpoint map_set (m : jsmap) (k : jsstring) (v : V) : jsmap :=
  match m with
  | [] => [(k, v)]
  | (k', v') :: m' =>
      if str_eqb k' k then (k', v) :: m' else (k', v') :: map_set m' k v
  end.

End Map.
Arguments jsmap V : clear implicits.

(** ** Exceptions *)

Inductive outcome (A : Type) : Type :=
| Returned (a : A)
| Thrown (message : jsstring).
Arguments Returned {A} a.
Arguments Thrown {A} message.

End JS.

(* ================================================================== *)
(** * Part II.  lib/services/langchain-rag.ts                          *)
(* ================================================================== *)

Module Rag.
Import JS.
#[local] Open Scope float_scope.

(** ** Data model *)

Record Metadata := {
  source : jsstring;
  page : option Z;
  clauseType : option jsstring;
  heading : option jsstring;
  charStart : Z;
  charEnd : Z
}.

Record DocumentChunk := {
  id : jsstring;
  content : jsstring;
  metadata : Metadata;
  embedding : option (list float)
}.

(** ** Segmenter: [segmentClauses] *)

(** The three patterns of [segmentClauses], each as a matcher at one
    position of the string.

    [/(?=\n\s*(?:Section|Article|Clause)\s+\d+)/gi] *)
Definition keyword_rest (s : jsstring) : option jsstring :=
  match strip_prefix_ci (lit "Section") s with
  | Some r => Some r
  | None =>
      match strip_prefix_ci (lit "Article") s with
      | Some r => Some r
      | None => strip_prefix_ci (lit "Clause") s
      end
  end.

Definition section_marker_ahead (rest : jsstring) : bool :=
  match rest with
  | c :: t =>
      code_eqb c LF &&
      match keyword_rest (drop_while is_space t) with
      | Some r =>
          starts_with is_space r && starts_with is_digit (drop_while is_space r)
      | None => false
      end
  | [] => false
  end.

(** [/(?=\n\s*\d+\.\s+[A-Z])/g] *)
Definition numbered_item_ahead (rest : jsstring) : bool :=
  match rest with
  | c :: t =>
      code_eqb c LF &&
      let t1 := drop_while is_space t in
      starts_with is_digit t1 &&
      match drop_while is_digit t1 with
      | dot :: r =>
          code_eqb dot 46%N && starts_with is_space r
          && starts_with is_upper (drop_while is_space r)
      | [] => false
      end
  | [] => false
  end.

(** [/\n\s*\n+/g]: a line feed, white space, and a last line feed.  The
    greedy [\s*] gives back just enough for [\n+] to take the last line
    feed of the white-space run, so the match ends right after it.
    [last_newline_end t] is the length of [t] up to and including that
    line feed. *)
Fixpoint last_newline_end (t : jsstring) : option nat :=
  match t with
  | c :: t' =>
      if is_space c then
        match last_newline_end t' with
        | Some n => Some (S n)
        | None => if code_eqb c LF then Some 1%nat else None
        end
      else None
  | [] => None
  end.

Definition blank_lines_at (rest : jsstring) : option nat :=
  match rest with
  | c :: t => if code_eqb c LF then option_map S (last_newline_end t) else None
  | [] => None
  end.

Definition split_sections (seg : jsstring) : list jsstring :=
  split_zero_width (fun _ rest => section_marker_ahead rest) [] seg.

Definition split_numbered (seg : jsstring) : list jsstring :=
  split_zero_width (fun _ rest => numbered_item_ahead rest) [] seg.

Definition split_blank_lines (seg : jsstring) : list jsstring :=
  split_consuming blank_lines_at 0 [] seg.

Definition patterns : list (jsstring -> list jsstring) :=
  [split_sections; split_numbered; split_blank_lines].

(** The segments after the three cascading passes, before trimming. *)
Definition cascade (text : jsstring) : list jsstring :=
  fold_left (fun segments split => flat_map split segments) patterns [text].

Definition segmentClauses (text : jsstring) : list jsstring :=
  filter (fun s => (50 <? length s)%nat) (map trim (cascade text)).

(** ** Chunker: [createChunks]

    [extractHeading] and [classifyClauseType] derive the two descriptive
    fields of a passage from its text alone (a heading pattern, and an
    ordered table of category patterns tried on the lower-cased text).
    Nothing below depends on how they choose, so they are arguments. *)
Section Chunker.
Variable extractHeading : jsstring -> jsstring.
Variable classifyClauseType : jsstring -> jsstring.
Variables chunkSize chunkOverlap : Z.

Definition len (s : jsstring) : Z := Z.of_nat (length s).

(** [`${source}-${chunks.length}`] *)
Definition chunk_id (src : jsstring) (n : nat) : jsstring :=
  src ++ lit "-" ++ decimal n.

Definition make_chunk (src : jsstring) (n : nat) (text : jsstring)
    (first last : Z) : DocumentChunk :=
  {| id := chunk_id src n;
     content := text;
     metadata := {| source := src; page := None;
                    clauseType := Some (classifyClauseType text);
                    heading := Some (extractHeading text);
                    charStart := first; charEnd := last |};
     embedding := None |}.

(** The [while (start < segment.length)] loop over one long segment.
    Every turn of the loop uses one unit of [fuel]; [None] means the fuel
    ran out before the loop condition became false. *)
Fixpoint window_loop (fuel : nat) (src segment : jsstring) (charOffset : Z)
    (start : Z) (chunks : list DocumentChunk) : option (list DocumentChunk) :=
  match fuel with
  | O => None
  | S fuel' =>
      if (start <? len segment)%Z then
        let final := Z.min (start + chunkSize) (len segment) in
        let chunkContent := slice segment start final in
        window_loop fuel' src segment charOffset
          (start + (chunkSize - chunkOverlap))
          (chunks ++ [make_chunk src (length chunks) chunkContent
                        (charOffset + start) (charOffset + final)])
      else Some chunks
  end.

(** The [for (const segment of segments)] loop, carrying [chunks] and
    [charOffset]. *)
Fixpoint chunk_segments (fuel : nat) (src : jsstring) (segments : list jsstring)
    (charOffset : Z) (chunks : list DocumentChunk)
    : option (list DocumentChunk) :=
  match segments with
  | [] => Some chunks
  | segment :: rest =>
      let after :=
        if (len segment <=? chunkSize)%Z then
          Some (chunks ++ [make_chunk src (length chunks) segment
                             charOffset (charOffset + len segment)])
        else window_loop fuel src segment charOffset 0 chunks in
      match after with
      | Some chunks' =>
          chunk_segments fuel src rest (charOffset + len segment) chunks'
      | None => None
      end
  end.

Definition createChunks (fuel : nat) (segments : list jsstring)
    (src : jsstring) : option (list DocumentChunk) :=
  chunk_segments fuel src segments 0 [].

End Chunker.

(** ** Vector Index: [InMemoryVectorStore] *)

Record RetrievalResult := {
  chunk : DocumentChunk;
  score : float;
  relevanceExplanation : option jsstring
}.

Record InMemoryVectorStore := {
  documents : jsmap DocumentChunk;
  embeddings : jsmap (list float)
}.

Definition new_store : InMemoryVectorStore :=
  {| documents := []; embeddings := [] |}.

Definition upsert_chunk (st : InMemoryVectorStore) (c : DocumentChunk)
    : InMemoryVectorStore :=
  {| documents := map_set (documents st) (id c) c;
     embeddings := match embedding c with
                   | Some e => map_set (embeddings st) (id c) e
                   | None => embeddings st
                   end |}.

Definition upsert (st : InMemoryVectorStore) (chunks : list DocumentChunk)
    : InMemoryVectorStore * nat :=
  (fold_left upsert_chunk chunks st, length chunks).

(** The three accumulators of the loop of [cosineSimilarity]. *)
Definition cosine_sums (a b : list float) : float * float * float :=
  fold_left
    (fun '(dotProduct, normA, normB) '(x, y) =>
       (dotProduct + x * y, normA + x * x, normB + y * y))
    (combine a b) (0, 0, 0).

Definition cosineSimilarity (a b : list float) : float :=
  if negb (length a =? length b)%nat then 0
  else
    let '(dotProduct, normA, normB) := cosine_sums a b in
    dotProduct / (sqrt normA * sqrt normB).

(** The [results] array of [search] before it is sorted: one entry per
    stored vector whose passage is in [documents], in the iteration order
    of the [embeddings] map. *)
Definition scored (st : InMemoryVectorStore) (queryEmbedding : list float)
    : list RetrievalResult :=
  flat_map
    (fun '(key, emb) =>
       match map_get (documents st) key with
       | Some c => [{| chunk := c;
                       score := cosineSimilarity queryEmbedding emb;
                       relevanceExplanation := None |}]
       | None => []
       end)
    (embeddings st).

(** [(a, b) => b.score - a.score] *)
Definition by_score_desc (a b : RetrievalResult) : float := score b - score a.

(** [topK] is any integer: [slice(0, topK)] keeps the first [topK]
    results when it is not negative, and drops the last [- topK] when it
    is. *)
Definition search (st : InMemoryVectorStore) (queryEmbedding : list float)
    (topK : Z) : list RetrievalResult :=
  slice (sort by_score_desc (scored st queryEmbedding)) 0 topK.

Definition getDocumentCount (st : InMemoryVectorStore) : nat :=
  length (documents st).

(** ** The service object and its constructor *)

Record Service := {
  vectorStore : InMemoryVectorStore;
  embeddingModel : jsstring;
  completionModel : jsstring;
  chunkSize : Z;
  chunkOverlap : Z;
  topK : Z
}.

Record ServiceOptions := {
  o_embeddingModel : option jsstring;
  o_completionModel : option jsstring;
  o_chunkSize : option Z;
  o_chunkOverlap : option Z;
  o_topK : option Z
}.

(** [x || d] for an optional string, integer and number. *)
Definition str_or (o : option jsstring) (d : jsstring) : jsstring :=
  match o with
  | Some s => if truthy_str s then s else d
  | None => d
  end.

Definition int_or (o : option Z) (d : Z) : Z :=
  match o with
  | Some z => if (z =? 0)%Z then d else z
  | None => d
  end.

Definition num_or (o : option float) (d : float) : float :=
  match o with
  | Some x => if truthy_num x then x else d
  | None => d
  end.

(** [AUTOLAWYER_MODEL] is the value of that environment variable. *)
Definition new_service (AUTOLAWYER_MODEL : option jsstring)
    (options : ServiceOptions) : Service :=
  {| vectorStore := new_store;
     embeddingModel := str_or (o_embeddingModel options)
                         (lit "text-embedding-3-small");
     completionModel := str_or (o_completionModel options)
                          (str_or AUTOLAWYER_MODEL (lit "gpt-4o-mini"));
     chunkSize := int_or (o_chunkSize options) 1000;
     chunkOverlap := int_or (o_chunkOverlap options) 200;
     topK := int_or (o_topK options) 5 |}.

Definition no_options : ServiceOptions :=
  {| o_embeddingModel := None; o_completionModel := None;
     o_chunkSize := None; o_chunkOverlap := None; o_topK := None |}.

(** [export const ragService = new LangChainRAGService()] *)
Definition ragService (AUTOLAWYER_MODEL : option jsstring) : Service :=
  new_service AUTOLAWYER_MODEL no_options.

(** ** Embedder fallback: [generateMockEmbedding] *)

Fixpoint add_at (l : list float) (i : nat) (x : float) : list float :=
  match l, i with
  | [], _ => []
  | v :: l', O => (v + x) :: l'
  | v :: l', S i' => v :: add_at l' i' x
  end.

Definition num_of_code (c : code_unit) : float :=
  PrimFloat.of_uint63 (Uint63.of_Z (Z.of_N c)).

Fixpoint mock_accumulate (text : jsstring) (i : nat) (emb : list float)
    : list float :=
  match text with
  | [] => emb
  | c :: text' =>
      mock_accumulate text' (S i)
        (add_at emb (i mod 1536) (num_of_code c / 1000))
  end.

Definition generateMockEmbedding (text : jsstring) : list float :=
  let emb := mock_accumulate text 0 (repeat 0 1536) in
  let magnitude := sqrt (fold_left (fun sum val => sum + val * val) emb 0) in
  map (fun val => val / magnitude) emb.

(** ** Retriever: [retrieve] *)

Record Filter := {
  flt_clauseType : option jsstring;
  flt_source : option jsstring
}.

Record RetrieveOptions := {
  opt_topK : option Z;
  opt_minScore : option float;
  opt_filter : option Filter
}.

(** The fields of the returned metrics that do not read the clock. *)
Record RetrievalMetrics := {
  chunksRetrieved : nat;
  estimatedAccuracy : float
}.

(** [w && v !== w], for a filter field [w] and a passage field [v]. *)
Definition rejects (w v : option jsstring) : bool :=
  match w with
  | Some w' =>
      truthy_str w' &&
      negb match v with Some v' => str_eqb v' w' | None => false end
  | None => false
  end.

Definition passes_filter (f : Filter) (r : RetrievalResult) : bool :=
  if rejects (flt_clauseType f) (clauseType (metadata (chunk r))) then false
  else if rejects (flt_source f) (Some (source (metadata (chunk r)))) then false
  else true.

Definition apply_filter (f : option Filter) (results : list RetrievalResult)
    : list RetrievalResult :=
  match f with
  | Some f' => filter (passes_filter f') results
  | None => results
  end.

Section Provider.
(** [openai.embeddings.create({ model, input })], read at [data[0].embedding];
    [Thrown] is any failure of the call or of that read. *)
Variable embeddings_create : jsstring -> jsstring -> outcome (list float).
(** [openai.chat.completions.create({ model, messages, ... })], read at
    [choices[0].message.content] (which may be [null]). *)
Variable chat_completions_create :
  jsstring -> jsstring -> jsstring -> outcome (option jsstring).

Definition query_embedding (svc : Service) (query : jsstring) : list float :=
  match embeddings_create (embeddingModel svc) query with
  | Returned e => e
  | Thrown _ => generateMockEmbedding query
  end.

Definition retrieve (svc : Service) (query : jsstring)
    (options : RetrieveOptions)
    : list RetrievalResult * RetrievalMetrics :=
  let k := int_or (opt_topK options) (topK svc) in
  let minScore := num_or (opt_minScore options) 0.3 in
  let queryEmbedding := query_embedding svc query in
  let results := search (vectorStore svc) queryEmbedding (k * 2) in
  let results := apply_filter (opt_filter options) results in
  let results := slice (filter (fun r => minScore <=? score r) results) 0 k in
  (results,
   {| chunksRetrieved := length results; estimatedAccuracy := 0.92 |}).

Definition no_retrieve_options : RetrieveOptions :=
  {| opt_topK := None; opt_minScore := None; opt_filter := None |}.

(** ** Grounded Generator: [generate] *)

Record Citation := {
  chunkId : jsstring;
  cit_content : jsstring;
  cit_source : jsstring;
  relevanceScore : float
}.

Record RAGResponse := {
  answer : jsstring;
  citations : list Citation;
  confidence : float;
  groundedOnSources : bool
}.

Definition citation_of (r : RetrievalResult) : Citation :=
  {| chunkId := id (chunk r);
     cit_content := substring0 (content (chunk r)) 200 ++ lit "...";
     cit_source := source (metadata (chunk r));
     relevanceScore := score r |}.

Fixpoint join (sep : jsstring) (l : list jsstring) : jsstring :=
  match l with
  | [] => []
  | [x] => x
  | x :: l' => x ++ sep ++ join sep l'
  end.

Fixpoint numbered (i : nat) (context : list RetrievalResult) : list jsstring :=
  match context with
  | [] => []
  | r :: rest =>
      (lit "[" ++ decimal (i + 1) ++ lit "] " ++ content (chunk r))
        :: numbered (S i) rest
  end.

Definition two_newlines : jsstring := [LF; LF].

Definition contextString (context : list RetrievalResult) : jsstring :=
  join two_newlines (numbered 0 context).

Definition systemPrompt (context : list RetrievalResult) : jsstring :=
  lit "You are DocuIntel, an expert legal AI assistant. " ++ [LF] ++
  lit "Answer the user's question based ONLY on the provided context. " ++ [LF] ++
  lit "If the context doesn't contain enough information, say so." ++ [LF] ++
  lit "Always cite your sources using [1], [2], etc." ++ [LF] ++ [LF] ++
  lit "CONTEXT:" ++ [LF] ++ contextString context.

(** [parseInt] of a string of decimal digits.  (An integer; beyond [2^53]
    the source's number is rounded, far above any array index.) *)
Definition parseInt_digits (ds : jsstring) : Z :=
  fold_left (fun acc c => (10 * acc + (Z.of_N c - 48))%Z) ds 0%Z.

Fixpoint take_while (p : code_unit -> bool) (s : jsstring) : jsstring :=
  match s with
  | c :: s' => if p c then c :: take_while p s' else []
  | [] => []
  end.

(** The successive matches of [/\[(\d+)\]/g] in the answer, as the values
    of their digit groups.  [skip] counts the code units of the current
    match still to be passed over. *)
Fixpoint citation_markers (skip : nat) (s : jsstring) : list Z :=
  match s with
  | [] => []
  | c :: s' =>
      match skip with
      | S k => citation_markers k s'
      | O =>
          if code_eqb c 91%N then
            let ds := take_while is_digit s' in
            match ds, skipn (length ds) s' with
            | _ :: _, close :: _ =>
                if code_eqb close 93%N
                then parseInt_digits ds :: citation_markers (S (length ds)) s'
                else citation_markers 0 s'
            | _, _ => citation_markers 0 s'
            end
          else citation_markers 0 s'
      end
  end.

(** [Set.prototype.add]: a set keeps the order of first insertion. *)
Definition set_add (s : list Z) (x : Z) : list Z :=
  if existsb (Z.eqb x) s then s else s ++ [x].

Definition citedIndices (answer : jsstring) : list Z :=
  fold_left set_add (map (fun m => (m - 1)%Z) (citation_markers 0 answer)) [].

Definition in_context (context : list RetrievalResult) (i : Z) : bool :=
  ((0 <=? i) && (i <? Z.of_nat (length context)))%Z.

(** The indices that survive [.filter(i => i >= 0 && i < context.length)]. *)
Definition keptIndices (answer : jsstring) (context : list RetrievalResult)
    : list Z :=
  filter (in_context context) (citedIndices answer).

Definition cite (context : list RetrievalResult) (i : Z) : list Citation :=
  match nth_error context (Z.to_nat i) with
  | Some r => [citation_of r]
  | None => []
  end.

Definition calculateConfidence (context : list RetrievalResult)
    (citationCount : nat) : float :=
  if (length context =? 0)%nat then 0
  else
    let n := num_of_nat (length context) in
    let avgScore := fold_left (fun sum r => sum + score r) context 0 / n in
    let citationRatio := Math_min (num_of_nat citationCount / n) 1 in
    Math_round ((avgScore * 0.6 + citationRatio * 0.4) * 100) / 100.

Definition fallback_answer (context : list RetrievalResult) : jsstring :=
  lit "Based on the provided documents, I found " ++ decimal (length context)
  ++ lit " relevant sections. "
  ++ lit "However, I encountered an issue generating a detailed response. "
  ++ lit "Please try again or review the source documents directly.".

Definition try_catch {A} (body : outcome A) (handler : jsstring -> outcome A)
    : outcome A :=
  match body with
  | Returned a => Returned a
  | Thrown e => handler e
  end.

Definition generate (svc : Service) (query : jsstring)
    (context : list RetrievalResult) : outcome RAGResponse :=
  try_catch
    match chat_completions_create (completionModel svc)
            (systemPrompt context) query with
    | Thrown e => Thrown e
    | Returned message_content =>
        let answer := str_or message_content [] in
        let citations := flat_map (cite context) (keptIndices answer context) in
        Returned
          {| answer := answer;
             citations := citations;
             confidence := calculateConfidence context (length citations);
             groundedOnSources := negb (length citations =? 0)%nat |}
    end
    (fun _ =>
       Returned
         {| answer := fallback_answer context;
            citations := map citation_of (slice context 0 3);
            confidence := 0.5;
            groundedOnSources := true |}).

(** [query]: retrieve with the default options, then generate. *)
Definition query (svc : Service) (q : jsstring)
    : outcome (RAGResponse * RetrievalMetrics) :=
  let '(results, metrics) := retrieve svc q no_retrieve_options in
  match generate svc q results with
  | Returned response => Returned (response, metrics)
  | Thrown e => Thrown e
  end.

End Provider.

(** ** Headings and categories: [extractHeading], [classifyClauseType] *)

(** [[a-z]] *)
Definition is_lower (c : code_unit) : bool := ((97 <=? c) && (c <=? 122))%N.

(** [[A-Za-z\s&]] *)
Definition is_heading_unit (c : code_unit) : bool :=
  is_upper c || is_lower c || is_space c || code_eqb c 38%N.

(** [s] starts with the word [w] (case matters); returns what follows. *)
Fixpoint strip_prefix (w s : jsstring) : option jsstring :=
  match w with
  | [] => Some s
  | a :: w' =>
      match s with
      | c :: s' => if code_eqb a c then strip_prefix w' s' else None
      | [] => None
      end
  end.

(** [(?:Section|Article|Clause)] at the start of [s]. *)
Definition heading_keyword_rest (s : jsstring) : option jsstring :=
  match strip_prefix (lit "Section") s with
  | Some r => Some r
  | None =>
      match strip_prefix (lit "Article") s with
      | Some r => Some r
      | None => strip_prefix (lit "Clause") s
      end
  end.

(** [\s*\d*\.?\s*] at the start of [s], each part taking all it can.
    What these parts pass over is white space, digits and a dot, and the
    group that follows must start with a capital: giving back any of it
    cannot help, so the greedy reading is the only one that can match. *)
Definition skip_number (s : jsstring) : jsstring :=
  let s1 := drop_while is_digit (drop_while is_space s) in
  drop_while is_space
    match s1 with
    | c :: r => if code_eqb c 46%N then r else s1
    | [] => []
    end.

(** [([A-Z][A-Za-z\s&]+)] at the start of [s]. *)
Definition heading_group (s : jsstring) : option jsstring :=
  match s with
  | c :: r =>
      if is_upper c then
        match take_while is_heading_unit r with
        | [] => None
        | t => Some (c :: t)
        end
      else None
  | [] => None
  end.

(** [/^(?:Section|Article|Clause)?\s*\d*\.?\s*([A-Z][A-Za-z\s&]+)/]: the
    group of the match, if any.  The keyword is tried first; when what
    follows it does not match, the pattern is tried without it. *)
Definition heading_match (content : jsstring) : option jsstring :=
  let without_keyword := heading_group (skip_number content) in
  match heading_keyword_rest content with
  | Some rest =>
      match heading_group (skip_number rest) with
      | Some g => Some g
      | None => without_keyword
      end
  | None => without_keyword
  end.

Definition extractHeading (content : jsstring) : jsstring :=
  match heading_match content with
  | Some g => trim g
  | None => lit "Unnamed Section"
  end.

(** [s] starts with [w]. *)
Definition has_prefix (w s : jsstring) : bool :=
  match strip_prefix w s with Some _ => true | None => false end.

(** [w] occurs in [s]. *)
Fixpoint includes (w s : jsstring) : bool :=
  has_prefix w s || match s with _ :: s' => includes w s' | [] => false end.

(** The table of [classifyClauseType]: a category and the alternatives of
    its pattern, which are plain words. *)
Definition clausePatterns : list (jsstring * list jsstring) :=
  [ (lit "indemnification",
     [lit "indemnif"; lit "hold harmless"; lit "defend and indemnify"]);
    (lit "liability",
     [lit "liability"; lit "limitation"; lit "cap"; lit "damages"]);
    (lit "termination",
     [lit "terminat"; lit "cancel"; lit "expir"; lit "renew"]);
    (lit "confidentiality",
     [lit "confidential"; lit "proprietary"; lit "non-disclosure"; lit "nda"]);
    (lit "intellectual_property",
     [lit "intellectual property"; lit "ip rights"; lit "copyright";
      lit "patent"; lit "trademark"]);
    (lit "payment",
     [lit "payment"; lit "invoice"; lit "fee"; lit "compensation";
      lit "pricing"]);
    (lit "data_protection",
     [lit "data protection"; lit "gdpr"; lit "ccpa"; lit "privacy";
      lit "personal data"]);
    (lit "governing_law",
     [lit "governing law"; lit "jurisdiction"; lit "dispute";
      lit "arbitration"]);
    (lit "force_majeure",
     [lit "force majeure"; lit "act of god"; lit "unforeseeable"]);
    (lit "warranty",
     [lit "warranty"; lit "warrant"; lit "guarantee"; lit "representation"]) ].

(** [pattern.test(s)] for a pattern that is an alternation of words. *)
Definition test (alternatives : list jsstring) (s : jsstring) : bool :=
  existsb (fun w => includes w s) alternatives.

Section Ingestion.
(** [String.prototype.toLowerCase], the platform's case mapping. *)
Variable toLowerCase : jsstring -> jsstring.
(** [openai.embeddings.create({ model, input: texts })] for an array of
    texts, read at [data[j].embedding], [j = 0, 1, ...]; [Thrown] is any
    failure of the call. *)
Variable embeddings_create_batch :
  jsstring -> list jsstring -> outcome (list (list float)).

Definition classifyClauseType (content : jsstring) : jsstring :=
  let lowerContent := toLowerCase content in
  match find (fun entry => test (snd entry) lowerContent) clausePatterns with
  | Some entry => fst entry
  | None => lit "general"
  end.

(** ** Batched embedding: [batchEmbed] *)

(** [{ ...chunk, embedding }] *)
Definition with_embedding (c : DocumentChunk) (e : list float) : DocumentChunk :=
  {| id := id c; content := content c; metadata := metadata c;
     embedding := Some e |}.

Definition mock_embedded (c : DocumentChunk) : DocumentChunk :=
  with_embedding c (generateMockEmbedding (content c)).

(** The [for (let j = 0; j < batch.length; j++)] loop, which pushes one
    passage per turn and throws at the first [j] for which the response
    has no entry: what it pushed, and whether it threw. *)
Fixpoint attach (batch : list DocumentChunk) (data : list (list float))
    : list DocumentChunk * bool :=
  match batch, data with
  | [], _ => ([], false)
  | _ :: _, [] => ([], true)
  | c :: batch', e :: data' =>
      let '(pushed, threw) := attach batch' data' in
      (with_embedding c e :: pushed, threw)
  end.

(** One turn of the outer loop: the [try] block and its [catch], which
    pushes the whole batch with mock vectors behind whatever the [try]
    block had pushed already. *)
Definition embed_batch (svc : Service) (results batch : list DocumentChunk)
    : list DocumentChunk :=
  match embeddings_create_batch (embeddingModel svc) (map content batch) with
  | Returned data =>
      let '(pushed, threw) := attach batch data in
      if threw then results ++ pushed ++ map mock_embedded batch
      else results ++ pushed
  | Thrown _ => results ++ map mock_embedded batch
  end.

Definition BATCH_SIZE : nat := 100.

(** The [for (let i = 0; i < chunks.length; i += BATCH_SIZE)] loop;
    [rest] is [chunks] from [i] on.  Every turn takes at least one
    passage off [rest], so [turns] never runs out when it starts at the
    number of passages. *)
Fixpoint batch_loop (turns : nat) (svc : Service)
    (rest results : list DocumentChunk) : list DocumentChunk :=
  match turns, rest with
  | S turns', _ :: _ =>
      batch_loop turns' svc (skipn BATCH_SIZE rest)
        (embed_batch svc results (firstn BATCH_SIZE rest))
  | _, _ => results
  end.

Definition batchEmbed (svc : Service) (chunks : list DocumentChunk)
    : list DocumentChunk :=
  batch_loop (length chunks) svc chunks [].

(** ** [ingestDocument] and [getIndexStats] *)

Definition with_store (svc : Service) (st : InMemoryVectorStore) : Service :=
  {| vectorStore := st;
     embeddingModel := embeddingModel svc;
     completionModel := completionModel svc;
     chunkSize := chunkSize svc;
     chunkOverlap := chunkOverlap svc;
     topK := topK svc |}.

(** The service after the call and [chunksIndexed]; [None] when the
    chunker runs out of [fuel].  ([processingTimeMs] reads the clock and
    is left out.) *)
Definition ingestDocument (svc : Service) (fuel : nat) (text src : jsstring)
    : option (Service * nat) :=
  let clauses := segmentClauses text in
  match createChunks extractHeading classifyClauseType
          (chunkSize svc) (chunkOverlap svc) fuel clauses src with
  | Some chunks =>
      let chunksWithEmbeddings := batchEmbed svc chunks in
      let '(st, indexedCount) := upsert (vectorStore svc) chunksWithEmbeddings in
      Some (with_store svc st, indexedCount)
  | None => None
  end.

(** [{ documentCount, isReady }] *)
Definition getIndexStats (svc : Service) : nat * bool :=
  (getDocumentCount (vectorStore svc),
   (0 <? getDocumentCount (vectorStore svc))%nat).

End Ingestion.

End Rag.

(* ================================================================== *)
(** * Part III.  app/api/ai/stream/route.ts                            *)
(* ================================================================== *)

Module Route.
Import JS.
#[local] Open Scope float_scope.

Inductive StreamEventType :=
| connected | progress | chunk | analysis | complete | error.

(** The JSON-serialisable payload of an event. *)
Inductive json :=
| JNull
| JNum (x : float)
| JStr (s : jsstring)
| JObj (fields : list (string * json)).

(** A stream event.  (Its [timestamp] is not part of what [formatSSE]
    writes, and is left out.) *)
Record StreamEvent := {
  type : StreamEventType;
  data : json
}.

(** ** The stream controller

    [queue] is what the code has enqueued so far, oldest first, and
    [closed] says that the code has called [close]; enqueueing on or
    closing a closed controller throws.  Only the code acts on the
    controller: a consumer that reads from or cancels the stream is not
    part of the model. *)
Record Controller := {
  queue : list StreamEvent;
  closed : bool
}.

Definition new_controller : Controller := {| queue := []; closed := false |}.

(** A computation that uses the controller and may throw; what was
    enqueued before an exception stays enqueued. *)
Definition M (A : Type) : Type := Controller -> outcome A * Controller.

Definition ret {A} (a : A) : M A := fun c => (Returned a, c).

Definition bind {A B} (m : M A) (f : A -> M B) : M B :=
  fun c =>
    match m c with
    | (Returned a, c') => f a c'
    | (Thrown e, c') => (Thrown e, c')
    end.

Definition throw {A} (message : jsstring) : M A := fun c => (Thrown message, c).

Notation "m ;; k" := (bind m (fun _ => k))
  (at level 61, right associativity).

Definition enqueue (ev : StreamEvent) : M unit :=
  fun c =>
    if closed c then (Thrown (lit "Invalid state: Controller is already closed"), c)
    else (Returned tt, {| queue := queue c ++ [ev]; closed := false |}).

Definition close : M unit :=
  fun c =>
    if closed c then (Thrown (lit "Invalid state: Controller is already closed"), c)
    else (Returned tt, {| queue := queue c; closed := true |}).

Definition num (key : string) (x : float) : string * json := (key, JNum x).
Definition str (key : string) (s : jsstring) : string * json := (key, JStr s).

Definition emit (t : StreamEventType) (fields : list (string * json)) : M unit :=
  enqueue {| type := t; data := JObj fields |}.

(** [try { body } catch (error) { handler(error.message) }] *)
Definition try_catch {A} (body : M A) (handler : jsstring -> M A) : M A :=
  fun c =>
    match body c with
    | (Returned a, c') => (Returned a, c')
    | (Thrown e, c') => handler e c'
    end.

(** [try { body } finally { final }]: [final] runs on both exits, and an
    exception of [final] replaces the result of [body]. *)
Definition try_finally {A} (body : M A) (final : M unit) : M A :=
  fun c =>
    let '(r, c') := body c in
    match final c' with
    | (Returned _, c'') => (r, c'')
    | (Thrown e, c'') => (Thrown e, c'')
    end.

Fixpoint for_each {A} (l : list A) (body : A -> M unit) : M unit :=
  match l with
  | [] => ret tt
  | x :: l' => body x ;; for_each l' body
  end.

(** ** The generation provider

    A streamed completion either fails when it is requested, or yields
    its items and then ends or fails.  An item is the text at
    [choices[0]?.delta?.content], when there is one. *)
Inductive stream_end := ends | breaks (message : jsstring).

Definition completion_stream : Type := list (option jsstring) * stream_end.

Section Session.
Variable OPENAI_API_KEY : option jsstring.
Variable AUTOLAWYER_MODEL : option jsstring.
(** [openai.chat.completions.create({ model, messages, stream: true, ... })]
    by model, system prompt and user message. *)
Variable chat_completions_create :
  jsstring -> jsstring -> jsstring -> outcome completion_stream.

Definition or_else (o : option jsstring) (d : jsstring) : jsstring :=
  match o with
  | Some s => if truthy_str s then s else d
  | None => d
  end.

Definition model : jsstring := or_else AUTOLAWYER_MODEL (lit "gpt-4o-mini").

Definition create (system user : jsstring) : M completion_stream :=
  fun c =>
    match chat_completions_create model system user with
    | Returned s => (Returned s, c)
    | Thrown e => (Thrown e, c)
    end.

(** [for await (const chunk of stream) { ... }], the loop state being
    the text and the count accumulated so far. *)
Fixpoint for_await {S} (items : list (option jsstring)) (fin : stream_end)
    (body : S -> jsstring -> M S) (s : S) : M S :=
  match items with
  | [] =>
      match fin with
      | ends => ret s
      | breaks e => throw e
      end
  | item :: rest =>
      bind (body s (or_else item [])) (fun s' => for_await rest fin body s')
  end.

Definition analysis_system_prompt : jsstring :=
  lit "You are an expert legal AI assistant specializing in contract analysis. " ++ [LF] ++
  lit "Analyze the provided contract clause and provide:" ++ [LF] ++
  lit "1. Risk Assessment (score 0-100, severity: low/medium/high/critical)" ++ [LF] ++
  lit "2. Key Issues identified" ++ [LF] ++
  lit "3. Recommendations for improvement" ++ [LF] ++
  lit "4. Suggested redline modifications" ++ [LF] ++ [LF] ++
  lit "Format your response in a clear, structured manner.".

Definition sample_clause : jsstring :=
  lit "Analyze this sample indemnification clause...".

Definition chat_system_prompt : jsstring :=
  lit "You are DocuIntel, a helpful legal AI assistant. Provide clear, accurate answers about legal documents and contracts.".

Definition summary_system_prompt : jsstring :=
  lit "Summarize the following legal document concisely, highlighting key terms, obligations, and potential risks.".

Definition rethrow (label : string) {A} (body : M A) : M A :=
  try_catch body (fun e => throw (lit label ++ e)).

Definition streamContractAnalysis (clauseText : jsstring) : M unit :=
  emit progress [num "progress" 10;
                 str "message" (lit "Initializing analysis...")] ;;
  rethrow "OpenAI streaming failed: "
    (bind (create analysis_system_prompt
             (or_else (Some clauseText) sample_clause))
       (fun stream =>
          emit progress [num "progress" 30;
                         str "message" (lit "Analyzing clause...")] ;;
          bind
            (for_await (fst stream) (snd stream)
               (fun '(fullResponse, chunkCount) content =>
                  if truthy_str content then
                    let fullResponse := fullResponse ++ content in
                    let chunkCount := S chunkCount in
                    emit chunk [str "content" content;
                                num "chunkIndex" (num_of_nat chunkCount)] ;;
                    (if (chunkCount mod 10 =? 0)%nat then
                       emit progress
                         [num "progress" (Math_min (30 + num_of_nat chunkCount * 2) 90);
                          str "message" (lit "Streaming response...")]
                     else ret tt) ;;
                    ret (fullResponse, chunkCount)
                  else ret (fullResponse, chunkCount))
               ([], O))
            (fun '(fullResponse, chunkCount) =>
               emit analysis [str "fullResponse" fullResponse;
                              num "chunkCount" (num_of_nat chunkCount);
                              str "model" model] ;;
               emit complete
                 [str "message" (lit "Analysis complete");
                  num "totalChunks" (num_of_nat chunkCount);
                  num "responseLength" (num_of_nat (length fullResponse))]))).

Definition streamChatResponse (userMessage : jsstring) : M unit :=
  emit progress [num "progress" 20;
                 str "message" (lit "Processing your question...")] ;;
  rethrow "Chat streaming failed: "
    (bind (create chat_system_prompt userMessage)
       (fun stream =>
          bind
            (for_await (fst stream) (snd stream)
               (fun fullResponse content =>
                  if truthy_str content then
                    emit chunk [str "content" content] ;;
                    ret (fullResponse ++ content)
                  else ret fullResponse)
               [])
            (fun fullResponse =>
               emit complete
                 [str "message" (lit "Response complete");
                  num "responseLength" (num_of_nat (length fullResponse))]))).

Definition streamSummary (documentText : jsstring) : M unit :=
  emit progress [num "progress" 15;
                 str "message" (lit "Generating summary...")] ;;
  rethrow "Summary streaming failed: "
    (bind (create summary_system_prompt documentText)
       (fun stream =>
          for_await (fst stream) (snd stream)
            (fun (_ : unit) content =>
               if truthy_str content then
                 emit chunk [str "content" content]
               else ret tt)
            tt ;;
          emit complete [str "message" (lit "Summary complete")])).

(** The canned report of [streamMockAnalysis]. *)
Definition mockResponse : jsstring := lit
"## Contract Analysis Report

### Risk Assessment
- **Overall Risk Score**: 75/100 (High)
- **Severity**: High

### Key Issues Identified

1. **Unlimited Liability Clause**
   - The indemnification clause lacks a liability cap
   - Potential exposure to unlimited financial risk

2. **Broad Termination Rights**
   - One-sided termination provisions favor the other party
   - Consider negotiating mutual termination rights

3. **Intellectual Property Assignment**
   - All IP created transfers to client
   - May want to retain license for internal use

### Recommendations

1. Add a liability cap (e.g., 12 months of fees)
2. Negotiate mutual termination rights with 60-day notice
3. Request carve-out for pre-existing IP

### Suggested Redlines

```diff
- The Supplier's liability under this Agreement shall be unlimited.
+ The Supplier's liability shall be limited to the total fees paid in the preceding 12 months.
```

---
*Analysis generated by DocuIntel AI (Demo Mode)*".

(** [mockResponse.split(/(?<=\n)/)]: the text cut after every line feed. *)
Definition mock_chunks : list jsstring :=
  split_zero_width (fun prev _ => code_eqb prev LF) [] mockResponse.

(** The [for (let i = 0; i < chunks.length; i++)] loop.  (The 50 ms pause
    between two chunks is not modelled.) *)
Fixpoint mock_loop (chunks : list jsstring) (i total : nat) : M unit :=
  match chunks with
  | [] => ret tt
  | text :: rest =>
      emit chunk [str "content" text; num "chunkIndex" (num_of_nat i)] ;;
      (if (i mod 5 =? 0)%nat then
         emit progress
           [num "progress"
              (Math_round (num_of_nat i / num_of_nat total * 100));
            str "message" (lit "Generating analysis...")]
       else ret tt) ;;
      mock_loop rest (S i) total
  end.

Definition streamMockAnalysis (input : jsstring) : M unit :=
  mock_loop mock_chunks 0 (length mock_chunks) ;;
  emit complete [str "message" (lit "Analysis complete (Demo Mode)");
                 str "mode" (lit "mock")].

(** ** [GET]

    The request carries the three query parameters, each absent or a
    string. *)
Record Request := {
  caseId : option jsstring;
  prompt : option jsstring;
  mode : option jsstring
}.

Definition nullable (o : option jsstring) : json :=
  match o with Some s => JStr s | None => JNull end.

Definition falsy (o : option jsstring) : bool :=
  match o with Some s => negb (truthy_str s) | None => true end.

(** The body of the [try] block of [start]; a [return] inside it ends
    the body. *)
Definition start_body (request : Request) : M unit :=
  let mode := or_else (mode request) (lit "analyze") in
  emit connected [str "message" (lit "Stream connected");
                  ("caseId"%string, nullable (caseId request));
                  str "mode" mode] ;;
  if falsy (prompt request) && falsy (caseId request) then
    emit error [str "message" (lit "Either prompt or caseId is required")] ;;
    close
  else if falsy OPENAI_API_KEY then
    streamMockAnalysis (or_else (prompt request) (lit "Sample contract analysis"))
  else if str_eqb mode (lit "analyze") then
    streamContractAnalysis (or_else (prompt request) [])
  else if str_eqb mode (lit "chat") then
    streamChatResponse (or_else (prompt request) [])
  else if str_eqb mode (lit "summarize") then
    streamSummary (or_else (prompt request) [])
  else
    streamContractAnalysis (or_else (prompt request) []).

(** [start(controller)]: the [try] / [catch] / [finally] around the body. *)
Definition start (request : Request) : M unit :=
  try_finally
    (try_catch (start_body request)
       (fun message =>
          emit error [str "message"
                        (or_else (Some message) (lit "Stream error occurred"))]))
    close.

(** The stream of one request: the result of [start], run from its
    beginning to its end on a new controller, and the controller it leaves
    behind.  [queue] is what [start] has enqueued, not what a consumer has
    read.  A consumer that cancels the stream while [start] waits for the
    provider, and what the platform does with the stream and its queue
    once [start] has thrown, are outside the model. *)
Definition GET (request : Request) : outcome unit * Controller :=
  start request new_controller.

(** The events of the session, in the order they were enqueued, and
    their types. *)
Definition events (request : Request) : list StreamEvent :=
  queue (snd (GET request)).

Definition event_types (request : Request) : list StreamEventType :=
  map type (events request).

End Session.

(** ** [formatSSE] and [createSSEEncoder] *)

Definition type_name (t : StreamEventType) : jsstring :=
  match t with
  | connected => lit "connected"
  | progress => lit "progress"
  | chunk => lit "chunk"
  | analysis => lit "analysis"
  | complete => lit "complete"
  | error => lit "error"
  end.

Definition is_leading_surrogate (c : code_unit) : bool :=
  ((55296 <=? c) && (c <=? 56319))%N.

Definition is_trailing_surrogate (c : code_unit) : bool :=
  ((56320 <=? c) && (c <=? 57343))%N.

Definition hex_digit (n : N) : code_unit :=
  if (n <? 10)%N then (48 + n)%N else (87 + n)%N.

(** [UnicodeEscape]: a backslash, [u] and four lower-case hexadecimal
    digits. *)
Definition UnicodeEscape (c : code_unit) : jsstring :=
  [92; 117; hex_digit (c / 4096 mod 16); hex_digit (c / 256 mod 16);
   hex_digit (c / 16 mod 16); hex_digit (c mod 16)]%N.

(** What [QuoteJSONString] writes for a code point that is one code
    unit: the two-character escapes of the backspace, the tab, the line
    feed, the form feed, the carriage return, the quotation mark and the
    backslash; a [UnicodeEscape] for the other code units below the space
    and for a surrogate without its partner; the code unit itself
    otherwise. *)
Definition quote_unit (c : code_unit) : jsstring :=
  if (c =? 8)%N then [92; 98]%N
  else if (c =? 9)%N then [92; 116]%N
  else if (c =? 10)%N then [92; 110]%N
  else if (c =? 12)%N then [92; 102]%N
  else if (c =? 13)%N then [92; 114]%N
  else if (c =? 34)%N then [92; 34]%N
  else if (c =? 92)%N then [92; 92]%N
  else if (c <? 32)%N || is_leading_surrogate c || is_trailing_surrogate c
  then UnicodeEscape c
  else [c].

(** The code points of the string one after the other; a leading
    surrogate followed by a trailing one is one code point, written as it
    is. *)
Fixpoint quote_units (s : jsstring) : jsstring :=
  match s with
  | [] => []
  | c :: s' =>
      match s' with
      | d :: s'' =>
          if is_leading_surrogate c && is_trailing_surrogate d
          then c :: d :: quote_units s''
          else quote_unit c ++ quote_units s'
      | [] => quote_unit c
      end
  end.

Definition QuoteJSONString (s : jsstring) : jsstring :=
  [34%N] ++ quote_units s ++ [34%N].

Fixpoint comma_separated (l : list jsstring) : jsstring :=
  match l with
  | [] => []
  | [x] => x
  | x :: l' => x ++ lit "," ++ comma_separated l'
  end.

Section Format.
(** [Number::toString] of a finite number. *)
Variable Number_toString : float -> jsstring.

(** [JSON.stringify(value)] of a payload. *)
Fixpoint JSON_stringify (v : json) : jsstring :=
  match v with
  | JNull => lit "null"
  | JNum x => if is_finite x then Number_toString x else lit "null"
  | JStr s => QuoteJSONString s
  | JObj fields =>
      lit "{"
      ++ comma_separated
           (map (fun kv =>
                   QuoteJSONString (lit (fst kv)) ++ lit ":"
                   ++ JSON_stringify (snd kv))
              fields)
      ++ lit "}"
  end.

Definition formatSSE (event : StreamEvent) : jsstring :=
  lit "event: " ++ type_name (type event) ++ [LF]
  ++ lit "data: " ++ JSON_stringify (data event) ++ [LF; LF].

(** [TextEncoder.prototype.encode]: the UTF-8 bytes of a string. *)
Definition continuation (n : N) : N := (128 + n mod 64)%N.

Definition utf8_code_point (cp : N) : list N :=
  if (cp <? 128)%N then [cp]
  else if (cp <? 2048)%N then [192 + cp / 64; continuation cp]%N
  else if (cp <? 65536)%N then
    [224 + cp / 4096; continuation (cp / 64); continuation cp]%N
  else
    [240 + cp / 262144; continuation (cp / 4096); continuation (cp / 64);
     continuation cp]%N.

(** A surrogate without its partner is encoded as U+FFFD. *)
Definition utf8_unit (c : code_unit) : list N :=
  if is_leading_surrogate c || is_trailing_surrogate c then [239; 191; 189]%N
  else utf8_code_point c.

Fixpoint utf8 (s : jsstring) : list N :=
  match s with
  | [] => []
  | c :: s' =>
      match s' with
      | d :: s'' =>
          if is_leading_surrogate c && is_trailing_surrogate d
          then utf8_code_point (65536 + (c - 55296) * 1024 + (d - 56320))
               ++ utf8 s''
          else utf8_unit c ++ utf8 s'
      | [] => utf8_unit c
      end
  end.

(** [createSSEEncoder().encode(event)] *)
Definition encode (event : StreamEvent) : list N := utf8 (formatSSE event).

End Format.

End Route.

(* ================================================================== *)
(** * Part IV.  Properties of the streaming session                    *)
(* ================================================================== *)

Module RouteSpec.
Import JS Route.

(** The events between [connected] and the terminal event. *)
Definition is_mid (t : StreamEventType) : Prop :=
  t = progress \/ t = chunk \/ t = analysis.

Definition types (evs : list StreamEvent) : list StreamEventType :=
  map type evs.

Definition all_mid (evs : list StreamEvent) : Prop :=
  Forall is_mid (types evs).

(** [traces m Q]: run on an open controller, [m] leaves it open, appends
    some events [evs] to its queue, and its result [r] satisfies
    [Q r evs]. *)
Definition traces {A} (m : M A)
    (Q : outcome A -> list StreamEvent -> Prop) : Prop :=
  forall c, closed c = false ->
    exists evs,
      snd (m c) = {| queue := queue c ++ evs; closed := false |}
      /\ Q (fst (m c)) evs.

(** [m] returns, having emitted intermediate events only. *)
Definition returns_mid {A} (m : M A) : Prop :=
  traces m (fun r evs => (exists a, r = Returned a) /\ all_mid evs).

(** [finishes ok m]: if [ok], [m] returns after intermediate events and
    one final [complete]; otherwise it throws after intermediate events
    only. *)
Definition finished (ok : bool) (r : outcome unit) (evs : list StreamEvent)
    : Prop :=
  if ok then
    r = Returned tt
    /\ exists body e, evs = body ++ [e] /\ type e = complete /\ all_mid body
  else (exists message, r = Thrown message) /\ all_mid evs.

Definition finishes (ok : bool) (m : M unit) : Prop := traces m (finished ok).

Lemma open_controller_eta c :
  closed c = false -> c = {| queue := queue c ++ []; closed := false |}.
Proof. destruct c as [q b]; simpl; intros ->. now rewrite app_nil_r. Qed.

Lemma traces_ret {A} (a : A) (Q : outcome A -> list StreamEvent -> Prop) :
  Q (Returned a) [] -> traces (ret a) Q.
Proof.
  intros HQ c Hc. exists []. simpl. split; [now apply open_controller_eta|exact HQ].
Qed.

Lemma traces_throw {A} e (Q : outcome A -> list StreamEvent -> Prop) :
  Q (Thrown e) [] -> traces (throw e) Q.
Proof.
  intros HQ c Hc. exists []. simpl. split; [now apply open_controller_eta|exact HQ].
Qed.

Lemma traces_emit t fields (Q : outcome unit -> list StreamEvent -> Prop) :
  Q (Returned tt) [{| type := t; data := JObj fields |}] ->
  traces (emit t fields) Q.
Proof.
  intros HQ c Hc. exists [{| type := t; data := JObj fields |}].
  unfold emit, enqueue. rewrite Hc. simpl. auto.
Qed.

Lemma traces_bind {A B} (m : M A) (f : A -> M B) Q1 Q2
    (Q : outcome B -> list StreamEvent -> Prop) :
  traces m Q1 ->
  (forall a, traces (f a) (Q2 a)) ->
  (forall e evs, Q1 (Thrown e) evs -> Q (Thrown e) evs) ->
  (forall a r evs1 evs2,
     Q1 (Returned a) evs1 -> Q2 a r evs2 -> Q r (evs1 ++ evs2)) ->
  traces (bind m f) Q.
Proof.
  intros Hm Hf Hthrow Hseq c Hc.
  destruct (Hm c Hc) as [evs1 [E1 HQ1]].
  unfold bind. destruct (m c) as [[a|e] c1]; simpl in *; subst c1.
  - destruct (Hf a {| queue := queue c ++ evs1; closed := false |} eq_refl)
      as [evs2 [E2 HQ2]]. simpl in E2.
    exists (evs1 ++ evs2). rewrite app_assoc. split; [exact E2|].
    eapply Hseq; eauto.
  - exists evs1. split; [reflexivity|]. auto.
Qed.

Lemma traces_try_catch {A} (body : M A) (handler : jsstring -> M A) Q1 Q2
    (Q : outcome A -> list StreamEvent -> Prop) :
  traces body Q1 ->
  (forall e, traces (handler e) (Q2 e)) ->
  (forall a evs, Q1 (Returned a) evs -> Q (Returned a) evs) ->
  (forall e r evs1 evs2,
     Q1 (Thrown e) evs1 -> Q2 e r evs2 -> Q r (evs1 ++ evs2)) ->
  traces (try_catch body handler) Q.
Proof.
  intros Hm Hh Hret Hseq c Hc.
  destruct (Hm c Hc) as [evs1 [E1 HQ1]].
  unfold try_catch. destruct (body c) as [[a|e] c1]; simpl in *; subst c1.
  - exists evs1. split; [reflexivity|]. auto.
  - destruct (Hh e {| queue := queue c ++ evs1; closed := false |} eq_refl)
      as [evs2 [E2 HQ2]]. simpl in E2.
    exists (evs1 ++ evs2). rewrite app_assoc. split; [exact E2|].
    eapply Hseq; eauto.
Qed.

Lemma all_mid_nil : all_mid [].
Proof. constructor. Qed.

Lemma all_mid_app l1 l2 : all_mid l1 -> all_mid l2 -> all_mid (l1 ++ l2).
Proof. unfold all_mid, types. rewrite map_app, Forall_app. auto. Qed.

Lemma all_mid_single t d :
  is_mid t -> all_mid [{| type := t; data := d |}].
Proof. intros Ht. constructor; [exact Ht|constructor]. Qed.

Lemma mid_progress : is_mid progress. Proof. now left. Qed.
Lemma mid_chunk : is_mid chunk. Proof. right; now left. Qed.
Lemma mid_analysis : is_mid analysis. Proof. right; now right. Qed.

Lemma returns_mid_ret {A} (a : A) : returns_mid (ret a).
Proof. apply traces_ret. split; [now exists a|apply all_mid_nil]. Qed.

Lemma returns_mid_emit t fields : is_mid t -> returns_mid (emit t fields).
Proof.
  intros Ht. apply traces_emit. split; [now exists tt|now apply all_mid_single].
Qed.

Lemma returns_mid_bind {A B} (m : M A) (f : A -> M B) :
  returns_mid m -> (forall a, returns_mid (f a)) -> returns_mid (bind m f).
Proof.
  intros Hm Hf.
  apply traces_bind with
    (Q1 := fun r evs => (exists a, r = Returned a) /\ all_mid evs)
    (Q2 := fun _ r evs => (exists b, r = Returned b) /\ all_mid evs);
    [exact Hm|exact Hf| |].
  - intros e evs [[a H] _]. discriminate H.
  - intros a r evs1 evs2 [_ H1] [Hr H2]. split; [exact Hr|now apply all_mid_app].
Qed.

Create HintDb mid.
#[local] Hint Resolve mid_progress mid_chunk mid_analysis : mid.

(** Sequences of emissions of intermediate events. *)
Ltac mid_steps :=
  repeat first
    [ apply returns_mid_ret
    | apply returns_mid_emit; auto with mid
    | apply returns_mid_bind; [|intros ?] ].

(** [m] emits intermediate events and returns; then [k] finishes. *)
Lemma finishes_bind {A} ok (m : M A) (k : A -> M unit) :
  returns_mid m -> (forall a, finishes ok (k a)) -> finishes ok (bind m k).
Proof.
  intros Hm Hk.
  apply traces_bind with
    (Q1 := fun r evs => (exists a, r = Returned a) /\ all_mid evs)
    (Q2 := fun _ => finished ok);
    [exact Hm|exact Hk| |].
  - intros e evs [[a H] _]. discriminate H.
  - intros a r evs1 evs2 [_ H1] H2. unfold finished in *. destruct ok.
    + destruct H2 as [-> [body [ev [-> [Hty Hb]]]]]. split; [reflexivity|].
      exists (evs1 ++ body), ev. rewrite app_assoc. repeat split; auto.
      now apply all_mid_app.
    + destruct H2 as [Hr H2]. split; [exact Hr|now apply all_mid_app].
Qed.

Lemma finishes_emit_complete fields : finishes true (emit complete fields).
Proof.
  apply traces_emit. split; [reflexivity|].
  exists [], {| type := complete; data := JObj fields |}.
  repeat split. apply all_mid_nil.
Qed.

Lemma finishes_throw e : finishes false (throw e).
Proof. apply traces_throw. split; [now exists e|apply all_mid_nil]. Qed.

Lemma finishes_rethrow ok label (m : M unit) :
  finishes ok m -> finishes ok (rethrow label m).
Proof.
  intros Hm. unfold rethrow.
  apply traces_try_catch with
    (Q1 := finished ok)
    (Q2 := fun _ r evs => (exists e, r = Thrown e) /\ evs = []).
  - exact Hm.
  - intros e. apply traces_throw. split; [now exists (lit label ++ e)|reflexivity].
  - auto.
  - intros e r evs1 evs2 H1 [Hr ->]. rewrite app_nil_r.
    unfold finished in *. destruct ok.
    + destruct H1 as [H1 _]. discriminate H1.
    + destruct H1 as [_ H1]. auto.
Qed.

Section Session.
Variable OPENAI_API_KEY : option jsstring.
Variable AUTOLAWYER_MODEL : option jsstring.
Variable provider : jsstring -> jsstring -> jsstring -> outcome completion_stream.

(** A streamed completion succeeds when the request is answered and the
    stream ends without failing. *)
Definition succeeds (reply : outcome completion_stream) : bool :=
  match reply with
  | Returned (_, ends) => true
  | _ => false
  end.

Abbreviation reply_to system user :=
  (provider (model AUTOLAWYER_MODEL) system user).

Lemma for_await_returns {S} items (body : S -> jsstring -> M S) : forall s,
  (forall s' x, returns_mid (body s' x)) ->
  returns_mid (for_await items ends body s).
Proof.
  intros s Hb. revert s. induction items as [|item rest IH]; intros s; simpl.
  - apply returns_mid_ret.
  - apply returns_mid_bind; auto.
Qed.

Lemma for_await_breaks {S} items e (body : S -> jsstring -> M S) : forall s,
  (forall s' x, returns_mid (body s' x)) ->
  traces (for_await items (breaks e) body s)
    (fun r evs => (exists message, r = Thrown message) /\ all_mid evs).
Proof.
  intros s Hb. revert s. induction items as [|item rest IH]; intros s; simpl.
  - apply traces_throw. split; [now exists e|apply all_mid_nil].
  - apply traces_bind with
      (Q1 := fun r evs => (exists a, r = Returned a) /\ all_mid evs)
      (Q2 := fun _ r evs => (exists message, r = Thrown message) /\ all_mid evs);
      [apply Hb|intros; apply IH| |].
    + intros e' evs [[a H] _]. discriminate H.
    + intros a r evs1 evs2 [_ H1] [Hr H2]. split; [exact Hr|now apply all_mid_app].
Qed.

(** The shape shared by the three streaming functions: ask the provider,
    emit [before], loop over the items, then [after] emits the final
    events. *)
Lemma finishes_streaming {S} system user (before : M unit)
    (body : S -> jsstring -> M S) (s0 : S) (after : S -> M unit) :
  returns_mid before ->
  (forall s x, returns_mid (body s x)) ->
  (forall s, finishes true (after s)) ->
  finishes (succeeds (reply_to system user))
    (bind (create AUTOLAWYER_MODEL provider system user)
       (fun stream =>
          before ;;
          bind (for_await (fst stream) (snd stream) body s0) after)).
Proof.
  intros Hbefore Hbody Hafter c Hc.
  set (k := fun stream : completion_stream =>
              before ;;
              bind (for_await (fst stream) (snd stream) body s0) after).
  assert (Hrun : bind (create AUTOLAWYER_MODEL provider system user) k c
                 = match reply_to system user with
                   | Returned stream => k stream c
                   | Thrown e => (Thrown e, c)
                   end).
  { unfold bind, create. destruct (reply_to system user); reflexivity. }
  rewrite Hrun. clear Hrun.
  destruct (reply_to system user) as [[items fin]|e]; cbn [succeeds].
  - unfold k. cbn [fst snd]. destruct fin as [|e].
    + exact (finishes_bind true before _ Hbefore
               (fun _ => finishes_bind true _ after
                           (for_await_returns items body s0 Hbody) Hafter)
               c Hc).
    + refine (finishes_bind false before _ Hbefore (fun _ => _) c Hc).
      apply traces_bind with
        (Q1 := fun r evs => (exists message, r = Thrown message) /\ all_mid evs)
        (Q2 := fun _ => finished true);
        [now apply for_await_breaks|exact Hafter| |].
      * intros e' evs [_ H]. split; [now exists e'|exact H].
      * intros a r evs1 evs2 [[message H] _]. discriminate H.
  - exists []. simpl. split; [now apply open_controller_eta|].
    split; [now exists e|apply all_mid_nil].
Qed.

Lemma finishes_streamContractAnalysis clauseText :
  finishes
    (succeeds (reply_to analysis_system_prompt
                 (or_else (Some clauseText) sample_clause)))
    (streamContractAnalysis AUTOLAWYER_MODEL provider clauseText).
Proof.
  unfold streamContractAnalysis.
  apply finishes_bind; [mid_steps|intros _].
  apply finishes_rethrow.
  apply (finishes_streaming analysis_system_prompt
           (or_else (Some clauseText) sample_clause)).
  - mid_steps.
  - intros [fullResponse chunkCount] content. cbv beta iota.
    destruct (truthy_str content); [|mid_steps].
    apply returns_mid_bind; [mid_steps|intros _].
    apply returns_mid_bind; [|intros _; mid_steps].
    destruct (S chunkCount mod 10 =? 0)%nat; mid_steps.
  - intros [fullResponse chunkCount].
    apply finishes_bind; [mid_steps|intros _].
    apply finishes_emit_complete.
Qed.

Lemma finishes_streaming_at_once {S} system user
    (body : S -> jsstring -> M S) (s0 : S) (after : S -> M unit) :
  (forall s x, returns_mid (body s x)) ->
  (forall s, finishes true (after s)) ->
  finishes (succeeds (reply_to system user))
    (bind (create AUTOLAWYER_MODEL provider system user)
       (fun stream => bind (for_await (fst stream) (snd stream) body s0) after)).
Proof.
  intros Hbody Hafter.
  exact (finishes_streaming system user (ret tt) body s0 after
           (returns_mid_ret tt) Hbody Hafter).
Qed.

Lemma finishes_streamChatResponse userMessage :
  finishes (succeeds (reply_to chat_system_prompt userMessage))
    (streamChatResponse AUTOLAWYER_MODEL provider userMessage).
Proof.
  unfold streamChatResponse.
  apply finishes_bind; [mid_steps|intros _].
  apply finishes_rethrow.
  apply (finishes_streaming_at_once chat_system_prompt userMessage).
  - intros fullResponse content. destruct (truthy_str content); mid_steps.
  - intros fullResponse. apply finishes_emit_complete.
Qed.

Lemma finishes_streamSummary documentText :
  finishes (succeeds (reply_to summary_system_prompt documentText))
    (streamSummary AUTOLAWYER_MODEL provider documentText).
Proof.
  unfold streamSummary.
  apply finishes_bind; [mid_steps|intros _].
  apply finishes_rethrow.
  apply (finishes_streaming_at_once summary_system_prompt documentText).
  - intros [] content. destruct (truthy_str content); mid_steps.
  - intros _. apply finishes_emit_complete.
Qed.

Lemma returns_mid_mock_loop chunks total : forall i,
  returns_mid (mock_loop chunks i total).
Proof.
  induction chunks as [|text rest IH]; intros i; cbn [mock_loop].
  - apply returns_mid_ret.
  - apply returns_mid_bind; [mid_steps|intros _].
    apply returns_mid_bind; [|intros _; apply IH].
    destruct (i mod 5 =? 0)%nat; mid_steps.
Qed.

(** The scripted path always returns, and so ends with [complete]. *)
Lemma finishes_streamMockAnalysis input :
  finishes true (streamMockAnalysis input).
Proof.
  unfold streamMockAnalysis.
  apply finishes_bind; [apply returns_mid_mock_loop|intros _].
  apply finishes_emit_complete.
Qed.

(** What [start] does once [connected] is enqueued: a body that finishes
    leaves [connected], intermediate events and one terminal event,
    [complete] if it returned and [error] if it threw. *)
Lemma start_after_connected ok fields (m : M unit) handler_fields :
  finishes ok m ->
  exists body,
    types (queue (snd (try_finally
             (try_catch (emit connected fields ;; m)
                (fun message => emit error (handler_fields message)))
             close new_controller)))
    = connected :: body ++ [if ok then complete else error]
    /\ Forall is_mid body.
Proof.
  intros Hm.
  unfold try_finally, try_catch, bind, emit at 1, enqueue at 1. simpl.
  set (c1 := {| queue := [{| type := connected; data := JObj fields |}];
                closed := false |}).
  destruct (Hm c1 eq_refl) as [evs [E HQ]].
  destruct (m c1) as [r c2]. simpl in E, HQ. subst c2.
  unfold finished in HQ. destruct ok.
  - destruct HQ as [-> [body [ev [-> [Hty Hb]]]]].
    exists (types body). simpl.
    unfold types. rewrite map_app. simpl. rewrite Hty. auto.
  - destruct HQ as [[message ->] Hb].
    exists (types evs). unfold emit, enqueue. simpl.
    unfold types. rewrite map_app. simpl. auto.
Qed.

(** Neither a prompt nor a case reference. *)
Definition invalid (request : Request) : bool :=
  falsy (prompt request) && falsy (caseId request).

(** The provider's reply to the one completion that the session asks
    for, which depends on the mode of the request. *)
Definition session_reply (request : Request) : outcome completion_stream :=
  let mode := or_else (mode request) (lit "analyze") in
  let text := or_else (prompt request) [] in
  if str_eqb mode (lit "analyze") then
    reply_to analysis_system_prompt (or_else (Some text) sample_clause)
  else if str_eqb mode (lit "chat") then
    reply_to chat_system_prompt text
  else if str_eqb mode (lit "summarize") then
    reply_to summary_system_prompt text
  else
    reply_to analysis_system_prompt (or_else (Some text) sample_clause).

(** A valid request goes well when no provider key is configured (the
    scripted path) or when the provider's stream succeeds. *)
Definition goes_well (request : Request) : bool :=
  falsy OPENAI_API_KEY || succeeds (session_reply request).

Lemma event_types_invalid request :
  invalid request = true ->
  event_types OPENAI_API_KEY AUTOLAWYER_MODEL provider request
  = [connected; error].
Proof.
  unfold invalid, event_types, events, GET, start, start_body. intros ->.
  reflexivity.
Qed.

Lemma event_types_valid request :
  invalid request = false ->
  exists body,
    event_types OPENAI_API_KEY AUTOLAWYER_MODEL provider request
    = connected :: body
      ++ [if goes_well request then complete else error]
    /\ Forall is_mid body.
Proof.
  unfold invalid, event_types, events, GET, start, start_body, goes_well,
    session_reply.
  intros ->. cbn [andb].
  destruct (falsy OPENAI_API_KEY); cbn [orb];
    [apply (start_after_connected true), finishes_streamMockAnalysis|].
  repeat match goal with
  | |- context [if str_eqb ?a ?b then _ else _] => destruct (str_eqb a b)
  end;
  apply start_after_connected;
  first [ apply finishes_streamContractAnalysis
        | apply finishes_streamChatResponse
        | apply finishes_streamSummary ].
Qed.

(** C1 (as amended).  For every request, provider and environment, the
    session emits [connected] first and exactly one terminal event last,
    with only [progress], [chunk] and [analysis] events in between.  When
    neither a prompt nor a case reference is supplied the events are
    exactly [connected], [error].  Otherwise the terminal event is
    [complete] when the session goes well (the scripted path, or a
    provider stream that ends without failing) and [error] when the
    provider fails; no [complete] follows an [error]. *)
Theorem session_ends_with_terminal_event request :
  let tys := event_types OPENAI_API_KEY AUTOLAWYER_MODEL provider request in
  if invalid request then tys = [connected; error]
  else
    exists body,
      tys = connected :: body
            ++ [if goes_well request then complete else error]
      /\ Forall is_mid body.
Proof.
  intros tys. destruct (invalid request) eqn:Hinv.
  - now apply event_types_invalid.
  - now apply event_types_valid.
Qed.

End Session.

End RouteSpec.

Module RouteExamples.
Import JS Route RouteSpec.

Definition key : option jsstring := Some (lit "sk-test").

Definition answering : jsstring -> jsstring -> jsstring -> outcome completion_stream :=
  fun _ _ _ => Returned ([Some (lit "Clause 4 "); None; Some (lit "is risky.")], ends).

Definition failing : jsstring -> jsstring -> jsstring -> outcome completion_stream :=
  fun _ _ _ => Thrown (lit "401 Unauthorized").

Definition interrupted : jsstring -> jsstring -> jsstring -> outcome completion_stream :=
  fun _ _ _ => Returned ([Some (lit "Clause 4 ")], breaks (lit "socket hang up")).

Definition no_parameters : Request :=
  {| caseId := None; prompt := None; mode := None |}.

Definition chat_request : Request :=
  {| caseId := None; prompt := Some (lit "Is clause 4 risky?");
     mode := Some (lit "chat") |}.

Example answered_chat :
  event_types key None answering chat_request
  = [connected; progress; chunk; chunk; complete].
Proof. reflexivity. Qed.

Example failed_chat :
  event_types key None failing chat_request = [connected; progress; error].
Proof. reflexivity. Qed.

Example interrupted_chat :
  event_types key None interrupted chat_request
  = [connected; progress; chunk; error].
Proof. reflexivity. Qed.

Example failed_chat_message :
  last (events key None failing chat_request)
       {| type := complete; data := JNull |}
  = {| type := error;
       data := JObj [str "message"
                       (lit "Chat streaming failed: 401 Unauthorized")] |}.
Proof. reflexivity. Qed.

(** The scripted path: 35 line chunks, a progress event after every
    fifth, then [complete]. *)
Example mock_session_counts :
  let tys := event_types None None failing chat_request in
  length mock_chunks = 35%nat
  /\ length (filter (fun t => match t with chunk => true | _ => false end) tys) = 35%nat
  /\ length (filter (fun t => match t with progress => true | _ => false end) tys) = 7%nat
  /\ last tys error = complete.
Proof. vm_compute. auto. Qed.

(** The request without parameters closes the controller itself, so the
    [close] of the [finally] block throws. *)
Example no_parameters_start_throws :
  fst (GET key None answering no_parameters)
  = Thrown (lit "Invalid state: Controller is already closed").
Proof. reflexivity. Qed.

(** C1, counterexample.  A request with neither a prompt nor a case
    reference produces [connected], [error] and nothing else: the sequence
    does not end with [complete]. *)
Lemma validation_failure_has_no_complete :
  event_types key None answering no_parameters = [connected; error]
  /\ ~ exists init,
         event_types key None answering no_parameters = init ++ [complete].
Proof.
  assert (E : event_types key None answering no_parameters = [connected; error])
    by reflexivity.
  split; [exact E|].
  intros [init H]. rewrite E in H.
  apply (f_equal (@rev _)) in H. rewrite rev_app_distr in H.
  simpl in H. discriminate H.
Qed.

End RouteExamples.

(* ================================================================== *)
(** * Part V.  Properties of the Segmenter and the Chunker             *)
(* ================================================================== *)

Module SegmenterSpec.
Import JS Rag.

(** No piece of a split is longer than the string that was split. *)
Definition all_within (n : nat) (pieces : list jsstring) : Prop :=
  Forall (fun piece => length piece <= n) pieces.

Lemma all_within_weaken n m pieces :
  n <= m -> all_within n pieces -> all_within m pieces.
Proof.
  intros Hnm H. eapply Forall_impl; [|exact H]. simpl. intros; lia.
Qed.

Lemma split_zero_width_within look s : forall cur,
  all_within (length cur + length s) (split_zero_width look cur s).
Proof.
  induction s as [|c s IH]; intros cur; simpl.
  - constructor; [rewrite length_rev; lia|constructor].
  - destruct cur as [|prev cur'].
    + eapply all_within_weaken; [|apply IH]. simpl; lia.
    + destruct (look prev (c :: s)).
      * constructor; [rewrite length_rev; simpl; lia|].
        eapply all_within_weaken; [|apply IH]. simpl; lia.
      * eapply all_within_weaken; [|apply IH]. simpl; lia.
Qed.

Lemma split_consuming_within m s : forall skip cur,
  all_within (length cur + length s) (split_consuming m skip cur s).
Proof.
  induction s as [|c s IH]; intros skip cur; simpl.
  - constructor; [rewrite length_rev; lia|constructor].
  - destruct skip as [|k].
    + destruct (m (c :: s)) as [[|k]|].
      * eapply all_within_weaken; [|apply IH]. simpl; lia.
      * constructor; [rewrite length_rev; lia|].
        eapply all_within_weaken; [|apply IH]. simpl; lia.
      * eapply all_within_weaken; [|apply IH]. simpl; lia.
    + eapply all_within_weaken; [|apply IH]. lia.
Qed.

Lemma pattern_within split seg :
  In split patterns -> all_within (length seg) (split seg).
Proof.
  unfold patterns. simpl.
  intros [<-|[<-|[<-|[]]]].
  - apply (split_zero_width_within _ seg []).
  - apply (split_zero_width_within _ seg []).
  - apply (split_consuming_within _ seg 0 []).
Qed.

Lemma flat_map_within n (split : jsstring -> list jsstring) segments :
  (forall seg, all_within (length seg) (split seg)) ->
  all_within n segments -> all_within n (flat_map split segments).
Proof.
  intros Hsplit H. induction H as [|seg rest Hseg _ IH]; simpl.
  - constructor.
  - apply Forall_app. split; [|exact IH].
    eapply all_within_weaken; [exact Hseg|apply Hsplit].
Qed.

Lemma passes_within n (ps : list (jsstring -> list jsstring)) :
  (forall split, In split ps ->
     forall seg, all_within (length seg) (split seg)) ->
  forall segments, all_within n segments ->
  all_within n
    (fold_left (fun segments split => flat_map split segments) ps segments).
Proof.
  induction ps as [|split ps IH]; intros Hp segments H0; simpl.
  - exact H0.
  - apply IH.
    + intros; apply Hp; now right.
    + apply flat_map_within; [apply Hp; now left|exact H0].
Qed.

Lemma cascade_within text : all_within (length text) (cascade text).
Proof.
  unfold cascade. apply passes_within.
  - intros; now apply pattern_within.
  - constructor; [lia|constructor].
Qed.

Lemma drop_while_length p s : length (drop_while p s) <= length s.
Proof.
  induction s as [|c s IH]; simpl; [lia|]. destruct (p c); simpl; lia.
Qed.

Lemma trim_length s : length (trim s) <= length s.
Proof.
  unfold trim. rewrite length_rev.
  etransitivity; [apply drop_while_length|]. rewrite length_rev.
  apply drop_while_length.
Qed.

Lemma trimmed_within text s :
  In s (map trim (cascade text)) -> length s <= length text.
Proof.
  rewrite in_map_iff. intros [seg [<- Hin]].
  pose proof (cascade_within text) as H.
  unfold all_within in H. rewrite Forall_forall in H.
  specialize (H seg Hin). pose proof (trim_length seg). lia.
Qed.

Lemma filter_rejects_all {A} (f : A -> bool) l :
  (forall x, In x l -> f x = false) -> filter f l = [].
Proof.
  induction l as [|x l IH]; intros H; simpl; [reflexivity|].
  rewrite (H x (or_introl eq_refl)). apply IH. intros; apply H; now right.
Qed.

(** C4 (as amended).  The Segmenter returns, in order, the trimmed
    segments of the three cascading passes whose length is strictly more
    than 50: a trimmed segment is kept exactly when it has at least 51
    code units, so a segment of exactly 50 is dropped.  Consequently a
    text of at most 50 code units yields no segment. *)
Theorem segmentClauses_keeps_more_than_50 text :
  segmentClauses text
  = filter (fun s => 50 <? length s) (map trim (cascade text))
  /\ (forall s, In s (segmentClauses text) <->
                In s (map trim (cascade text)) /\ 50 < length s)
  /\ (length text <= 50 -> segmentClauses text = []).
Proof.
  split; [reflexivity|]. split.
  - intros s. unfold segmentClauses. rewrite filter_In, Nat.ltb_lt. tauto.
  - intros Hshort. unfold segmentClauses.
    apply filter_rejects_all. intros s Hin.
    apply trimmed_within in Hin. apply Nat.ltb_ge. lia.
Qed.

Lemma segmentClauses_short_text_witness :
  length (lit "A short note.") <= 50 /\ segmentClauses (lit "A short note.") = [].
Proof.
  split; [vm_compute; lia|].
  apply (proj2 (proj2 (segmentClauses_keeps_more_than_50 (lit "A short note.")))).
  vm_compute; lia.
Defined.

(** A text of exactly fifty code units, none of them white space. *)
Definition fifty : jsstring := repeat 97%N 50.

(** C4, counterexample.  The only trimmed segment of [fifty] has length
    50, which is at least the 50-character minimum, and it is dropped. *)
Lemma segment_of_length_50_is_dropped :
  In fifty (map trim (cascade fifty))
  /\ 50 <= length fifty
  /\ ~ In fifty (segmentClauses fifty).
Proof.
  split; [vm_compute; now left|].
  split; [vm_compute; lia|].
  vm_compute. intros [].
Qed.

Example segment_of_length_51_is_kept :
  segmentClauses (repeat 97%N 51) = [repeat 97%N 51].
Proof. reflexivity. Qed.

(** A three-part contract: two clauses and a ten-character noise line
    between blank lines. *)
Definition contract : jsstring :=
  lit "Section 1 Indemnification. The Supplier shall indemnify and hold harmless the Client." ++ [LF; LF] ++
  lit "short line" ++ [LF; LF] ++
  lit "Section 2 Termination. Either party may terminate this Agreement upon sixty days notice.".

Example contract_segments :
  segmentClauses contract =
  [ lit "Section 1 Indemnification. The Supplier shall indemnify and hold harmless the Client.";
    lit "Section 2 Termination. Either party may terminate this Agreement upon sixty days notice." ].
Proof. reflexivity. Qed.

(** The section pattern splits before the line feed of a marker line,
    whatever the case of the marker. *)
Example section_markers_split :
  split_sections (lit "Preamble" ++ [LF] ++ lit "  ARTICLE 12 Fees" ++ [LF]
                  ++ lit "clause 3 Term")
  = [ lit "Preamble"; [LF] ++ lit "  ARTICLE 12 Fees";
      [LF] ++ lit "clause 3 Term" ].
Proof. reflexivity. Qed.

Example numbered_items_split :
  split_numbered (lit "Terms" ++ [LF] ++ lit "1. Fees are due" ++ [LF]
                  ++ lit "2. late fees")
  = [ lit "Terms"; [LF] ++ lit "1. Fees are due" ++ [LF] ++ lit "2. late fees" ].
Proof. reflexivity. Qed.

Example blank_lines_split :
  split_blank_lines ([LF; LF] ++ lit "a" ++ [LF; 32%N; LF; 32%N] ++ lit "b" ++ [LF; LF])
  = [ []; lit "a"; [32%N] ++ lit "b"; [] ].
Proof. reflexivity. Qed.

End SegmenterSpec.

Module ChunkerSpec.
Import JS Rag.
#[local] Open Scope Z_scope.

Section Windows.
Variable extractHeading : jsstring -> jsstring.
Variable classifyClauseType : jsstring -> jsstring.
Variables chunkSize chunkOverlap : Z.
Variables (src segment : jsstring) (charOffset : Z).

Abbreviation L := (len segment).
Abbreviation step := (chunkSize - chunkOverlap).

(** The window that starts at [start], as the passage numbered [n]. *)
Definition window (n : nat) (start : Z) : DocumentChunk :=
  make_chunk extractHeading classifyClauseType src n
    (slice segment start (Z.min (start + chunkSize) L))
    (charOffset + start) (charOffset + Z.min (start + chunkSize) L).

(** [k] successive windows from [start], numbered from [n]. *)
Fixpoint windows_from (k : nat) (start : Z) (n : nat) : list DocumentChunk :=
  match k with
  | O => []
  | S k' => window n start :: windows_from k' (start + step) (S n)
  end.

(** How many window positions [0, step, 2 step, ...] lie before the end
    of the segment. *)
Definition window_count : nat := Z.to_nat ((L + step - 1) / step).

Lemma window_loop_runs k : forall fuel start chunks,
  0 < step ->
  (k < fuel)%nat ->
  L <= start + Z.of_nat k * step ->
  (k = O \/ start + (Z.of_nat k - 1) * step < L) ->
  window_loop extractHeading classifyClauseType chunkSize chunkOverlap
    fuel src segment charOffset start chunks
  = Some (chunks ++ windows_from k start (length chunks)).
Proof.
  induction k as [|k IH]; intros fuel start chunks Hstep Hfuel Hend Hlast;
    (destruct fuel as [|fuel]; [lia|]); cbn [window_loop windows_from].
  - replace (start <? L) with false by (symmetry; apply Z.ltb_ge; lia).
    now rewrite app_nil_r.
  - replace (start <? L) with true by (symmetry; apply Z.ltb_lt; nia).
    rewrite IH by lia.
    rewrite length_app. simpl length. rewrite Nat.add_1_r.
    now rewrite <- app_assoc.
Qed.

Lemma windows_from_length k : forall start n,
  length (windows_from k start n) = k.
Proof. induction k; intros; simpl; auto. Qed.

Lemma windows_from_nth k : forall start n i w,
  nth_error (windows_from k start n) i = Some w ->
  w = window (n + i) (start + Z.of_nat i * step).
Proof.
  induction k as [|k IH]; intros start n i w; simpl.
  - destruct i; discriminate.
  - destruct i as [|i]; simpl.
    + intros [= <-]. now rewrite Nat.add_0_r, Z.add_0_r.
    + intros H. apply IH in H. subst w.
      replace (S n + i)%nat with (n + S i)%nat by lia.
      replace (start + step + Z.of_nat i * step)
        with (start + Z.of_nat (S i) * step) by lia.
      reflexivity.
Qed.

Lemma window_count_spec :
  0 < step -> 0 <= L ->
  L <= Z.of_nat window_count * step
  /\ (window_count = O \/ (Z.of_nat window_count - 1) * step < L).
Proof.
  intros Hstep HL. unfold window_count.
  pose proof (Z.mul_div_le (L + step - 1) step Hstep) as Hlo.
  pose proof (Z.mul_succ_div_gt (L + step - 1) step Hstep) as Hhi.
  assert (Hq : 0 <= (L + step - 1) / step) by (apply Z.div_pos; lia).
  rewrite Z2Nat.id by exact Hq.
  split; [nia|]. right. nia.
Qed.

(** With an overlap that is not smaller than the window, the window start
    never advances and the loop never ends. *)
Lemma window_loop_never_returns fuel : forall start chunks,
  step <= 0 -> start < L ->
  window_loop extractHeading classifyClauseType chunkSize chunkOverlap
    fuel src segment charOffset start chunks = None.
Proof.
  induction fuel as [|fuel IH]; intros start chunks Hstep Hstart;
    cbn [window_loop]; [reflexivity|].
  replace (start <? L) with true by (symmetry; apply Z.ltb_lt; lia).
  apply IH; lia.
Qed.

(** C5 (as amended).  Let the overlap be smaller than the window and the
    segment longer than the window.  Given fuel for one more turn than
    there are windows, [createChunks] (here: its loop over the segments,
    at any position of the document) emits for that segment one passage
    per window start [0, step, 2 step, ...] with [step = window -
    overlap], stops at the first start at or past the segment's end, and
    goes on with the next segment.  The spans of two consecutive passages
    overlap by [min overlap (length - next start)]: by exactly the
    configured overlap when the earlier window fits in the segment, and by
    less when that window was cut at the segment's end. *)
Theorem long_segment_is_windowed fuel rest chunks :
  chunkOverlap < chunkSize ->
  chunkSize < L ->
  (window_count < fuel)%nat ->
  let ws := windows_from window_count 0 (length chunks) in
  chunk_segments extractHeading classifyClauseType chunkSize chunkOverlap
    fuel src (segment :: rest) charOffset chunks
  = chunk_segments extractHeading classifyClauseType chunkSize chunkOverlap
      fuel src rest (charOffset + L) (chunks ++ ws)
  /\ length ws = window_count
  /\ L <= Z.of_nat window_count * step
  /\ (forall i w, nth_error ws i = Some w ->
        Z.of_nat i * step < L
        /\ charStart (metadata w) = charOffset + Z.of_nat i * step
        /\ charEnd (metadata w)
           = charOffset + Z.min (Z.of_nat i * step + chunkSize) L
        /\ content w
           = slice segment (Z.of_nat i * step)
               (Z.min (Z.of_nat i * step + chunkSize) L))
  /\ (forall i w w',
        nth_error ws i = Some w -> nth_error ws (S i) = Some w' ->
        charEnd (metadata w) - charStart (metadata w')
        = Z.min chunkOverlap (L - Z.of_nat (S i) * step)
        /\ (Z.of_nat i * step + chunkSize <= L ->
            charEnd (metadata w) - charStart (metadata w') = chunkOverlap)).
Proof.
  intros Hov Hlong Hfuel ws.
  assert (Hstep : 0 < step) by lia.
  assert (HL : 0 <= L) by (unfold len; lia).
  destruct (window_count_spec Hstep HL) as [Hend Hlast].
  assert (Hnth : forall i w, nth_error ws i = Some w ->
            w = window (length chunks + i) (Z.of_nat i * step)
            /\ Z.of_nat i * step < L).
  { intros i w Hw. split.
    - apply windows_from_nth in Hw. now rewrite Z.add_0_l in Hw.
    - assert (Hi : (i < window_count)%nat).
      { rewrite <- (windows_from_length window_count 0 (length chunks)).
        apply nth_error_Some. fold ws. now rewrite Hw. }
      destruct Hlast as [H0|Hlast]; [lia|]. nia. }
  split; [|split; [|split; [|split]]].
  - cbn [chunk_segments].
    replace (L <=? chunkSize) with false by (symmetry; apply Z.leb_gt; lia).
    rewrite (window_loop_runs window_count) by (auto; lia).
    reflexivity.
  - apply windows_from_length.
  - exact Hend.
  - intros i w Hw. destruct (Hnth i w Hw) as [-> Hi]. auto.
  - intros i w w' Hw Hw'.
    destruct (Hnth i w Hw) as [-> Hi]. destruct (Hnth (S i) w' Hw') as [-> Hi'].
    cbn [window make_chunk metadata charEnd charStart]. lia.
Qed.

End Windows.

(** ** The default configuration on a segment of 1700 code units *)

Definition plain_heading (_ : jsstring) : jsstring := lit "Unnamed Section".
Definition plain_category (_ : jsstring) : jsstring := lit "general".

Definition defaults : Service := ragService None.

Definition long_segment : jsstring := repeat 120%N 1700.

Definition spans (chunks : list DocumentChunk) : list (Z * Z) :=
  map (fun c => (charStart (metadata c), charEnd (metadata c))) chunks.

Example default_window_and_overlap :
  chunkSize defaults = 1000 /\ chunkOverlap defaults = 200.
Proof. split; reflexivity. Qed.

Example long_segment_spans :
  option_map spans
    (createChunks plain_heading plain_category
       (chunkSize defaults) (chunkOverlap defaults) 4 [long_segment] (lit "doc"))
  = Some [(0, 1000); (800, 1700); (1600, 1700)].
Proof. vm_compute. reflexivity. Qed.

(** C5, counterexample.  With the default window of 1000 and overlap of
    200, the second window of a segment of 1700 code units is cut at the
    segment's end, and the third passage overlaps it by 100 code units,
    not by 200. *)
Lemma last_window_overlaps_by_less :
  exists chunks w w',
    createChunks plain_heading plain_category
      (chunkSize defaults) (chunkOverlap defaults) 4 [long_segment] (lit "doc")
    = Some chunks
    /\ chunkSize defaults < len long_segment
    /\ nth_error chunks 1 = Some w
    /\ nth_error chunks 2 = Some w'
    /\ charEnd (metadata w) - charStart (metadata w') = 100
    /\ charEnd (metadata w) - charStart (metadata w') <> chunkOverlap defaults.
Proof.
  destruct (createChunks plain_heading plain_category
              (chunkSize defaults) (chunkOverlap defaults) 4 [long_segment]
              (lit "doc")) as [chunks|] eqn:E; [|vm_compute in E; discriminate E].
  vm_compute in E. injection E as <-.
  do 3 eexists. split; [reflexivity|].
  split; [vm_compute; reflexivity|].
  split; [reflexivity|]. split; [reflexivity|].
  split; [reflexivity|]. vm_compute. discriminate.
Qed.

Lemma long_segment_is_windowed_witness :
  chunkOverlap defaults < chunkSize defaults
  /\ chunkSize defaults < len long_segment
  /\ (window_count (chunkSize defaults) (chunkOverlap defaults) long_segment < 4)%nat
  /\ Z.of_nat 3 * (chunkSize defaults - chunkOverlap defaults) >= len long_segment.
Proof.
  assert (H1 : chunkOverlap defaults < chunkSize defaults) by (vm_compute; reflexivity).
  assert (H2 : chunkSize defaults < len long_segment) by (vm_compute; reflexivity).
  assert (H3 : (window_count (chunkSize defaults) (chunkOverlap defaults)
                  long_segment < 4)%nat) by (vm_compute; lia).
  repeat split; auto.
  pose proof (long_segment_is_windowed plain_heading plain_category
                (chunkSize defaults) (chunkOverlap defaults)
                (lit "doc") long_segment 0 4 [] [] H1 H2 H3)
    as [_ [_ [Hend _]]].
  replace (window_count (chunkSize defaults) (chunkOverlap defaults) long_segment)
    with 3%nat in Hend by (vm_compute; reflexivity).
  lia.
Defined.

(** When the overlap is not smaller than the window, the first long
    segment is never finished, whatever fuel is given. *)
Example overlap_as_large_as_window :
  forall fuel,
    createChunks plain_heading plain_category 100 100 fuel [long_segment] (lit "doc")
    = None.
Proof.
  intros fuel. unfold createChunks. cbn [chunk_segments].
  replace (len long_segment <=? 100) with false by (vm_compute; reflexivity).
  rewrite window_loop_never_returns; [reflexivity|lia|vm_compute; reflexivity].
Qed.

End ChunkerSpec.

(* ================================================================== *)
(** * Part VI.  Properties of the Grounded Generator                   *)
(* ================================================================== *)

Module GeneratorSpec.
Import JS Rag.

(** ** Sets of indices in insertion order *)

(** The position of the first occurrence of [x] in [l] (the length of
    [l] when there is none). *)
Fixpoint index_of (x : Z) (l : list Z) : nat :=
  match l with
  | [] => O
  | y :: l' => if Z.eqb x y then O else S (index_of x l')
  end.

Lemma index_of_lt x l : In x l -> index_of x l < length l.
Proof.
  induction l as [|y l IH]; simpl; [tauto|].
  destruct (Z.eqb_spec x y); [lia|]. intros [->|H]; [congruence|].
  apply IH in H. lia.
Qed.

Lemma index_of_app_in x l l' : In x l -> index_of x (l ++ l') = index_of x l.
Proof.
  induction l as [|y l IH]; simpl; [tauto|].
  destruct (Z.eqb_spec x y); [reflexivity|].
  intros [->|H]; [congruence|]. now rewrite IH.
Qed.

Lemma index_of_app_fresh x l : ~ In x l -> index_of x (l ++ [x]) = length l.
Proof.
  induction l as [|y l IH]; simpl; intros H.
  - now rewrite Z.eqb_refl.
  - destruct (Z.eqb_spec x y); [exfalso; apply H; now left|].
    rewrite IH; [reflexivity|tauto].
Qed.

Lemma existsb_eqb_In x s : existsb (Z.eqb x) s = true <-> In x s.
Proof.
  rewrite existsb_exists. split.
  - intros [y [Hin Heq]]. apply Z.eqb_eq in Heq. now subst.
  - intros Hin. exists x. split; [exact Hin|apply Z.eqb_refl].
Qed.

(** The set built by adding the elements of [l] one after the other. *)
Definition added (l : list Z) : list Z := fold_left set_add l [].

Lemma added_snoc l x : added (l ++ [x]) = set_add (added l) x.
Proof. unfold added. now rewrite fold_left_app. Qed.

Lemma added_In l : forall y, In y (added l) <-> In y l.
Proof.
  induction l as [|x l IH] using rev_ind; intros y; [simpl; tauto|].
  rewrite added_snoc. unfold set_add.
  destruct (existsb (Z.eqb x) (added l)) eqn:E.
  - apply -> existsb_eqb_In in E. apply -> IH in E.
    rewrite in_app_iff, IH. simpl. intuition (subst; auto).
  - rewrite !in_app_iff, IH. tauto.
Qed.

(** [first_appearance l] orders two values by their first occurrence in
    [l]. *)
Definition first_appearance (l : list Z) (i j : Z) : Prop :=
  index_of i l < index_of j l.

Lemma StronglySorted_snoc {A} (R : A -> A -> Prop) l x :
  StronglySorted R l -> Forall (fun y => R y x) l -> StronglySorted R (l ++ [x]).
Proof.
  induction 1 as [|y l Hs IH Hy]; intros Hx; simpl.
  - repeat constructor.
  - inversion Hx; subst. constructor; [auto|].
    apply Forall_app. split; [exact Hy|]. constructor; [assumption|constructor].
Qed.

Lemma StronglySorted_weaken {A} (R R' : A -> A -> Prop) l :
  (forall x y, In x l -> In y l -> R x y -> R' x y) ->
  StronglySorted R l -> StronglySorted R' l.
Proof.
  intros HR Hs. induction Hs as [|x l Hs IH Hx]; constructor.
  - apply IH. intros; apply HR; simpl; auto.
  - rewrite Forall_forall in *. intros y Hy. apply HR; simpl; auto.
Qed.

Lemma StronglySorted_filter {A} (R : A -> A -> Prop) f l :
  StronglySorted R l -> StronglySorted R (filter f l).
Proof.
  induction 1 as [|x l Hs IH Hx]; simpl; [constructor|].
  destruct (f x); [|exact IH]. constructor; [exact IH|].
  rewrite Forall_forall in *. intros y Hy. apply filter_In in Hy. apply Hx, Hy.
Qed.

Lemma added_sorted l : StronglySorted (first_appearance l) (added l).
Proof.
  induction l as [|x l IH] using rev_ind; [constructor|].
  assert (Hold : StronglySorted (first_appearance (l ++ [x])) (added l)).
  { eapply StronglySorted_weaken; [|exact IH].
    intros i j Hi Hj. unfold first_appearance.
    apply -> added_In in Hi. apply -> added_In in Hj.
    rewrite (index_of_app_in _ _ [x] Hi), (index_of_app_in _ _ [x] Hj). auto. }
  rewrite added_snoc. unfold set_add.
  destruct (existsb (Z.eqb x) (added l)) eqn:E; [exact Hold|].
  apply StronglySorted_snoc; [exact Hold|].
  assert (Hx : ~ In x l).
  { intros Hin. apply <- added_In in Hin. apply <- existsb_eqb_In in Hin.
    congruence. }
  apply Forall_forall. intros y Hy. apply -> added_In in Hy.
  unfold first_appearance.
  rewrite (index_of_app_in _ _ _ Hy), (index_of_app_fresh _ _ Hx).
  now apply index_of_lt.
Qed.

Lemma sorted_NoDup l s : StronglySorted (first_appearance l) s -> NoDup s.
Proof.
  induction 1 as [|x s Hs IH Hx]; constructor; [|exact IH].
  intros Hin. rewrite Forall_forall in Hx. specialize (Hx x Hin).
  unfold first_appearance in Hx. lia.
Qed.

(** ** [generate] *)

Lemma slice_prefix {A} (l : list A) (n : nat) :
  slice l 0 (Z.of_nat n) = firstn n l.
Proof.
  unfold slice, clamp_index.
  replace (0 <? 0)%Z with false by reflexivity.
  replace (Z.of_nat n <? 0)%Z with false by (symmetry; apply Z.ltb_ge; lia).
  rewrite (Z.min_l 0) by lia. simpl skipn.
  rewrite Z.sub_0_r.
  destruct (Nat.le_ge_cases n (length l)) as [H|H].
  - rewrite Z.min_l by lia. now rewrite Nat2Z.id.
  - rewrite Z.min_r by lia. rewrite Nat2Z.id.
    now rewrite !firstn_all2 by lia.
Qed.

Lemma keptIndices_in_range text context :
  Forall (fun i => (0 <= i < Z.of_nat (length context))%Z)
    (keptIndices text context).
Proof.
  apply Forall_forall. intros i Hi. apply filter_In in Hi.
  destruct Hi as [_ Hi]. unfold in_context in Hi.
  apply andb_true_iff in Hi. destruct Hi as [H1 H2].
  apply Z.leb_le in H1. apply Z.ltb_lt in H2. lia.
Qed.

Lemma cite_in_range context kept :
  Forall (fun i => (0 <= i < Z.of_nat (length context))%Z) kept ->
  Forall2
    (fun i c => exists p, nth_error context (Z.to_nat i) = Some p
                          /\ c = citation_of p)
    kept (flat_map (cite context) kept).
Proof.
  induction 1 as [|i kept Hi _ IH]; simpl; [constructor|].
  unfold cite at 1.
  destruct (nth_error context (Z.to_nat i)) as [p|] eqn:E.
  - simpl. constructor; [now exists p|exact IH].
  - apply nth_error_None in E. lia.
Qed.

Section Provider.
Variable chat_completions_create :
  jsstring -> jsstring -> jsstring -> outcome (option jsstring).
Variable svc : Service.
Variable query : jsstring.
Variable context : list RetrievalResult.

Abbreviation generate' := (generate chat_completions_create svc query context).

(** C8.  When the generation call succeeds, the citations of the
    response are those of the kept indices, one each and in that order;
    every kept index is a valid position of the context; an index is kept
    exactly when its marker (index plus one) occurs in the answer and it
    is a valid position, so markers out of range are discarded; no index
    is kept twice; and the kept indices are ordered by the first
    appearance of their marker in the answer. *)
Theorem citations_valid_unique_in_first_appearance_order content :
  chat_completions_create (completionModel svc) (systemPrompt context) query
  = Returned content ->
  let text := str_or content [] in
  let marked := map (fun m => (m - 1)%Z) (citation_markers 0 text) in
  let kept := keptIndices text context in
  exists r,
    generate' = Returned r
    /\ answer r = text
    /\ Forall2
         (fun i c => exists p, nth_error context (Z.to_nat i) = Some p
                               /\ c = citation_of p)
         kept (citations r)
    /\ Forall (fun i => (0 <= i < Z.of_nat (length context))%Z) kept
    /\ (forall i, In i kept <->
                  In i marked /\ (0 <= i < Z.of_nat (length context))%Z)
    /\ NoDup kept
    /\ StronglySorted (first_appearance marked) kept.
Proof.
  intros Hcall text marked kept.
  unfold generate, try_catch. rewrite Hcall. fold text. fold kept.
  eexists. split; [reflexivity|]. cbn [answer citations].
  pose proof (keptIndices_in_range text context) as Hrange. fold kept in Hrange.
  assert (Hsorted : StronglySorted (first_appearance marked) kept).
  { unfold kept, keptIndices, citedIndices. fold marked.
    apply StronglySorted_filter. apply added_sorted. }
  split; [reflexivity|]. split; [now apply cite_in_range|].
  split; [exact Hrange|]. split; [|split; [|exact Hsorted]].
  - intros i. unfold kept, keptIndices, citedIndices. fold marked.
    rewrite filter_In. fold (added marked). rewrite added_In.
    unfold in_context. rewrite andb_true_iff, Z.leb_le, Z.ltb_lt. tauto.
  - eapply sorted_NoDup, Hsorted.
Qed.

(** What the [catch] block returns.  When the generation call fails,
    [generate] still returns: the answer is the fallback text with the
    number of context passages, the citations are those of the first
    [min 3 (length context)] passages, the confidence is 0.5 and the
    response is marked as grounded, whatever the citations are: they are
    empty exactly when the context is. *)
Lemma generate_falls_back message :
  chat_completions_create (completionModel svc) (systemPrompt context) query
  = Thrown message ->
  exists r,
    generate' = Returned r
    /\ answer r = fallback_answer context
    /\ citations r = map citation_of (firstn (Nat.min 3 (length context)) context)
    /\ length (citations r) = Nat.min 3 (length context)
    /\ confidence r = 0.5%float
    /\ groundedOnSources r = true
    /\ (citations r = [] <-> context = []).
Proof.
  intros Hcall. unfold generate, try_catch. rewrite Hcall.
  eexists. split; [reflexivity|]. cbn [answer citations confidence groundedOnSources].
  replace (slice context 0 3) with (firstn 3 context)
    by (symmetry; apply (slice_prefix context 3)).
  assert (E : firstn (Nat.min 3 (length context)) context = firstn 3 context).
  { destruct (Nat.le_ge_cases 3 (length context)) as [H|H].
    - now rewrite Nat.min_l.
    - rewrite Nat.min_r by exact H. now rewrite !firstn_all2 by lia. }
  rewrite E. repeat split.
  - rewrite length_map, length_firstn. reflexivity.
  - destruct context; [reflexivity|discriminate].
  - intros ->. reflexivity.
Qed.

End Provider.

(** ** A context of three passages *)

#[local] Open Scope float_scope.

Definition passage (name text : string) (s : float) : RetrievalResult :=
  {| chunk := {| id := lit name; content := lit text;
                 metadata := {| source := lit "msa.txt"; page := None;
                                clauseType := Some (lit "general");
                                heading := Some (lit "Unnamed Section");
                                charStart := 0; charEnd := 0 |};
                 embedding := None |};
     score := s;
     relevanceExplanation := None |}.

Definition three_passages : list RetrievalResult :=
  [ passage "msa.txt-0" "The Supplier shall indemnify the Client." 0.9;
    passage "msa.txt-1" "Either party may terminate on notice." 0.8;
    passage "msa.txt-2" "Fees are payable within thirty days." 0.7 ].

Definition service : Service := ragService None.

Definition replies (text : string)
    : jsstring -> jsstring -> jsstring -> outcome (option jsstring) :=
  fun _ _ _ => Returned (Some (lit text)).

Definition unavailable
    : jsstring -> jsstring -> jsstring -> outcome (option jsstring) :=
  fun _ _ _ => Thrown (lit "503 Service Unavailable").

Definition cited_answer : string :=
  "Notice is required [2]; indemnity applies [1], see again [2], [7], [0] and [x].".

Example markers_of_cited_answer :
  citation_markers 0 (lit cited_answer) = [2; 1; 2; 7; 0]%Z
  /\ citedIndices (lit cited_answer) = [1; 0; 6; -1]%Z
  /\ keptIndices (lit cited_answer) three_passages = [1; 0]%Z.
Proof. repeat split. Qed.

Example citations_of_cited_answer :
  match generate (replies cited_answer) service (lit "What applies?") three_passages with
  | Returned r =>
      map chunkId (citations r) = [lit "msa.txt-1"; lit "msa.txt-0"]
      /\ groundedOnSources r = true
  | Thrown _ => False
  end.
Proof. vm_compute. split; reflexivity. Qed.

Lemma citations_witness :
  replies cited_answer (completionModel service) (systemPrompt three_passages)
    (lit "What applies?")
  = Returned (Some (lit cited_answer))
  /\ NoDup (keptIndices (lit cited_answer) three_passages).
Proof.
  split; [reflexivity|].
  destruct (citations_valid_unique_in_first_appearance_order
              (replies cited_answer) service (lit "What applies?")
              three_passages (Some (lit cited_answer)) eq_refl)
    as [r [_ [_ [_ [_ [_ [Hnodup _]]]]]]].
  exact Hnodup.
Defined.

Example fallback_text :
  fallback_answer three_passages
  = lit "Based on the provided documents, I found 3 relevant sections. However, I encountered an issue generating a detailed response. Please try again or review the source documents directly.".
Proof. reflexivity. Qed.

Lemma fallback_on_three_passages :
  unavailable (completionModel service) (systemPrompt three_passages)
    (lit "What applies?")
  = Thrown (lit "503 Service Unavailable")
  /\ exists r,
       generate unavailable service (lit "What applies?") three_passages
       = Returned r
       /\ length (citations r) = 3%nat
       /\ groundedOnSources r = true.
Proof.
  split; [reflexivity|].
  destruct (generate_falls_back unavailable service (lit "What applies?")
              three_passages (lit "503 Service Unavailable") eq_refl)
    as [r [Hr [_ [_ [Hlen [_ [Hg _]]]]]]].
  exists r. split; [exact Hr|]. split; [exact Hlen|exact Hg].
Defined.

(** C2.  The failing input: the generation call fails and the context is
    empty.  [generate] returns, with the fallback text and confidence
    0.5, a response marked as grounded that has no citation.  On the same
    empty context the [try] block, which sets the mark to
    [citations.length > 0], returns a response that is not grounded. *)
Theorem fallback_grounded_without_citations :
  (exists r,
     generate unavailable service (lit "What applies?") [] = Returned r
     /\ answer r = fallback_answer []
     /\ confidence r = 0.5
     /\ groundedOnSources r = true
     /\ citations r = []
     /\ ~ (groundedOnSources r = true /\ citations r <> []))
  /\ exists r',
       generate (replies cited_answer) service (lit "What applies?") []
       = Returned r'
       /\ citations r' = []
       /\ groundedOnSources r' = false.
Proof.
  split.
  - eexists. split; [reflexivity|].
    cbn [answer confidence groundedOnSources citations].
    repeat (split; [reflexivity|]). intros [_ H]. now apply H.
  - eexists. split; [vm_compute; reflexivity|].
    split; reflexivity.
Qed.

End GeneratorSpec.

(* ================================================================== *)
(** * Part VII.  Facts about binary64 numbers                          *)
(* ================================================================== *)

(** The Standard Library specifies the primitive operations through
    [Prim2SF] and the functions of [SpecFloat]; what the Vector Index and
    the Retriever need of them is derived here: a comparison of two
    numbers is the comparison of two integers, the sign of a difference
    is the order of its operands, and a sum, a product or a quotient of
    non-negative numbers stays below every number that its exact value
    does not pass. *)
Module FloatFacts.
#[local] Open Scope Z_scope.


Lemma digits2_pos_size p : digits2_pos p = Pos.size p.
Proof. induction p; simpl; congruence. Qed.

Lemma digits_upper p : Zpos p < 2 ^ Zpos (digits2_pos p).
Proof.
  rewrite digits2_pos_size. pose proof (Pos.size_gt p) as H.
  rewrite <- Pos2Z.inj_pow. exact H.
Qed.

Lemma digits_lower p : 2 ^ Zpos (digits2_pos p) <= 2 * Zpos p.
Proof.
  rewrite digits2_pos_size. pose proof (Pos.size_le p) as H.
  rewrite <- Pos2Z.inj_pow. exact H.
Qed.

Lemma iter_xO m d : Zpos (Pos.iter xO m d) = Zpos m * 2 ^ Zpos d.
Proof.
  induction d as [|d IH] using Pos.peano_ind.
  - simpl. lia.
  - rewrite Pos.iter_succ, Pos2Z.inj_xO, IH, Pos2Z.inj_succ, Z.pow_succ_r by lia. lia.
Qed.

Lemma shl_align_value m e e' :
  e' <= e ->
  Zpos (fst (shl_align m e e')) = Zpos m * 2 ^ (e - e').
Proof.
  intros H. unfold shl_align.
  destruct (e' - e) as [|d|d] eqn:E.
  - assert (e - e' = 0) as -> by lia. simpl. lia.
  - lia.
  - simpl fst. rewrite iter_xO. f_equal. f_equal. lia.
Qed.

(** canonical *)
Lemma bounded_canonical m e :
  bounded prec emax m e = true ->
  Zpos (digits2_pos m) <= 53
  /\ -1074 <= e
  /\ (e = -1074 \/ Zpos (digits2_pos m) = 53).
Proof.
  unfold bounded, canonical_mantissa, fexp, SpecFloat.emin, prec, emax.
  intros H. apply andb_true_iff in H. destruct H as [H _].
  apply Z.eqb_eq in H. lia.
Qed.

Definition aligned (s : bool) (m : positive) (e ez : Z) : Z :=
  cond_Zopp s (Zpos (fst (shl_align m e ez))).

Lemma pow2_pos n : 0 < 2 ^ n \/ n < 0.
Proof. destruct (Z.lt_ge_cases n 0); [now right|left; apply Z.pow_pos_nonneg; lia]. Qed.

Lemma mantissa_lt_of_exponent_lt m1 e1 m2 e2 :
  bounded prec emax m1 e1 = true ->
  bounded prec emax m2 e2 = true ->
  e1 < e2 ->
  Zpos m1 < Zpos m2 * 2 ^ (e2 - e1).
Proof.
  intros H1 H2 Hlt.
  apply bounded_canonical in H1, H2.
  destruct H1 as [Hd1 [He1 _]]. destruct H2 as [Hd2 [He2 [He2'|Hd2']]]; [lia|].
  pose proof (digits_upper m1) as U1.
  pose proof (digits_lower m2) as L2. rewrite Hd2' in L2.
  assert (2 ^ Zpos (digits2_pos m1) <= 2 ^ 53) by (apply Z.pow_le_mono_r; lia).
  assert (2 ^ 1 <= 2 ^ (e2 - e1)) by (apply Z.pow_le_mono_r; lia).
  change (2 ^ 1) with 2 in *.
  nia.
Qed.

Lemma SFcompare_finite s1 m1 e1 s2 m2 e2 :
  bounded prec emax m1 e1 = true ->
  bounded prec emax m2 e2 = true ->
  SFcompare (S754_finite s1 m1 e1) (S754_finite s2 m2 e2)
  = Some (aligned s1 m1 e1 (Z.min e1 e2) ?= aligned s2 m2 e2 (Z.min e1 e2)).
Proof.
  intros H1 H2. unfold aligned.
  rewrite !shl_align_value by lia.
  simpl SFcompare.
  destruct (Z.compare_spec e1 e2) as [Heq|Hlt|Hgt].
  - subst e2. rewrite Z.min_id, Z.sub_diag. simpl (2 ^ 0). rewrite !Z.mul_1_r.
    destruct s1, s2; simpl; reflexivity.
  - pose proof (mantissa_lt_of_exponent_lt _ _ _ _ H1 H2 Hlt) as Hm.
    rewrite Z.min_l by lia. rewrite Z.sub_diag. simpl (2 ^ 0). rewrite Z.mul_1_r.
    pose proof (Pos2Z.is_pos m1) as P1. set (big := Zpos m2 * 2 ^ (e2 - e1)) in *.
    destruct s1, s2; simpl cond_Zopp; f_equal; symmetry.
    + apply Z.compare_gt_iff. lia.
    + apply Z.compare_lt_iff. lia.
    + apply Z.compare_gt_iff. lia.
    + apply Z.compare_lt_iff. lia.
  - pose proof (mantissa_lt_of_exponent_lt _ _ _ _ H2 H1 ltac:(lia)) as Hm.
    rewrite Z.min_r by lia. rewrite Z.sub_diag. simpl (2 ^ 0). rewrite Z.mul_1_r.
    pose proof (Pos2Z.is_pos m2) as P2. set (big := Zpos m1 * 2 ^ (e1 - e2)) in *.
    destruct s1, s2; simpl cond_Zopp; f_equal; symmetry.
    + apply Z.compare_lt_iff. lia.
    + apply Z.compare_lt_iff. lia.
    + apply Z.compare_gt_iff. lia.
    + apply Z.compare_gt_iff. lia.
Qed.

(** shifting right *)
Lemma shr_1_m r : 0 <= shr_m r -> shr_m (shr_1 r) = shr_m r / 2.
Proof.
  destruct r as [m rr ss]. simpl. destruct m as [|p|p]; intros H; try lia.
  - reflexivity.
  - destruct p; simpl.
    + rewrite Pos2Z.inj_xI. apply Z.div_unique with 1; lia.
    + rewrite Pos2Z.inj_xO. apply Z.div_unique with 0; lia.
    + reflexivity.
Qed.

Lemma iter_shr_1_m p : forall r,
  0 <= shr_m r -> shr_m (SpecFloat.iter_pos shr_1 p r) = shr_m r / 2 ^ Zpos p.
Proof.
  assert (Hnn : forall x n, 0 <= x -> 0 <= n -> 0 <= x / 2 ^ n)
    by (intros; apply Z.div_pos; [lia|apply Z.pow_pos_nonneg; lia]).
  induction p as [p IH|p IH|]; intros r Hr; simpl SpecFloat.iter_pos.
  - rewrite IH, IH, shr_1_m; try lia.
    + replace (Zpos p~1) with (1 + Zpos p + Zpos p) by lia.
      rewrite !Z.div_div by (try apply Z.pow_pos_nonneg; lia).
      f_equal. rewrite !Z.pow_add_r by lia. lia.
    + rewrite shr_1_m by lia. apply Z.div_pos; lia.
    + rewrite IH; [|rewrite shr_1_m by lia; apply Z.div_pos; lia].
      apply Hnn; [|lia]. rewrite shr_1_m by lia; apply Z.div_pos; lia.
  - rewrite IH, IH; try lia.
    + replace (Zpos p~0) with (Zpos p + Zpos p) by lia.
      rewrite !Z.div_div by (try apply Z.pow_pos_nonneg; lia).
      f_equal. rewrite !Z.pow_add_r by lia. lia.
    + rewrite IH by lia. apply Hnn; lia.
  - rewrite shr_1_m by lia. reflexivity.
Qed.

Lemma shr_record_of_loc_m m l : shr_m (shr_record_of_loc m l) = m.
Proof. destruct l as [|[]]; reflexivity. Qed.

Lemma Zdigits2_lower m : 0 < m -> 2 ^ Zdigits2 m <= 2 * m.
Proof. destruct m; try lia. intros _. apply digits_lower. Qed.

Lemma shr_fexp_positive m e l :
  0 < m -> -1074 <= e ->
  0 < shr_m (fst (shr_fexp prec emax m e l))
  /\ -1074 <= snd (shr_fexp prec emax m e l).
Proof.
  intros Hm He. unfold shr_fexp, shr, fexp, SpecFloat.emin, prec, emax.
  destruct (Z.max (Zdigits2 m + e - 53) (3 - 1024 - 53) - e) as [|p|p] eqn:E;
    simpl; rewrite ?shr_record_of_loc_m; try lia.
  rewrite iter_shr_1_m by (rewrite shr_record_of_loc_m; lia).
  rewrite shr_record_of_loc_m. split; [|lia].
  assert (Hd : Zpos p = Zdigits2 m - 53) by lia.
  pose proof (Zdigits2_lower m Hm) as Hlow.
  assert (Hpow : 2 ^ Zdigits2 m = 2 ^ Zpos p * 2 ^ 53).
  { rewrite <- Z.pow_add_r by lia. f_equal. lia. }
  assert (0 < 2 ^ Zpos p) by (apply Z.pow_pos_nonneg; lia).
  apply Z.div_str_pos. split; [lia|].
  assert (2 ^ 53 = 9007199254740992) by reflexivity. nia.
Qed.

Lemma round_nearest_even_positive m l : 0 < m -> 0 < round_nearest_even m l.
Proof.
  intros H. unfold round_nearest_even. destruct l as [|[]]; try lia.
  destruct (Z.even m); lia.
Qed.

Definition has_sign (s : bool) (x : spec_float) : Prop :=
  match x with
  | S754_finite s' _ _ | S754_infinity s' => s' = s
  | _ => False
  end.

Lemma binary_round_aux_sign sx m e l :
  0 < m -> -1074 <= e -> has_sign sx (binary_round_aux prec emax sx m e l).
Proof.
  intros Hm He. unfold binary_round_aux.
  pose proof (shr_fexp_positive m e l Hm He) as [H1 H1e].
  destruct (shr_fexp prec emax m e l) as [mrs' e']. simpl in H1, H1e.
  pose proof (round_nearest_even_positive (shr_m mrs') (loc_of_shr_record mrs') H1) as H2.
  pose proof (shr_fexp_positive _ e' loc_Exact H2 H1e) as [H3 _].
  destruct (shr_fexp prec emax _ e' loc_Exact) as [mrs'' e'']. simpl in H3.
  destruct (shr_m mrs''); try lia.
  destruct (e'' <=? emax - prec); reflexivity.
Qed.

Lemma binary_round_sign sx m e :
  -1074 <= e -> has_sign sx (binary_round prec emax sx m e).
Proof.
  intros He. unfold binary_round.
  destruct (shl_align m e (fexp prec emax (Zpos (digits2_pos m) + e))) as [mz ez] eqn:E.
  apply binary_round_aux_sign; [lia|].
  unfold shl_align in E.
  destruct (fexp prec emax (Zpos (digits2_pos m) + e) - e) eqn:E2;
    injection E as <- <-; try lia.
  unfold fexp, SpecFloat.emin, prec, emax. lia.
Qed.

Lemma SFltb_zero_of_sign s r :
  has_sign s r -> SFltb r (S754_zero false) = s.
Proof.
  destruct r as [| s' | | s' m e]; simpl; intros H; try contradiction; subst s';
    destruct s; reflexivity.
Qed.

Lemma SFsub_negative_iff_lt x y :
  valid_binary x = true -> valid_binary y = true ->
  SFltb (SF64sub x y) (S754_zero false) = SFltb x y.
Proof.
  intros Hx Hy.
  destruct x as [sx|sx| |sx mx ex], y as [sy|sy| |sy my ey];
    try (destruct sx; reflexivity); try (destruct sy; reflexivity);
    try (destruct sx, sy; reflexivity); try reflexivity.
  simpl in Hx, Hy.
  unfold SFltb at 2. rewrite (SFcompare_finite _ _ _ _ _ _ Hx Hy).
  unfold SF64sub, SFsub. fold (aligned sx mx ex (Z.min ex ey)).
  fold (aligned sy my ey (Z.min ex ey)).
  set (M1 := aligned sx mx ex (Z.min ex ey)).
  set (M2 := aligned sy my ey (Z.min ex ey)).
  assert (Hez : -1074 <= Z.min ex ey).
  { apply bounded_canonical in Hx, Hy. lia. }
  unfold binary_normalize.
  destruct (Z.compare_spec M1 M2) as [Heq|Hlt|Hgt].
  - replace (M1 - M2) with 0 by lia. reflexivity.
  - destruct (M1 - M2) as [|p|p] eqn:E; try lia.
    apply SFltb_zero_of_sign. now apply binary_round_sign.
  - destruct (M1 - M2) as [|p|p] eqn:E; try lia.
    apply SFltb_zero_of_sign. now apply binary_round_sign.
Qed.



Definition huge : Z := 2 ^ 2200.

Definition scaled (x : spec_float) : option Z :=
  match x with
  | S754_nan => None
  | S754_zero _ => Some 0
  | S754_infinity s => Some (cond_Zopp s huge)
  | S754_finite s m e => Some (cond_Zopp s (Zpos m * 2 ^ (e + 1074)))
  end.

Lemma finite_scaled_bounds m e :
  bounded prec emax m e = true ->
  0 < Zpos m * 2 ^ (e + 1074) < huge.
Proof.
  intros H. pose proof (bounded_canonical m e H) as [Hd [He _]].
  unfold bounded in H. apply andb_true_iff in H. destruct H as [_ H].
  apply Z.leb_le in H. unfold emax, prec in H.
  pose proof (digits_upper m) as U.
  assert (2 ^ Zpos (digits2_pos m) <= 2 ^ 53) by (apply Z.pow_le_mono_r; lia).
  assert (0 < 2 ^ (e + 1074)) by (apply Z.pow_pos_nonneg; lia).
  assert (2 ^ (e + 1074) <= 2 ^ 2045) by (apply Z.pow_le_mono_r; lia).
  assert (Hh : huge = 2 ^ 53 * 2 ^ 2045 * 2 ^ 102).
  { unfold huge. rewrite <- !Z.pow_add_r by lia. reflexivity. }
  assert (0 < 2 ^ 53) by (apply Z.pow_pos_nonneg; lia).
  assert (0 < 2 ^ 2045) by (apply Z.pow_pos_nonneg; lia).
  assert (2 <= 2 ^ 102) by (change 2 with (2 ^ 1) at 1; apply Z.pow_le_mono_r; lia).
  split; [lia|]. rewrite Hh.
  set (a := 2 ^ 53) in *. set (b := 2 ^ 2045) in *. set (c := 2 ^ 102) in *.
  set (d := 2 ^ (e + 1074)) in *.
  assert (Zpos m * d < a * b) by nia. nia.
Qed.

Ltac decide_compare :=
  f_equal; symmetry;
  first [ apply Z.compare_eq_iff; lia
        | apply Z.compare_lt_iff; lia
        | apply Z.compare_gt_iff; lia ].

Lemma SFcompare_scaled_finite sx mx ex sy my ey :
  bounded prec emax mx ex = true -> bounded prec emax my ey = true ->
  SFcompare (S754_finite sx mx ex) (S754_finite sy my ey)
  = match scaled (S754_finite sx mx ex), scaled (S754_finite sy my ey) with
    | Some a, Some b => Some (a ?= b)
    | _, _ => None
    end.
Proof.
  intros Hx Hy. cbn [scaled]. rewrite (SFcompare_finite _ _ _ _ _ _ Hx Hy). f_equal.
  unfold aligned. rewrite !shl_align_value by lia.
  pose proof (bounded_canonical _ _ Hx) as [_ [Hex _]].
  pose proof (bounded_canonical _ _ Hy) as [_ [Hey _]].
  set (ez := Z.min ex ey).
  assert (Hc : 0 < 2 ^ (ez + 1074)) by (apply Z.pow_pos_nonneg; lia).
  set (c := 2 ^ (ez + 1074)) in *.
  set (a := Zpos mx * 2 ^ (ex - ez)). set (b := Zpos my * 2 ^ (ey - ez)).
  assert (Ea : Zpos mx * 2 ^ (ex + 1074) = a * c).
  { unfold a, c. rewrite <- Z.mul_assoc, <- Z.pow_add_r by lia.
    do 2 f_equal. lia. }
  assert (Eb : Zpos my * 2 ^ (ey + 1074) = b * c).
  { unfold b, c. rewrite <- Z.mul_assoc, <- Z.pow_add_r by lia.
    do 2 f_equal. lia. }
  rewrite Ea, Eb.
  replace (cond_Zopp sx (a * c)) with (cond_Zopp sx a * c) by (destruct sx; simpl; ring).
  replace (cond_Zopp sy (b * c)) with (cond_Zopp sy b * c) by (destruct sy; simpl; ring).
  apply Zmult_compare_compat_r. lia.
Qed.

Lemma SFcompare_scaled x y :
  valid_binary x = true -> valid_binary y = true ->
  SFcompare x y = match scaled x, scaled y with
                  | Some a, Some b => Some (a ?= b)
                  | _, _ => None
                  end.
Proof.
  intros Hx Hy.
  assert (Hhuge : 0 < huge) by (apply Z.pow_pos_nonneg; lia).
  destruct x as [sx|sx| |sx mx ex], y as [sy|sy| |sy my ey]; simpl in Hx, Hy;
    try reflexivity;
    try (now apply SFcompare_scaled_finite);
    cbn [scaled SFcompare];
    try pose proof (finite_scaled_bounds _ _ Hx);
    try pose proof (finite_scaled_bounds _ _ Hy);
    try (destruct sx; try destruct sy; cbn [cond_Zopp]; decide_compare);
    try (destruct sy; cbn [cond_Zopp]; decide_compare).
Qed.

(** ** Rounding to nearest never passes a number of the format

    The operations round the exact result [m * 2 ^ e] to the format.  If
    the exact result is at most a number [mB * 2 ^ eB] of the format, so
    is the rounded one: this is what keeps a chain of operations within
    bounds that are themselves numbers.  Exponents go down to [-2200]
    here, which covers the products and quotients of two numbers. *)

Lemma pow2_split a b : 0 <= a -> 0 <= b -> 2 ^ (a + b) = 2 ^ a * 2 ^ b.
Proof. intros. apply Z.pow_add_r; lia. Qed.

Lemma pow2_positive a : 0 <= a -> 0 < 2 ^ a.
Proof. intros. apply Z.pow_pos_nonneg; lia. Qed.

(** exact shifts keep the sticky bits clear *)
Lemma shr_1_exact r q :
  shr_r r = false -> shr_s r = false -> shr_m r = 2 * q -> 0 <= q ->
  shr_r (shr_1 r) = false /\ shr_s (shr_1 r) = false /\ shr_m (shr_1 r) = q.
Proof.
  destruct r as [m rr ss]. cbn [shr_m shr_r shr_s]. intros -> -> Hm Hq.
  destruct m as [|[p|p|]|p]; cbn [shr_1 shr_m shr_r shr_s orb]; try lia;
    repeat split; lia.
Qed.

Lemma iter_shr_1_exact p : forall r q,
  shr_r r = false -> shr_s r = false -> shr_m r = q * 2 ^ Zpos p -> 0 <= q ->
  shr_r (SpecFloat.iter_pos shr_1 p r) = false
  /\ shr_s (SpecFloat.iter_pos shr_1 p r) = false
  /\ shr_m (SpecFloat.iter_pos shr_1 p r) = q.
Proof.
  induction p as [p IH|p IH|]; intros r q Hr Hs Hm Hq; simpl SpecFloat.iter_pos.
  - assert (Hp : 0 < 2 ^ Zpos p) by (apply pow2_positive; lia).
    destruct (shr_1_exact r (q * 2 ^ Zpos p * 2 ^ Zpos p) Hr Hs) as [R1 [S1 M1]].
    { rewrite Hm. replace (Zpos p~1) with (1 + (Zpos p + Zpos p)) by lia.
      rewrite !pow2_split by lia. change (2 ^ 1) with 2. ring. }
    { nia. }
    destruct (IH _ (q * 2 ^ Zpos p) R1 S1 M1) as [R2 [S2 M2]]; [nia|].
    apply (IH _ q R2 S2 M2 Hq).
  - assert (Hp : 0 < 2 ^ Zpos p) by (apply pow2_positive; lia).
    destruct (IH r (q * 2 ^ Zpos p) Hr Hs) as [R2 [S2 M2]].
    { rewrite Hm. replace (Zpos p~0) with (Zpos p + Zpos p) by lia.
      rewrite !pow2_split by lia. ring. }
    { nia. }
    apply (IH _ q R2 S2 M2 Hq).
  - apply shr_1_exact; auto. rewrite Hm. change (2 ^ 1) with 2. ring.
Qed.

Lemma round_nearest_even_bounds m l :
  m <= round_nearest_even m l <= m + 1.
Proof.
  unfold round_nearest_even. destruct l as [|[]]; try lia. destruct (Z.even m); lia.
Qed.

(** The first step of rounding: the mantissa is shifted to the exponent
    of its format, and goes up by at most one; it stays where it is when
    nothing is lost. *)
Lemma shr_rounds m e l n :
  0 <= m -> 0 <= n ->
  let '(mrs, e') := shr (shr_record_of_loc m l) e n in
  let m2 := round_nearest_even (shr_m mrs) (loc_of_shr_record mrs) in
  e' = e + n
  /\ m / 2 ^ n <= m2 <= m / 2 ^ n + 1
  /\ (l = loc_Exact -> m mod 2 ^ n = 0 -> m2 = m / 2 ^ n).
Proof.
  intros Hm Hn. unfold shr. destruct n as [|p|p]; try lia.
  - rewrite Z.add_0_r. change (2 ^ 0) with 1. rewrite Z.div_1_r.
    split; [reflexivity|]. rewrite shr_record_of_loc_m.
    split; [apply round_nearest_even_bounds|].
    intros -> _. reflexivity.
  - split; [reflexivity|].
    assert (Hp : 0 < 2 ^ Zpos p) by (apply pow2_positive; lia).
    assert (E : shr_m (SpecFloat.iter_pos shr_1 p (shr_record_of_loc m l))
                = m / 2 ^ Zpos p).
    { rewrite iter_shr_1_m; rewrite shr_record_of_loc_m; [reflexivity|lia]. }
    rewrite <- E. split; [apply round_nearest_even_bounds|].
    intros -> Hmod.
    destruct (iter_shr_1_exact p (shr_record_of_loc m loc_Exact) (m / 2 ^ Zpos p))
      as [R [S M]]; try reflexivity.
    + simpl. rewrite (Z.div_mod m (2 ^ Zpos p)) at 1 by lia. rewrite Hmod. lia.
    + apply Z.div_pos; lia.
    + destruct (SpecFloat.iter_pos shr_1 p _) as [m' r' s']. simpl in *. subst.
      reflexivity.
Qed.

Lemma fexp_64 x : fexp prec emax x = Z.max (x - 53) (-1074).
Proof. reflexivity. Qed.

Lemma Zdigits2_upper m : 0 <= m -> m < 2 ^ Zdigits2 m.
Proof. destruct m; try lia; intros _; [reflexivity|apply digits_upper]. Qed.

Lemma Zdigits2_nonneg m : 0 <= Zdigits2 m.
Proof. destruct m; simpl; lia. Qed.

(** A mantissa shifted down to 53 digits keeps its leading digit. *)
Lemma shifted_mantissa_normal m n :
  0 < m -> 0 <= n -> n = Zdigits2 m - 53 -> 2 ^ 52 <= m / 2 ^ n.
Proof.
  intros Hm Hn E. pose proof (Zdigits2_lower m Hm) as L.
  assert (Hd : Zdigits2 m = n + 1 + 52) by lia. rewrite Hd in L.
  rewrite !pow2_split in L by lia. change (2 ^ 1) with 2 in L.
  assert (0 < 2 ^ n) by (apply pow2_positive; lia).
  apply Z.div_le_lower_bound; [lia|]. nia.
Qed.

Lemma bounded_below m e :
  bounded prec emax m e = true ->
  Zpos m < 2 ^ 53 /\ -1074 <= e <= 971.
Proof.
  intros H. pose proof (bounded_canonical m e H) as [Hd [He _]].
  unfold bounded in H. apply andb_true_iff in H. destruct H as [_ H].
  apply Z.leb_le in H. unfold emax, prec in H.
  pose proof (digits_upper m) as U.
  assert (2 ^ Zpos (digits2_pos m) <= 2 ^ 53) by (apply Z.pow_le_mono_r; lia).
  lia.
Qed.

(** The last step of rounding: a mantissa and an exponent are packed
    into a number. *)
Definition pack (m e : Z) : spec_float :=
  match m with
  | Z0 => S754_zero false
  | Zpos p => if e <=? emax - prec then S754_finite false p e else S754_infinity false
  | Zneg _ => S754_nan
  end.

Lemma pack_upper m e mB eB :
  0 <= m -> -1074 <= e ->
  (-1074 < e -> 2 ^ 52 <= m) ->
  bounded prec emax mB eB = true ->
  m * 2 ^ (e + 1074) <= Zpos mB * 2 ^ (eB + 1074) ->
  exists k, scaled (pack m e) = Some k /\ 0 <= k <= Zpos mB * 2 ^ (eB + 1074).
Proof.
  intros Hm He Hnormal HB Hle.
  pose proof (bounded_below mB eB HB) as [HmB HeB].
  assert (HE : 0 < 2 ^ (e + 1074)) by (apply pow2_positive; lia).
  assert (HF : 0 < 2 ^ (eB + 1074)) by (apply pow2_positive; lia).
  unfold pack. destruct m as [|p|p]; try lia.
  - exists 0. split; [reflexivity|]. nia.
  - destruct (e <=? emax - prec) eqn:E.
    + exists (Zpos p * 2 ^ (e + 1074)). split; [reflexivity|]. nia.
    + exfalso. apply Z.leb_gt in E. unfold emax, prec in E.
      assert (H52 : 2 ^ 52 <= Zpos p) by (apply Hnormal; lia).
      assert (P1 : 2 ^ (e + 1074) = 2 ^ (e - 972) * 2 ^ 2046).
      { rewrite <- pow2_split by lia. f_equal. lia. }
      assert (P2 : 2 ^ 2045 = 2 ^ (971 - eB) * 2 ^ (eB + 1074)).
      { rewrite <- pow2_split by lia. f_equal. lia. }
      assert (P3 : 2 ^ 2046 = 2 * 2 ^ 2045) by reflexivity.
      assert (P4 : 2 ^ 53 = 2 * 2 ^ 52) by reflexivity.
      assert (0 < 2 ^ (e - 972)) by (apply pow2_positive; lia).
      assert (0 < 2 ^ (971 - eB)) by (apply pow2_positive; lia).
      assert (0 < 2 ^ 52) by (apply pow2_positive; lia).
      assert (0 < 2 ^ 2045) by (apply pow2_positive; lia).
      set (a := 2 ^ (e - 972)) in *. set (b := 2 ^ (971 - eB)) in *.
      set (F := 2 ^ (eB + 1074)) in *. set (t := 2 ^ 52) in *.
      set (E' := 2 ^ (e + 1074)) in *. set (u := 2 ^ 2045) in *.
      set (u' := 2 ^ 2046) in *. set (t' := 2 ^ 53) in *.
      assert (Zpos mB * F < t' * F) by nia.
      assert (t' * F <= t' * u) by nia.
      assert (t * u' <= Zpos p * E') by nia.
      nia.
Qed.

(** The second shift, after the mantissa went up: it loses nothing that
    would take the number above the bound. *)
Lemma shr_exact_keeps m e :
  0 <= m -> -1074 <= e ->
  (-1074 < e -> 2 ^ 52 <= m) ->
  let '(mrs, e') := shr_fexp prec emax m e loc_Exact in
  0 <= shr_m mrs /\ -1074 <= e'
  /\ (-1074 < e' -> 2 ^ 52 <= shr_m mrs)
  /\ shr_m mrs * 2 ^ (e' + 1074) <= m * 2 ^ (e + 1074).
Proof.
  intros Hm He Hnormal. unfold shr_fexp, shr. rewrite fexp_64.
  destruct (Z.max (Zdigits2 m + e - 53) (-1074) - e) as [|p|p] eqn:En;
    cbn [shr_record_of_loc shr_m]; try (repeat split; auto; lia).
  assert (HP : 0 < 2 ^ Zpos p) by (apply pow2_positive; lia).
  rewrite iter_shr_1_m by (simpl; lia). cbn [shr_m].
  assert (Hpos : 0 < m).
  { destruct m as [|q|q]; try lia. simpl in En. lia. }
  split; [apply Z.div_pos; lia|]. split; [lia|]. split.
  - intros Hgt. apply shifted_mantissa_normal; lia.
  - replace (e + Zpos p + 1074) with (Zpos p + (e + 1074)) by lia.
    rewrite pow2_split by lia.
    assert (0 < 2 ^ (e + 1074)) by (apply pow2_positive; lia).
    pose proof (Z.mul_div_le m (2 ^ Zpos p) HP). nia.
Qed.

Lemma binary_round_aux_pack m e l :
  binary_round_aux prec emax false m e l
  = let '(mrs, e1) := shr_fexp prec emax m e l in
    let '(mrs', e2) :=
      shr_fexp prec emax (round_nearest_even (shr_m mrs) (loc_of_shr_record mrs))
               e1 loc_Exact in
    pack (shr_m mrs') e2.
Proof. reflexivity. Qed.

(** Rounding to nearest does not pass a number of the format: what is at
    most [mB * 2 ^ eB] before rounding is at most that after it. *)
Lemma first_shift_upper m e l mB eB :
  0 <= m -> -2200 <= e ->
  0 <= fexp prec emax (Zdigits2 m + e) - e ->
  bounded prec emax mB eB = true ->
  m * 2 ^ (e + 2200) <= Zpos mB * 2 ^ (eB + 2200) ->
  (l <> loc_Exact -> m * 2 ^ (e + 2200) < Zpos mB * 2 ^ (eB + 2200)) ->
  let '(mrs, e1) := shr_fexp prec emax m e l in
  let m2 := round_nearest_even (shr_m mrs) (loc_of_shr_record mrs) in
  0 <= m2 /\ -1074 <= e1
  /\ (-1074 < e1 -> 2 ^ 52 <= m2)
  /\ m2 * 2 ^ (e1 + 1074) <= Zpos mB * 2 ^ (eB + 1074).
Proof.
  intros Hm He Hn HB Hle Hlt.
  pose proof (bounded_below mB eB HB) as [HmB HeB].
  unfold shr_fexp.
  set (n := fexp prec emax (Zdigits2 m + e) - e) in *.
  pose proof (shr_rounds m e l n Hm Hn) as Hs.
  destruct (shr (shr_record_of_loc m l) e n) as [mrs e1].
  set (m2 := round_nearest_even (shr_m mrs) (loc_of_shr_record mrs)) in *.
  destruct Hs as [He1 [Hm2 Hexact]].
  assert (HN : 0 < 2 ^ n) by (apply pow2_positive; lia).
  assert (Hq : 0 <= m / 2 ^ n) by (apply Z.div_pos; lia).
  assert (Ee1 : e1 = Z.max (Zdigits2 m + e - 53) (-1074)).
  { rewrite He1. unfold n. rewrite fexp_64. lia. }
  assert (Hpos : -1074 < e1 -> 0 < m).
  { intros Hgt. destruct m as [|q|q]; try lia. simpl in Ee1. lia. }
  assert (Hnormal : -1074 < e1 -> 2 ^ 52 <= m2).
  { intros Hgt. specialize (Hpos Hgt).
    transitivity (m / 2 ^ n); [|lia]. apply shifted_mantissa_normal; lia. }
  assert (HE : 0 < 2 ^ (e + 2200)) by (apply pow2_positive; lia).
  assert (HF : 0 < 2 ^ (eB + 2200)) by (apply pow2_positive; lia).
  assert (Hb : e1 <= eB).
  { destruct (Z.le_gt_cases e1 eB) as [|Hgt]; [assumption|exfalso].
    assert (Hp : 0 < m) by (apply Hpos; lia).
    pose proof (Zdigits2_lower m Hp) as L.
    assert (Hd : Zdigits2 m = n + 52 + 1) by lia. rewrite Hd in L.
    rewrite (pow2_split (n + 52) 1) in L by lia. change (2 ^ 1) with 2 in L.
    assert (P1 : 2 ^ (e1 + 2252) = 2 ^ (n + 52) * 2 ^ (e + 2200)).
    { rewrite <- pow2_split by lia. f_equal. lia. }
    assert (P2 : 2 ^ (eB + 2253) = 2 ^ 53 * 2 ^ (eB + 2200)).
    { rewrite <- pow2_split by lia. f_equal. lia. }
    assert (P3 : 2 ^ (eB + 2253) <= 2 ^ (e1 + 2252)) by (apply Z.pow_le_mono_r; lia).
    set (E := 2 ^ (e + 2200)) in *. set (F := 2 ^ (eB + 2200)) in *.
    set (t := 2 ^ 53) in *. set (w := 2 ^ (n + 52)) in *.
    assert (Zpos mB * F < t * F) by nia.
    assert (w * E <= m * E) by nia.
    lia. }
  split; [lia|]. split; [lia|]. split; [exact Hnormal|].
  set (A := 2 ^ (eB - e1)).
  assert (HA : 0 < A) by (apply pow2_positive; lia).
  assert (P : 2 ^ (eB + 2200) = A * 2 ^ n * 2 ^ (e + 2200)).
  { unfold A. rewrite <- !pow2_split by lia. f_equal. lia. }
  assert (Q : 2 ^ (eB + 1074) = A * 2 ^ (e1 + 1074)).
  { unfold A. rewrite <- !pow2_split by lia. f_equal. lia. }
  rewrite Q.
  assert (0 < 2 ^ (e1 + 1074)) by (apply pow2_positive; lia).
  enough (m2 <= Zpos mB * A) by nia.
  rewrite P in Hle, Hlt.
  set (E := 2 ^ (e + 2200)) in *. set (N := 2 ^ n) in *.
  assert (Hle' : m <= Zpos mB * A * N) by nia.
  pose proof (Z.mul_div_le m N HN) as Hfloor.
  pose proof (Z.div_mod m N ltac:(lia)) as Hdm.
  pose proof (Z.mod_pos_bound m N HN) as Hmod.
  assert (Hstrict : m < Zpos mB * A * N -> m2 <= Zpos mB * A).
  { intros Hs. assert (m / N < Zpos mB * A) by (apply Z.div_lt_upper_bound; nia). lia. }
  destruct (Z.eq_dec (m mod N) 0) as [Hz|Hnz].
  - destruct l as [|c].
    + rewrite (Hexact eq_refl Hz). apply Z.div_le_upper_bound; [lia|]. nia.
    + apply Hstrict. assert (m * E < Zpos mB * (A * N * E)) by (apply Hlt; discriminate).
      nia.
  - apply Hstrict.
    assert (m <> Zpos mB * A * N).
    { intros Heq. apply Hnz. rewrite Heq. apply Z.mod_mul. lia. }
    lia.
Qed.

(** The whole rounding, from a mantissa, an exponent and the position of
    the exact result between that mantissa and the next. *)
Lemma binary_round_aux_upper m e l mB eB :
  0 <= m -> -2200 <= e ->
  0 <= fexp prec emax (Zdigits2 m + e) - e ->
  bounded prec emax mB eB = true ->
  m * 2 ^ (e + 2200) <= Zpos mB * 2 ^ (eB + 2200) ->
  (l <> loc_Exact -> m * 2 ^ (e + 2200) < Zpos mB * 2 ^ (eB + 2200)) ->
  exists k, scaled (binary_round_aux prec emax false m e l) = Some k
            /\ 0 <= k <= Zpos mB * 2 ^ (eB + 1074).
Proof.
  intros Hm He Hn HB Hle Hlt. rewrite binary_round_aux_pack.
  pose proof (first_shift_upper m e l mB eB Hm He Hn HB Hle Hlt) as H1.
  destruct (shr_fexp prec emax m e l) as [mrs e1].
  cbv zeta in H1. destruct H1 as [H2 [He1 [Hnormal Hup]]].
  pose proof (shr_exact_keeps _ e1 H2 He1 Hnormal) as H3.
  destruct (shr_fexp prec emax _ e1 loc_Exact) as [mrs' e2].
  destruct H3 as [H3 [He2 [Hnormal' Hup']]].
  apply pack_upper; auto. lia.
Qed.

Lemma digits2_pos_iter_xO m d :
  Zpos (digits2_pos (Pos.iter xO m d)) = Zpos (digits2_pos m) + Zpos d.
Proof.
  induction d as [|d IH] using Pos.peano_ind.
  - simpl. lia.
  - rewrite Pos.iter_succ. cbn [digits2_pos]. lia.
Qed.

Lemma shl_align_fexp m e :
  let '(mz, ez) := shl_align m e (fexp prec emax (Zpos (digits2_pos m) + e)) in
  ez <= e
  /\ Zpos mz = Zpos m * 2 ^ (e - ez)
  /\ 0 <= fexp prec emax (Zdigits2 (Zpos mz) + ez) - ez
  /\ Z.min e (-1074) <= ez.
Proof.
  unfold shl_align. rewrite fexp_64.
  destruct (Z.max (Zpos (digits2_pos m) + e - 53) (-1074) - e) as [|d|d] eqn:E.
  - rewrite Z.sub_diag. change (2 ^ 0) with 1. rewrite fexp_64. cbn [Zdigits2]. lia.
  - rewrite Z.sub_diag. change (2 ^ 0) with 1. rewrite fexp_64. cbn [Zdigits2]. lia.
  - rewrite fexp_64. cbn [Zdigits2]. rewrite digits2_pos_iter_xO, iter_xO.
    split; [lia|]. split; [f_equal; f_equal; lia|]. lia.
Qed.

Lemma binary_round_upper m e mB eB :
  -2200 <= e ->
  bounded prec emax mB eB = true ->
  Zpos m * 2 ^ (e + 2200) <= Zpos mB * 2 ^ (eB + 2200) ->
  exists k, scaled (binary_round prec emax false m e) = Some k
            /\ 0 <= k <= Zpos mB * 2 ^ (eB + 1074).
Proof.
  intros He HB Hle. unfold binary_round.
  pose proof (shl_align_fexp m e) as H.
  destruct (shl_align m e _) as [mz ez]. destruct H as [Hez [Hmz [Hn Hlow]]].
  apply binary_round_aux_upper; auto; try lia.
  - rewrite Hmz, <- Z.mul_assoc, <- pow2_split by lia.
    replace (e - ez + (ez + 2200)) with (e + 2200) by lia. exact Hle.
  - intros H. now elim H.
Qed.

(** ** Numbers between zero and a bound *)

(** [upto b x]: [x] is not [NaN] and lies between 0 and [b / 2 ^ 1074]. *)
Definition upto (b : Z) (x : spec_float) : Prop :=
  exists k, scaled x = Some k /\ 0 <= k <= b.

Lemma huge_positive : 0 < huge.
Proof. apply pow2_positive. lia. Qed.

Variant nonnegative_finite : spec_float -> Z -> Prop :=
  | nonnegative_zero s : nonnegative_finite (S754_zero s) 0
  | nonnegative_positive m e :
      bounded prec emax m e = true ->
      nonnegative_finite (S754_finite false m e) (Zpos m * 2 ^ (e + 1074)).

Lemma nonnegative_finite_cases x k :
  valid_binary x = true -> scaled x = Some k -> 0 <= k < huge ->
  nonnegative_finite x k.
Proof.
  intros Hv Hk Hr. destruct x as [s|s| |s m e]; unfold scaled in Hk; try discriminate.
  - injection Hk as <-. constructor.
  - injection Hk as <-. pose proof huge_positive.
    destruct s; cbn [cond_Zopp] in Hr; exfalso; lia.
  - assert (k = cond_Zopp s (Zpos m * 2 ^ (e + 1074))) as -> by congruence.
    simpl in Hv. pose proof (finite_scaled_bounds m e Hv) as Hb.
    destruct s; cbn [cond_Zopp] in Hr; [exfalso; lia|]. now constructor.
Qed.

Lemma deep_scale m e :
  -1074 <= e -> m * 2 ^ (e + 2200) = m * 2 ^ (e + 1074) * 2 ^ 1126.
Proof.
  intros H. rewrite <- Z.mul_assoc, <- pow2_split by lia. do 2 f_equal. lia.
Qed.

Lemma upto_zero b s : 0 <= b -> upto b (S754_zero s).
Proof. intros H. exists 0. split; [reflexivity|lia]. Qed.

(** A sum of two non-negative numbers whose exact value is at most a
    number [B] is at most [B]. *)
Lemma SFadd_upper x y B kx ky kb :
  valid_binary x = true -> valid_binary y = true ->
  valid_binary B = true ->
  scaled x = Some kx -> scaled y = Some ky -> scaled B = Some kb ->
  0 <= kx -> 0 <= ky -> kx + ky <= kb -> kb < huge ->
  upto kb (SF64add x y).
Proof.
  intros Vx Vy VB Hx Hy HB Px Py Hle Hfin.
  pose proof (nonnegative_finite_cases x kx Vx Hx ltac:(lia)) as Cx.
  pose proof (nonnegative_finite_cases y ky Vy Hy ltac:(lia)) as Cy.
  pose proof (nonnegative_finite_cases B kb VB HB ltac:(lia)) as CB.
  destruct Cx as [sx|mx ex Bx], Cy as [sy|my ey By].
  - destruct sx, sy; apply upto_zero; lia.
  - exists (Zpos my * 2 ^ (ey + 1074)). split; [reflexivity|lia].
  - exists (Zpos mx * 2 ^ (ex + 1074)). split; [reflexivity|lia].
  - pose proof (finite_scaled_bounds _ _ Bx). pose proof (finite_scaled_bounds _ _ By).
    destruct CB as [sB|mB eB BB]; [lia|].
    pose proof (bounded_canonical _ _ Bx) as [_ [Hex _]].
    pose proof (bounded_canonical _ _ By) as [_ [Hey _]].
    pose proof (bounded_canonical _ _ BB) as [_ [HeB _]].
    unfold SF64add; cbn [SFadd cond_Zopp]. set (ez := Z.min ex ey).
    pose proof (shl_align_value mx ex ez ltac:(lia)) as Ax.
    pose proof (shl_align_value my ey ez ltac:(lia)) as Ay.
    destruct (shl_align mx ex ez) as [ax ?], (shl_align my ey ez) as [ay ?].
    cbn [fst] in *. cbn [Z.add binary_normalize].
    apply binary_round_upper; auto; [lia|].
    rewrite Pos2Z.inj_add, Ax, Ay, (deep_scale (Zpos mB)) by lia.
    assert (E1 : Zpos mx * 2 ^ (ex + 1074) = Zpos mx * 2 ^ (ex - ez) * 2 ^ (ez + 1074)).
    { rewrite <- Z.mul_assoc, <- pow2_split by lia. do 2 f_equal. lia. }
    assert (E2 : Zpos my * 2 ^ (ey + 1074) = Zpos my * 2 ^ (ey - ez) * 2 ^ (ez + 1074)).
    { rewrite <- Z.mul_assoc, <- pow2_split by lia. do 2 f_equal. lia. }
    rewrite (deep_scale _ ez) by lia.
    assert (0 < 2 ^ 1126) by (apply pow2_positive; lia).
    rewrite E1, E2 in Hle. nia.
Qed.

Lemma digits_mul mx my :
  Zpos (digits2_pos mx) + Zpos (digits2_pos my) - 1
  <= Zpos (digits2_pos (mx * my)).
Proof.
  pose proof (digits_lower mx) as Lx. pose proof (digits_lower my) as Ly.
  pose proof (digits_upper (mx * my)) as U.
  set (dx := Zpos (digits2_pos mx)) in *. set (dy := Zpos (digits2_pos my)) in *.
  set (D := Zpos (digits2_pos (mx * my))) in *.
  assert (Hx : 2 ^ dx = 2 * 2 ^ (dx - 1)).
  { replace dx with (1 + (dx - 1)) at 1 by lia. rewrite pow2_split by lia. reflexivity. }
  assert (Hy : 2 ^ dy = 2 * 2 ^ (dy - 1)).
  { replace dy with (1 + (dy - 1)) at 1 by lia. rewrite pow2_split by lia. reflexivity. }
  assert (0 < 2 ^ (dx - 1)) by (apply pow2_positive; lia).
  assert (0 < 2 ^ (dy - 1)) by (apply pow2_positive; lia).
  assert (H2 : 2 ^ (dx - 1 + (dy - 1)) < 2 ^ D).
  { rewrite pow2_split by lia. rewrite Pos2Z.inj_mul in U. nia. }
  apply Z.pow_lt_mono_r_iff in H2; lia.
Qed.

(** The same for a product; [2 ^ 1074] is the scale of [scaled]. *)
Lemma SFmul_upper x y B kx ky kb :
  valid_binary x = true -> valid_binary y = true -> valid_binary B = true ->
  scaled x = Some kx -> scaled y = Some ky -> scaled B = Some kb ->
  0 <= kx < huge -> 0 <= ky < huge -> kx * ky <= kb * 2 ^ 1074 -> kb < huge ->
  upto kb (SF64mul x y).
Proof.
  intros Vx Vy VB Hx Hy HB Px Py Hle Hfin.
  assert (T : 0 < 2 ^ 1074) by (apply pow2_positive; lia).
  assert (Pb : 0 <= kb) by nia.
  pose proof (nonnegative_finite_cases x kx Vx Hx Px) as Cx.
  pose proof (nonnegative_finite_cases y ky Vy Hy Py) as Cy.
  pose proof (nonnegative_finite_cases B kb VB HB ltac:(lia)) as CB.
  destruct Cx as [sx|mx ex Bx], Cy as [sy|my ey By];
    try (apply upto_zero; lia).
  pose proof (finite_scaled_bounds _ _ Bx). pose proof (finite_scaled_bounds _ _ By).
  destruct CB as [sB|mB eB BB]; [nia|].
  pose proof (bounded_canonical _ _ Bx) as [Hdx [Hex Cx]].
  pose proof (bounded_canonical _ _ By) as [Hdy [Hey Cy]].
  pose proof (bounded_canonical _ _ BB) as [_ [HeB _]].
  unfold SF64mul. cbn [SFmul xorb].
  apply binary_round_aux_upper; auto; try lia.
  - rewrite fexp_64. cbn [Zdigits2]. pose proof (digits_mul mx my).
    pose proof (Pos2Z.is_pos (digits2_pos mx)). pose proof (Pos2Z.is_pos (digits2_pos my)).
    lia.
  - rewrite Pos2Z.inj_mul, (deep_scale (Zpos mB)) by lia.
    replace (ex + ey + 2200) with ((ex + 1074) + (ey + 1074) + 52) by lia.
    rewrite !pow2_split by lia.
    assert (E : 2 ^ 1126 = 2 ^ 1074 * 2 ^ 52) by (rewrite <- pow2_split by lia; reflexivity).
    rewrite E. assert (0 < 2 ^ 52) by (apply pow2_positive; lia).
    set (a := Zpos mx * 2 ^ (ex + 1074)) in *. set (b := Zpos my * 2 ^ (ey + 1074)) in *.
    set (c := Zpos mB * 2 ^ (eB + 1074)) in *.
    replace (Zpos mx * Zpos my * (2 ^ (ex + 1074) * 2 ^ (ey + 1074) * 2 ^ 52))
      with (a * b * 2 ^ 52) by (unfold a, b; ring).
    nia.
  - intros H'. now elim H'.
Qed.

Lemma new_location_exact n r : new_location n r <> loc_Exact -> r <> 0.
Proof.
  unfold new_location, new_location_even, new_location_odd.
  intros H ->. destruct (Z.even n); simpl in H; now apply H.
Qed.

Lemma shifted_left m s :
  0 <= s ->
  match s with Zpos _ => Z.shiftl m s | Z0 => m | Zneg _ => 0 end = m * 2 ^ s.
Proof.
  intros H. destruct s as [|p|p]; try lia.
  rewrite Z.shiftl_mul_pow2 by lia. reflexivity.
Qed.

(** The quotient of two mantissas, as [SFdiv] computes it before
    rounding. *)
Lemma SFdiv_core_binary_spec mx ex my ey :
  bounded prec emax mx ex = true -> bounded prec emax my ey = true ->
  let '(q, e', l) := SFdiv_core_binary prec emax (Zpos mx) ex (Zpos my) ey in
  exists s,
    0 <= s /\ e' + s = ex - ey /\ -2200 <= e'
    /\ 0 <= q
    /\ q * Zpos my <= Zpos mx * 2 ^ s
    /\ (l <> loc_Exact -> q * Zpos my < Zpos mx * 2 ^ s)
    /\ 0 <= fexp prec emax (Zdigits2 q + e') - e'.
Proof.
  intros Bx By.
  pose proof (bounded_canonical _ _ Bx) as [Hdx [Hex Cx]].
  pose proof (bounded_canonical _ _ By) as [Hdy [Hey Cy]].
  pose proof (bounded_below _ _ Bx) as [_ Hex'].
  pose proof (bounded_below _ _ By) as [_ Hey'].
  unfold SFdiv_core_binary. cbn [Zdigits2]. rewrite fexp_64.
  set (dx := Zpos (digits2_pos mx)) in *. set (dy := Zpos (digits2_pos my)) in *.
  set (e' := Z.min (Z.max (dx + ex - (dy + ey) - 53) (-1074)) (ex - ey)).
  set (s := ex - ey - e').
  assert (Hs : 0 <= s) by (unfold s, e'; lia).
  rewrite (shifted_left (Zpos mx) s Hs).
  assert (HS : 0 < 2 ^ s) by (apply pow2_positive; lia).
  pose proof (Z_div_mod (Zpos mx * 2 ^ s) (Zpos my) ltac:(lia)) as Hdiv.
  destruct (Z.div_eucl (Zpos mx * 2 ^ s) (Zpos my)) as [q r].
  destruct Hdiv as [Hq Hr].
  assert (Hq0 : 0 <= q) by nia.
  exists s. split; [exact Hs|]. split; [unfold s; lia|]. split; [unfold e'; lia|].
  split; [exact Hq0|]. split; [lia|]. split.
  { intros Hl. apply new_location_exact in Hl. lia. }
  rewrite fexp_64.
  destruct (Z.le_gt_cases e' (-1074)) as [Hlow|Hhigh]; [lia|].
  assert (Ht : 0 <= dx + s - dy - 1) by (unfold s, e' in *; lia).
  enough (dx + s - dy - 1 < Zdigits2 q) by (unfold s, e' in *; lia).
  pose proof (digits_lower mx) as Lx. fold dx in Lx.
  pose proof (digits_upper my) as Uy. fold dy in Uy.
  set (t := dx + s - dy - 1) in *.
  assert (Hpow : 2 ^ dx * 2 ^ s = 2 * (2 ^ t * 2 ^ dy)).
  { rewrite <- (pow2_split dx s), <- (pow2_split t dy) by lia.
    replace (dx + s) with (1 + (t + dy)) by (unfold t; lia).
    rewrite (pow2_split 1) by lia. rewrite Z.pow_1_r. reflexivity. }
  assert (0 < 2 ^ t) by (apply pow2_positive; lia).
  assert (0 < 2 ^ dy) by (apply pow2_positive; lia).
  assert (Hge : 2 ^ t <= q).
  { set (w := 2 ^ t) in *.
    assert (w * Zpos my < Zpos mx * 2 ^ s) by nia.
    nia. }
  pose proof (Zdigits2_upper q Hq0) as Uq.
  apply (Z.pow_lt_mono_r_iff 2); [lia|apply Zdigits2_nonneg|lia].
Qed.

(** The same for a quotient by a positive number. *)
Lemma SFdiv_upper x y B kx ky kb :
  valid_binary x = true -> valid_binary y = true -> valid_binary B = true ->
  scaled x = Some kx -> scaled y = Some ky -> scaled B = Some kb ->
  0 <= kx < huge -> 0 < ky < huge -> kx * 2 ^ 1074 <= kb * ky -> kb < huge ->
  upto kb (SF64div x y).
Proof.
  intros Vx Vy VB Hx Hy HB Px Py Hle Hfin.
  assert (T : 0 < 2 ^ 1074) by (apply pow2_positive; lia).
  assert (Pb : 0 <= kb) by nia.
  pose proof (nonnegative_finite_cases x kx Vx Hx Px) as Cx.
  pose proof (nonnegative_finite_cases y ky Vy Hy ltac:(lia)) as Cy.
  pose proof (nonnegative_finite_cases B kb VB HB ltac:(lia)) as CB.
  destruct Cy as [sy|my ey By]; [lia|].
  destruct Cx as [sx|mx ex Bx]; [apply upto_zero; lia|].
  pose proof (finite_scaled_bounds _ _ Bx). pose proof (finite_scaled_bounds _ _ By).
  destruct CB as [sB|mB eB BB]; [nia|].
  pose proof (bounded_canonical _ _ Bx) as [_ [Hex _]].
  pose proof (bounded_canonical _ _ By) as [_ [Hey _]].
  pose proof (bounded_canonical _ _ BB) as [_ [HeB _]].
  unfold SF64div. cbn [SFdiv xorb].
  pose proof (SFdiv_core_binary_spec mx ex my ey Bx By) as Hcore.
  destruct (SFdiv_core_binary prec emax (Zpos mx) ex (Zpos my) ey) as [[q e'] l].
  destruct Hcore as [s [Hs [He' [Hlow [Hq [Hqle [Hqlt Hn]]]]]]].
  assert (HS : 0 < 2 ^ s) by (apply pow2_positive; lia).
  assert (HC : 0 < Zpos my * 2 ^ (ey + 1074)) by lia.
  assert (HD : 0 < 2 ^ (e' + 2200)) by (apply pow2_positive; lia).
  assert (E1 : Zpos mx * 2 ^ s * 2 ^ (e' + 2200) * 2 ^ (ey + 1074)
               = Zpos mx * 2 ^ (ex + 1074) * 2 ^ 1074 * 2 ^ 1126).
  { rewrite <- !Z.mul_assoc. f_equal. rewrite <- !pow2_split by lia. f_equal. lia. }
  assert (E2 : Zpos mB * 2 ^ (eB + 2200) = Zpos mB * 2 ^ (eB + 1074) * 2 ^ 1126)
    by (apply deep_scale; lia).
  assert (U : 0 < 2 ^ 1126) by (apply pow2_positive; lia).
  set (c := Zpos my * 2 ^ (ey + 1074)) in *.
  set (b := Zpos mB * 2 ^ (eB + 1074)) in *.
  set (a := Zpos mx * 2 ^ (ex + 1074)) in *.
  assert (Hrhs : a * 2 ^ 1074 * 2 ^ 1126 <= Zpos mB * 2 ^ (eB + 2200) * c).
  { rewrite E2. nia. }
  assert (Hmul : forall v, v * Zpos my * 2 ^ (e' + 2200) * 2 ^ (ey + 1074)
                           = v * 2 ^ (e' + 2200) * c) by (intros; unfold c; ring).
  apply binary_round_aux_upper; auto.
  - apply (Z.mul_le_mono_pos_r _ _ c HC). rewrite <- Hmul.
    rewrite <- E1 in Hrhs.
    assert (q * Zpos my * 2 ^ (e' + 2200) * 2 ^ (ey + 1074)
            <= Zpos mx * 2 ^ s * 2 ^ (e' + 2200) * 2 ^ (ey + 1074)).
    { assert (0 < 2 ^ (ey + 1074)) by (apply pow2_positive; lia).
      apply Z.mul_le_mono_nonneg_r; [lia|]. apply Z.mul_le_mono_nonneg_r; lia. }
    lia.
  - intros Hl. specialize (Hqlt Hl).
    apply (Z.mul_lt_mono_pos_r c _ _ HC). rewrite <- Hmul.
    rewrite <- E1 in Hrhs.
    assert (q * Zpos my * 2 ^ (e' + 2200) * 2 ^ (ey + 1074)
            < Zpos mx * 2 ^ s * 2 ^ (e' + 2200) * 2 ^ (ey + 1074)).
    { assert (0 < 2 ^ (ey + 1074)) by (apply pow2_positive; lia).
      apply Z.mul_lt_mono_pos_r; [lia|]. apply Z.mul_lt_mono_pos_r; lia. }
    lia.
Qed.

(** ** Integers *)

(** A mantissa and an exponent of the format are left as they are. *)
Lemma binary_round_aux_canonical m e :
  bounded prec emax m e = true ->
  binary_round_aux prec emax false (Zpos m) e loc_Exact = S754_finite false m e.
Proof.
  intros H. pose proof (bounded_below m e H) as [_ He].
  unfold bounded, canonical_mantissa in H. apply andb_true_iff in H.
  destruct H as [Hc _]. apply Z.eqb_eq in Hc.
  unfold binary_round_aux, shr_fexp. cbn [Zdigits2]. rewrite Hc, Z.sub_diag.
  cbn [shr shr_record_of_loc shr_m loc_of_shr_record round_nearest_even Zdigits2].
  rewrite Hc, Z.sub_diag. cbn [shr shr_record_of_loc shr_m].
  replace (e <=? emax - prec) with true; [reflexivity|].
  symmetry. apply Z.leb_le. unfold emax, prec. lia.
Qed.

(** An integer below [2 ^ 53] is a number. *)
Lemma binary_normalize_integer n :
  0 <= n < 2 ^ 53 ->
  scaled (binary_normalize prec emax n 0 false) = Some (n * 2 ^ 1074).
Proof.
  intros Hn. destruct n as [|p|p]; try lia; [reflexivity|].
  cbn [binary_normalize]. unfold binary_round.
  pose proof (shl_align_fexp p 0) as H.
  pose proof (digits_lower p) as L. pose proof (digits_upper p) as U.
  assert (Hd : Zpos (digits2_pos p) <= 53).
  { destruct (Z.le_gt_cases (Zpos (digits2_pos p)) 53) as [|Hgt]; [assumption|exfalso].
    assert (2 ^ 54 <= 2 ^ Zpos (digits2_pos p)) by (apply Z.pow_le_mono_r; lia).
    change (2 ^ 54) with (2 * 2 ^ 53) in *. lia. }
  rewrite fexp_64 in *.
  unfold shl_align in *.
  destruct (Z.max (Zpos (digits2_pos p) + 0 - 53) (-1074) - 0) as [|d|d] eqn:E;
    try lia.
  - rewrite binary_round_aux_canonical.
    + unfold scaled. cbn [cond_Zopp]. reflexivity.
    + unfold bounded, canonical_mantissa. rewrite fexp_64.
      apply andb_true_iff. split; [apply Z.eqb_eq; lia|apply Z.leb_le; unfold emax, prec; lia].
  - destruct H as [_ [Hmz [_ _]]].
    rewrite binary_round_aux_canonical.
    + unfold scaled. cbn [cond_Zopp]. rewrite Hmz. f_equal.
      rewrite <- Z.mul_assoc, <- pow2_split by lia. do 2 f_equal. lia.
    + unfold bounded, canonical_mantissa. rewrite fexp_64, digits2_pos_iter_xO.
      apply andb_true_iff. split; [apply Z.eqb_eq; lia|apply Z.leb_le; unfold emax, prec; lia].
Qed.

(** ** Primitive numbers *)

(** The integer that orders a number; [None] for [NaN]. *)
Definition key (x : float) : option Z := scaled (Prim2SF x).

#[local] Open Scope float_scope.

Lemma sub_negative_iff_ltb (x y : float) : (x - y <? 0) = (x <? y).
Proof.
  rewrite !ltb_spec, sub_spec.
  change (Prim2SF 0) with (S754_zero false).
  apply SFsub_negative_iff_lt; apply Prim2SF_valid.
Qed.

Lemma compare_key (x y : float) :
  SFcompare (Prim2SF x) (Prim2SF y)
  = match key x, key y with
    | Some a, Some b => Some (a ?= b)%Z
    | _, _ => None
    end.
Proof. apply SFcompare_scaled; apply Prim2SF_valid. Qed.

Lemma ltb_key (x y : float) :
  (x <? y) = match key x, key y with
             | Some a, Some b => (a <? b)%Z
             | _, _ => false
             end.
Proof.
  rewrite ltb_spec. unfold SFltb. rewrite compare_key.
  destruct (key x) as [a|], (key y) as [b|]; reflexivity.
Qed.

Lemma leb_key (x y : float) :
  (x <=? y) = match key x, key y with
              | Some a, Some b => (a <=? b)%Z
              | _, _ => false
              end.
Proof.
  rewrite leb_spec. unfold SFleb. rewrite compare_key.
  destruct (key x) as [a|], (key y) as [b|]; reflexivity.
Qed.

Lemma eqb_key (x y : float) :
  (x =? y) = match key x, key y with
             | Some a, Some b => (a =? b)%Z
             | _, _ => false
             end.
Proof.
  rewrite FloatAxioms.eqb_spec. unfold SFeqb. rewrite compare_key.
  destruct (key x) as [a|], (key y) as [b|]; try reflexivity.
  destruct (Z.compare_spec a b); symmetry;
    [apply Z.eqb_eq|apply Z.eqb_neq|apply Z.eqb_neq]; lia.
Qed.

Lemma is_nan_key (x : float) : is_nan x = match key x with Some _ => false | None => true end.
Proof.
  unfold is_nan. rewrite eqb_key. destruct (key x); [|reflexivity].
  now rewrite Z.eqb_refl.
Qed.

Lemma ltb_asym (x y : float) : (x <? y) = true -> (y <? x) = false.
Proof.
  rewrite !ltb_key. destruct (key x), (key y); try discriminate; try reflexivity.
  intros H. apply Z.ltb_lt in H. apply Z.ltb_ge. lia.
Qed.

Lemma leb_not_ltb (x y : float) : (x <=? y) = true -> (y <? x) = false.
Proof.
  rewrite leb_key, ltb_key. destruct (key x), (key y); try discriminate; try reflexivity.
  intros H. apply Z.leb_le in H. apply Z.ltb_ge. lia.
Qed.

Lemma eqb_no_ltb (x y s : float) :
  (x =? s) = true -> (y =? s) = true -> (x <? y) = false.
Proof.
  rewrite !eqb_key, ltb_key.
  destruct (key x), (key y), (key s); try discriminate; try reflexivity.
  intros H1 H2. apply Z.eqb_eq in H1, H2. apply Z.ltb_ge. lia.
Qed.

Lemma not_ltb_leb (x y : float) :
  is_nan x = false -> is_nan y = false -> (x <? y) = false -> (y <=? x) = true.
Proof.
  rewrite !is_nan_key, ltb_key, leb_key.
  destruct (key x), (key y); try discriminate.
  intros _ _ H. apply Z.ltb_ge in H. apply Z.leb_le. lia.
Qed.

Lemma leb_trans (x y z : float) :
  (x <=? y) = true -> (y <=? z) = true -> (x <=? z) = true.
Proof.
  rewrite !leb_key. destruct (key x), (key y), (key z); try discriminate.
  intros H1 H2. apply Z.leb_le in H1, H2. apply Z.leb_le. lia.
Qed.

#[local] Open Scope Z_scope.

(** ** Primitive numbers between zero and a bound *)

(** [within b x]: [x] is a number between 0 and [b / 2 ^ 1074]. *)
Definition within (b : Z) (x : float) : Prop :=
  exists k, key x = Some k /\ 0 <= k <= b.

Lemma within_weaken b b' x : within b x -> b <= b' -> within b' x.
Proof. intros [k [H R]] Hle. exists k. split; [exact H|lia]. Qed.

Lemma add_within x y b kx ky kb :
  within kx x -> within ky y -> key b = Some kb ->
  kx + ky <= kb -> kb < huge ->
  within kb (x + y)%float.
Proof.
  intros [k1 [H1 R1]] [k2 [H2 R2]] Hb Hle Hfin.
  unfold within, key. rewrite FloatAxioms.add_spec.
  apply (SFadd_upper _ _ (Prim2SF b) k1 k2 kb); try apply Prim2SF_valid; auto; lia.
Qed.

Lemma mul_within x y b kx ky kb :
  within kx x -> within ky y -> key b = Some kb ->
  kx < huge -> ky < huge -> kx * ky <= kb * 2 ^ 1074 -> kb < huge ->
  within kb (x * y)%float.
Proof.
  intros [k1 [H1 R1]] [k2 [H2 R2]] Hb Hx Hy Hle Hfin.
  unfold within, key. rewrite FloatAxioms.mul_spec.
  apply (SFmul_upper _ _ (Prim2SF b) k1 k2 kb); try apply Prim2SF_valid; auto; try lia.
  nia.
Qed.

Lemma div_within x y b kx ky kb :
  within kx x -> key y = Some ky -> key b = Some kb ->
  kx < huge -> 0 < ky < huge -> kx * 2 ^ 1074 <= kb * ky -> kb < huge ->
  within kb (x / y)%float.
Proof.
  intros [k1 [H1 R1]] H2 Hb Hx Hy Hle Hfin.
  unfold within, key. rewrite FloatAxioms.div_spec.
  assert (0 < 2 ^ 1074) by (apply pow2_positive; lia).
  apply (SFdiv_upper _ _ (Prim2SF b) k1 ky kb); try apply Prim2SF_valid; auto; lia.
Qed.

Lemma key_of_integer n :
  0 <= n < 2 ^ 53 ->
  key (JS.num_of_Z n) = Some (n * 2 ^ 1074).
Proof.
  intros H. unfold key, JS.num_of_Z. rewrite of_uint63_spec, Uint63.of_Z_spec.
  rewrite Z.mod_small.
  - now apply binary_normalize_integer.
  - assert (2 ^ 53 <= Uint63.wB) by (vm_compute; discriminate). lia.
Qed.

(** Every count is a finite non-negative number. *)
Lemma of_uint63_within i :
  within (2 ^ 63 * 2 ^ 1074) (PrimFloat.of_uint63 i).
Proof.
  unfold within, key. rewrite of_uint63_spec.
  pose proof (Uint63.to_Z_bounded i) as Hb.
  change Uint63.wB with (2 ^ 63) in Hb.
  destruct (Uint63.to_Z i) as [|p|p]; try lia.
  - exists 0. split; [reflexivity|].
    assert (0 < 2 ^ 63 * 2 ^ 1074) by (apply Z.mul_pos_pos; apply pow2_positive; lia).
    lia.
  - cbn [binary_normalize].
    destruct (binary_round_upper p 0 (4503599627370496%positive) 11) as [k [Hk Hr]];
      [lia|reflexivity| |].
    + change (Zpos 4503599627370496 * 2 ^ (11 + 2200)) with (2 ^ 63 * 2 ^ (0 + 2200)).
      assert (0 < 2 ^ (0 + 2200)) by (apply pow2_positive; lia). nia.
    + exists k. split; [exact Hk|].
      change (2 ^ 63 * 2 ^ 1074) with (Zpos 4503599627370496 * 2 ^ (11 + 1074)).
      exact Hr.
Qed.

Lemma Math_min_within a b ka kb :
  within ka a -> within kb b -> within (Z.min ka kb) (JS.Math_min a b).
Proof.
  intros [k1 [H1 R1]] [k2 [H2 R2]]. unfold JS.Math_min, within.
  rewrite !is_nan_key, !ltb_key, H1, H2. cbn [orb].
  destruct (k1 <? k2) eqn:E1; [apply Z.ltb_lt in E1; exists k1; split; [assumption|lia]|].
  apply Z.ltb_ge in E1.
  destruct (k2 <? k1) eqn:E2; [apply Z.ltb_lt in E2; exists k2; split; [assumption|lia]|].
  apply Z.ltb_ge in E2.
  destruct (get_sign a); [exists k1|exists k2]; (split; [assumption|lia]).
Qed.
(** [Math.round] keeps a number below an integer bound. *)
Lemma Math_round_within b x :
  0 <= b < 2 ^ 53 ->
  within (b * 2 ^ 1074) x -> within (b * 2 ^ 1074) (JS.Math_round x).
Proof.
  intros Hb H. unfold JS.Math_round.
  pose proof (Prim2SF_valid x) as V.
  destruct (Prim2SF x) as [s|s| |s m e] eqn:E; try exact H.
  destruct (0 <=? e) eqn:Ee; [exact H|]. apply Z.leb_gt in Ee.
  destruct H as [k [Hk R]]. unfold key in Hk. rewrite E in Hk.
  assert (k = cond_Zopp s (Zpos m * 2 ^ (e + 1074))) as -> by (unfold scaled in Hk; congruence).
  cbn [valid_binary] in V. pose proof (finite_scaled_bounds m e V) as Hfin.
  pose proof (bounded_canonical m e V) as [_ [Hlow _]].
  pose proof (bounded_below m e V) as [Hm _].
  destruct s; cbn [cond_Zopp] in R; [lia|].
  assert (HU : 0 < 2 ^ (- e)) by (apply pow2_positive; lia).
  assert (HH : 2 ^ (- e) = 2 * 2 ^ (- e - 1)).
  { replace (- e) with (1 + (- e - 1)) at 1 by lia. now rewrite pow2_split by lia. }
  assert (HT : 2 ^ 1074 = 2 ^ (- e) * 2 ^ (e + 1074)).
  { rewrite <- pow2_split by lia. f_equal. lia. }
  assert (HE : 0 < 2 ^ (e + 1074)) by (apply pow2_positive; lia).
  set (unit := 2 ^ (- e)) in *. set (half := 2 ^ (- e - 1)) in *.
  assert (Hle : Zpos m <= b * unit).
  { rewrite HT in R. set (E' := 2 ^ (e + 1074)) in *. nia. }
  assert (HN : 0 <= (Zpos m + half) / unit <= b).
  { split; [apply Z.div_pos; lia|].
    enough ((Zpos m + half) / unit < b + 1) by lia.
    apply Z.div_lt_upper_bound; [lia|]. nia. }
  exists ((Zpos m + half) / unit * 2 ^ 1074). split.
  - apply key_of_integer. lia.
  - assert (0 < 2 ^ 1074) by (apply pow2_positive; lia). nia.
Qed.

Lemma within_key x k : key x = Some k -> 0 <= k -> within k x.
Proof. intros H P. exists k. split; [exact H|lia]. Qed.

Lemma key_0 : key 0%float = Some 0.
Proof. reflexivity. Qed.

Lemma key_1 : key 1%float = Some (2 ^ 1074).
Proof. vm_compute. reflexivity. Qed.

Lemma one_below_huge : 2 ^ 63 * 2 ^ 1074 < huge.
Proof. unfold huge. rewrite <- pow2_split by lia. apply Z.pow_lt_mono_r; lia. Qed.

End FloatFacts.

(** ** Equality of strings *)

Module StringFacts.
Import JS.

Lemma str_eqb_eq a : forall b, str_eqb a b = true <-> a = b.
Proof.
  induction a as [|x a IH]; intros [|y b]; simpl; split; intros H;
    try reflexivity; try discriminate.
  - apply andb_true_iff in H. destruct H as [H1 H2].
    apply N.eqb_eq in H1. apply IH in H2. now subst.
  - injection H as -> ->. apply andb_true_iff. split.
    + apply N.eqb_refl.
    + now apply IH.
Qed.

Lemma str_eqb_refl a : str_eqb a a = true.
Proof. now apply str_eqb_eq. Qed.

Lemma str_eqb_neq a b : str_eqb a b = false <-> a <> b.
Proof.
  split.
  - intros H E. apply str_eqb_eq in E. congruence.
  - intros H. destruct (str_eqb a b) eqn:E; [|reflexivity].
    apply str_eqb_eq in E. contradiction.
Qed.

(** [slice(0, k)] keeps a prefix: the first [k] elements when [k] is not
    negative, all but the last [- k] when it is. *)
Lemma slice_from_start {A} (l : list A) (k : Z) :
  slice l 0 k
  = firstn (Z.to_nat (clamp_index (Z.of_nat (length l)) k)) l.
Proof.
  unfold slice.
  assert (E : clamp_index (Z.of_nat (length l)) 0 = 0%Z).
  { unfold clamp_index. replace (0 <? 0)%Z with false by reflexivity. lia. }
  rewrite E. cbn [Z.to_nat skipn]. now rewrite Z.sub_0_r.
Qed.

Lemma slice_nil {A} (from final : Z) : slice (@nil A) from final = [].
Proof. unfold slice. now rewrite skipn_nil, firstn_nil. Qed.

Lemma slice_length_bound {A} (l : list A) (k : Z) :
  (0 <= k -> Z.of_nat (length (slice l 0 k)) <= k)%Z.
Proof.
  intros Hk. rewrite slice_from_start, length_firstn. unfold clamp_index.
  replace (k <? 0)%Z with false by (symmetry; apply Z.ltb_ge; exact Hk). lia.
Qed.

Lemma slice_count {A} (l : list A) (k : Z) :
  Z.of_nat (length (slice l 0 k)) = clamp_index (Z.of_nat (length l)) k.
Proof.
  rewrite slice_from_start, length_firstn. unfold clamp_index.
  destruct (k <? 0)%Z eqn:E; [apply Z.ltb_lt in E|apply Z.ltb_ge in E]; lia.
Qed.

End StringFacts.

(* ================================================================== *)
(** * Part VIII.  Properties of the Vector Index and the Retriever     *)
(* ================================================================== *)

Module VectorIndexSpec.
Import JS Rag FloatFacts StringFacts.
#[local] Open Scope float_scope.

(** ** Cosine similarity *)

Definition not_finite (x : spec_float) : Prop :=
  x = S754_nan \/ exists s, x = S754_infinity s.

Lemma SFdiv_zero_magnitude d na nb :
  (exists s, na = S754_zero s) \/ (exists s, nb = S754_zero s) ->
  not_finite (SF64div d (SF64mul (SF64sqrt na) (SF64sqrt nb))).
Proof.
  assert (Hdiv : forall z, (z = S754_nan \/ exists s, z = S754_zero s) ->
            not_finite (SF64div d z)).
  { intros z [->|[s ->]]; destruct d; simpl; unfold not_finite; eauto. }
  intros [[s ->]|[s ->]]; apply Hdiv.
  - simpl SF64sqrt. destruct (SF64sqrt nb); simpl; eauto.
  - simpl SF64sqrt. destruct (SF64sqrt na); simpl; eauto.
Qed.

Lemma eqb_zero_spec (x : float) :
  (x =? 0) = true -> exists s, Prim2SF x = S754_zero s.
Proof.
  rewrite FloatAxioms.eqb_spec. change (Prim2SF 0) with (S754_zero false).
  destruct (Prim2SF x) as [s|s| |s m e]; try discriminate.
  - eauto.
  - destruct s; discriminate.
  - destruct s; discriminate.
Qed.

Lemma not_finite_prim (r : float) :
  not_finite (Prim2SF r) -> is_finite r = false /\ (r =? 0) = false.
Proof.
  unfold is_finite, is_nan, is_infinity.
  rewrite !FloatAxioms.eqb_spec, abs_spec.
  change (Prim2SF infinity) with (S754_infinity false).
  change (Prim2SF 0) with (S754_zero false).
  intros [->|[s ->]]; [split; reflexivity|]. destruct s; split; reflexivity.
Qed.

Lemma div_by_zero_magnitude (dotProduct normA normB : float) :
  ((normA =? 0) || (normB =? 0)) = true ->
  let r := dotProduct / (sqrt normA * sqrt normB) in
  is_finite r = false /\ (r =? 0) = false.
Proof.
  intros H r. apply not_finite_prim. unfold r.
  rewrite div_spec, mul_spec, !sqrt_spec.
  apply SFdiv_zero_magnitude.
  apply orb_true_iff in H. destruct H as [H|H]; apply eqb_zero_spec in H; auto.
Qed.

(** C3 (as amended).  The similarity is 0 when the two vectors differ in
    length, the only case the function guards.  For two vectors of equal
    length it is always the quotient of the dot product by the product of
    the two magnitudes; when either magnitude is zero that is a division
    by zero, and the result is [NaN] or an infinity, never 0. *)
Theorem cosineSimilarity_cases (a b : list float) :
  let '(dotProduct, normA, normB) := cosine_sums a b in
  let r := cosineSimilarity a b in
  if negb (length a =? length b)%nat then r = 0
  else
    r = dotProduct / (sqrt normA * sqrt normB)
    /\ if (normA =? 0) || (normB =? 0)
       then is_finite r = false /\ (r =? 0) = false
       else True.
Proof.
  unfold cosineSimilarity.
  destruct (cosine_sums a b) as [[dotProduct normA] normB].
  destruct (negb (length a =? length b)%nat); [reflexivity|].
  split; [reflexivity|].
  destruct ((normA =? 0) || (normB =? 0)) eqn:E; [|exact I].
  now apply div_by_zero_magnitude.
Qed.

(** C3, counterexample.  A zero vector has zero magnitude, and its
    similarity with a vector of the same length is [NaN], not 0. *)
Lemma zero_vector_similarity_is_nan :
  length [0; 0] = length [3; 4]
  /\ fold_left (fun sum v => sum + v * v) [0; 0] 0 = 0
  /\ cosineSimilarity [0; 0] [3; 4] = nan
  /\ (cosineSimilarity [0; 0] [3; 4] =? 0) = false.
Proof. repeat split. Qed.

Example underflowing_magnitude_gives_infinity :
  cosineSimilarity [1e-200] [1e100] = infinity.
Proof. reflexivity. Qed.

Example different_lengths_give_zero :
  cosineSimilarity [1; 2] [1; 2; 3] = 0.
Proof. reflexivity. Qed.

Example parallel_vectors :
  cosineSimilarity [3; 4] [6; 8] = 1.
Proof. reflexivity. Qed.

Example orthogonal_vectors :
  cosineSimilarity [1; 0] [0; 1] = 0.
Proof. reflexivity. Qed.

(** ** Sorting by descending score *)

(** [lower a b]: the score of [a] is strictly less than that of [b]. *)
Definition lower (a b : RetrievalResult) : bool := score a <? score b.

(** No result is followed by one of a strictly greater score. *)
Definition descending : list RetrievalResult -> Prop :=
  Sorted (fun a b => lower a b = false).

(** The comparison function puts [y] strictly before [x] exactly when
    the score of [x] is lower. *)
Lemma by_score_desc_before x y :
  (by_score_desc y x <? 0) = lower x y.
Proof. unfold by_score_desc, lower. apply sub_negative_iff_ltb. Qed.

Lemma sort_insert_eq x y l :
  sort_insert by_score_desc x (y :: l)
  = if lower x y then y :: sort_insert by_score_desc x l else x :: y :: l.
Proof. simpl. now rewrite by_score_desc_before. Qed.

Lemma sort_insert_perm x l :
  Permutation (sort_insert by_score_desc x l) (x :: l).
Proof.
  induction l as [|y l IH]; [reflexivity|].
  rewrite sort_insert_eq. destruct (lower x y); [|reflexivity].
  rewrite IH. apply perm_swap.
Qed.

Lemma sort_perm l : Permutation (sort by_score_desc l) l.
Proof.
  induction l as [|x l IH]; [reflexivity|].
  simpl. rewrite sort_insert_perm. now constructor.
Qed.

Lemma sort_insert_head x l :
  exists rest,
    sort_insert by_score_desc x l = x :: rest
    \/ exists y l', l = y :: l' /\ lower x y = true
                    /\ sort_insert by_score_desc x l = y :: rest.
Proof.
  destruct l as [|y l]; [exists []; now left|].
  rewrite sort_insert_eq. destruct (lower x y) eqn:E.
  - eexists. right. exists y, l. auto.
  - eexists. now left.
Qed.

Lemma sort_insert_descending x l :
  descending l -> descending (sort_insert by_score_desc x l).
Proof.
  unfold descending. induction l as [|y l IH]; intros Hl.
  - repeat constructor.
  - rewrite sort_insert_eq. destruct (lower x y) eqn:E.
    + inversion Hl as [|? ? Hl' Hhd]; subst. constructor; [now apply IH|].
      destruct l as [|z l].
      * constructor. now apply ltb_asym.
      * rewrite sort_insert_eq. destruct (lower x z).
        -- inversion Hhd; subst. now constructor.
        -- constructor. now apply ltb_asym.
    + constructor; [exact Hl|]. now constructor.
Qed.

Lemma sort_descending l : descending (sort by_score_desc l).
Proof.
  induction l as [|x l IH]; [constructor|].
  simpl. now apply sort_insert_descending.
Qed.

(** The results whose score equals [s]. *)
Definition with_score (s : float) (l : list RetrievalResult)
    : list RetrievalResult :=
  filter (fun r => score r =? s) l.

Lemma sort_insert_stable s x l :
  with_score s (sort_insert by_score_desc x l) = with_score s (x :: l).
Proof.
  unfold with_score. induction l as [|y l IH]; [reflexivity|].
  rewrite sort_insert_eq. destruct (lower x y) eqn:E; [|reflexivity].
  cbn [filter] in *. rewrite IH.
  destruct (score x =? s) eqn:Ex, (score y =? s) eqn:Ey; try reflexivity.
  unfold lower in E. now rewrite (eqb_no_ltb _ _ _ Ex Ey) in E.
Qed.

Lemma sort_stable s l :
  with_score s (sort by_score_desc l) = with_score s l.
Proof.
  induction l as [|x l IH]; [reflexivity|].
  simpl sort. rewrite sort_insert_stable. unfold with_score in *.
  cbn [filter]. now rewrite IH.
Qed.

Lemma filter_firstn_prefix {A} (f : A -> bool) k : forall l,
  exists m, filter f (firstn k l) = firstn m (filter f l).
Proof.
  induction k as [|k IH]; intros l; [now exists O|].
  destruct l as [|x l]; [now exists O|].
  destruct (IH l) as [m Hm]. simpl. destruct (f x).
  - exists (S m). simpl. now rewrite Hm.
  - now exists m.
Qed.

Lemma descending_firstn k l : descending l -> descending (firstn k l).
Proof.
  unfold descending. revert l. induction k as [|k IH]; intros l Hl; [constructor|].
  destruct l as [|x l]; [constructor|].
  inversion Hl as [|? ? Hl' Hhd]; subst. simpl. constructor; [now apply IH|].
  destruct k; [constructor|]. destruct l; [constructor|].
  inversion Hhd; subst. now constructor.
Qed.

(** *** Scores that are numbers

    When no score is [NaN] the scores are totally ordered, and the
    sorted array is descending between any two positions. *)

Definition is_number (r : RetrievalResult) : Prop := is_nan (score r) = false.

(** [at_least a b]: both scores are numbers and that of [a] is at least
    that of [b]. *)
Definition at_least (a b : RetrievalResult) : Prop :=
  is_number a /\ is_number b /\ (score b <=? score a) = true.

Lemma at_least_trans : Relations_1.Transitive at_least.
Proof.
  intros a b c [Ha [Hb Hab]] [_ [Hc Hbc]]. repeat split; auto.
  eapply leb_trans; eauto.
Qed.

Lemma descending_numbers l :
  Forall is_number l -> descending l -> StronglySorted at_least l.
Proof.
  intros Hnum Hdesc. apply Sorted_StronglySorted; [exact at_least_trans|].
  induction Hdesc as [|x l Hl IH Hhd]; [constructor|].
  inversion Hnum as [|? ? Hx Hnum']; subst. constructor; [now apply IH|].
  destruct Hhd as [|y l Hxy]; constructor.
  inversion Hnum' as [|? ? Hy _]; subst.
  repeat split; auto. apply not_ltb_leb; auto.
Qed.

Lemma StronglySorted_app_inv {A} (R : A -> A -> Prop) l1 l2 :
  StronglySorted R (l1 ++ l2) ->
  StronglySorted R l1
  /\ (forall x y, In x l1 -> In y l2 -> R x y).
Proof.
  induction l1 as [|a l1 IH]; simpl; intros H.
  - split; [constructor|]. intros x y [].
  - inversion H as [|? ? Hs Hall]; subst. destruct (IH Hs) as [Hs1 Hcross].
    rewrite Forall_app in Hall. destruct Hall as [Ha1 Ha2].
    split; [now constructor|].
    intros x y [<-|Hx] Hy; [|now apply Hcross].
    rewrite Forall_forall in Ha2. now apply Ha2.
Qed.

Lemma sort_numbers l :
  Forall is_number l ->
  StronglySorted at_least (sort by_score_desc l).
Proof.
  intros Hnum. apply descending_numbers; [|apply sort_descending].
  eapply Permutation_Forall; [|exact Hnum].
  symmetry. apply sort_perm.
Qed.

(** C7 (as amended).  For every store, query vector and integer [k]:
    when [k] is not negative, [search] returns at most [k] entries; the
    returned entries, together with those cut off, are the scored entries
    of the index.  When every score is a number (no [NaN], which a zero
    magnitude produces), the scores descend between any two returned
    entries; for every score value the returned entries with that score
    are the first ones, in insertion order, of the stored entries with
    that score (ties keep the insertion order); and no entry that was cut
    off scores higher than a returned one: the result is the [k]
    highest.  (With a [NaN] score the order is the engine's, and with a
    negative [k] the last [- k] entries are dropped.) *)
Theorem search_sorted_stable_at_most_k st queryEmbedding k :
  let out := search st queryEmbedding k in
  (0 <= k -> Z.of_nat (length out) <= k)%Z
  /\ exists cut,
       Permutation (out ++ cut) (scored st queryEmbedding)
       /\ (Forall is_number (scored st queryEmbedding) ->
           StronglySorted at_least out
           /\ (forall s, exists m,
                 with_score s out
                 = firstn m (with_score s (scored st queryEmbedding)))
           /\ forall r r', In r out -> In r' cut -> at_least r r').
Proof.
  unfold search. set (l := scored st queryEmbedding).
  split; [apply slice_length_bound|].
  rewrite slice_from_start.
  set (n := Z.to_nat (clamp_index (Z.of_nat (length (sort by_score_desc l))) k)).
  exists (skipn n (sort by_score_desc l)). split.
  - rewrite firstn_skipn. apply sort_perm.
  - intros Hnum.
    assert (Hsorted : StronglySorted at_least
                        (firstn n (sort by_score_desc l)
                         ++ skipn n (sort by_score_desc l)))
      by (rewrite firstn_skipn; now apply sort_numbers).
    apply StronglySorted_app_inv in Hsorted. destruct Hsorted as [Hout Hcut].
    split; [exact Hout|]. split; [|exact Hcut].
    intros s. unfold with_score.
    destruct (filter_firstn_prefix (fun r => score r =? s) n
                (sort by_score_desc l)) as [m Hm].
    exists m. rewrite Hm. f_equal. apply sort_stable.
Qed.

End VectorIndexSpec.

Module RetrieverSpec.
Import JS Rag FloatFacts StringFacts VectorIndexSpec.
#[local] Open Scope float_scope.

(** ** The filter, in the words of the specification

    A field of the filter that is given and not empty must be the field
    of the passage; a filter that is absent, and a field that is absent
    or empty, ask for nothing. *)
Definition field_matches (wanted actual : option jsstring) : Prop :=
  forall w, wanted = Some w -> w <> [] -> actual = Some w.

Definition matches (f : option Filter) (r : RetrievalResult) : Prop :=
  forall f', f = Some f' ->
    field_matches (flt_clauseType f') (clauseType (metadata (chunk r)))
    /\ field_matches (flt_source f') (Some (source (metadata (chunk r)))).

Lemma rejects_spec wanted actual :
  rejects wanted actual = false <-> field_matches wanted actual.
Proof.
  unfold rejects, field_matches. destruct wanted as [w|].
  - destruct w as [|c w]; cbn [truthy_str andb].
    + split; [intros _ w' [= <-] H; now elim H|reflexivity].
    + rewrite negb_false_iff. split.
      * intros H w' [= <-] _. destruct actual as [v|]; [|discriminate].
        apply str_eqb_eq in H. now subst.
      * intros H. rewrite (H (c :: w) eq_refl) by discriminate.
        apply str_eqb_refl.
  - split; [intros _ w' [=]|reflexivity].
Qed.

Lemma passes_filter_spec f r :
  passes_filter f r = true <-> matches (Some f) r.
Proof.
  unfold passes_filter, matches.
  destruct (rejects (flt_clauseType f) (clauseType (metadata (chunk r)))) eqn:E1.
  - split; [discriminate|]. intros H. destruct (H f eq_refl) as [H1 _].
    apply rejects_spec in H1. congruence.
  - destruct (rejects (flt_source f) (Some (source (metadata (chunk r))))) eqn:E2.
    + split; [discriminate|]. intros H. destruct (H f eq_refl) as [_ H2].
      apply rejects_spec in H2. congruence.
    + split; [|reflexivity]. intros _ f' [= <-].
      split; now apply rejects_spec.
Qed.

Lemma apply_filter_spec f results r :
  In r (apply_filter f results) <-> In r results /\ matches f r.
Proof.
  unfold apply_filter. destruct f as [f|].
  - rewrite filter_In, passes_filter_spec. reflexivity.
  - split; [|tauto]. intros H. split; [exact H|]. intros f' [=].
Qed.

Section Provider.
Variable embeddings_create : jsstring -> jsstring -> outcome (list float).
Variable svc : Service.
Variable query : jsstring.

Abbreviation retrieve' := (retrieve embeddings_create svc query).

Lemma filter_all {A} (f : A -> bool) l : Forall (fun x => f x = true) (filter f l).
Proof. apply Forall_forall. intros x Hx. now apply filter_In in Hx. Qed.

Lemma filter_filter {A} (f g : A -> bool) l :
  filter g (filter f l) = filter (fun x => f x && g x) l.
Proof.
  induction l as [|x l IH]; [reflexivity|]. simpl.
  destruct (f x); simpl; [|exact IH].
  destruct (g x); [now rewrite IH|exact IH].
Qed.

Lemma In_firstn_In {A} (x : A) k : forall l, In x (firstn k l) -> In x l.
Proof.
  induction k as [|k IH]; intros [|y l]; simpl; try tauto.
  intros [->|H]; auto.
Qed.

Lemma Forall_firstn {A} (P : A -> Prop) k l : Forall P l -> Forall P (firstn k l).
Proof.
  intros H. apply Forall_forall. intros x Hx.
  rewrite Forall_forall in H. apply H. eapply In_firstn_In; eauto.
Qed.

Lemma In_slice {A} (x : A) l k : In x (slice l 0 k) -> In x l.
Proof. rewrite slice_from_start. apply In_firstn_In. Qed.

(** Every result passed the score threshold in force. *)
Lemma results_meet_threshold options :
  Forall (fun r => (num_or (opt_minScore options) 0.3 <=? score r) = true
                   /\ (score r <? num_or (opt_minScore options) 0.3) = false)
    (fst (retrieve' options)).
Proof.
  unfold retrieve. cbn [fst]. rewrite slice_from_start. apply Forall_firstn.
  eapply Forall_impl; [|apply filter_all]. simpl.
  intros r Hr. split; [exact Hr|]. now apply leb_not_ltb.
Qed.

(** C6 (as amended).  [retrieve] searches the index with [slice(0, 2 *
    topK)], applies the optional filter, drops the entries whose score is
    not at least [minScore], and truncates with [slice(0, topK)]; [topK]
    and [minScore] are the values in force after defaulting.  The entries
    [kept] by the two filters are exactly the candidates that match the
    filter (every field of the filter that is given and not empty is the
    passage's) and score at least [minScore], each as often as and in the
    order in which it is among the candidates; the results are a prefix
    of them.  So every returned result is a
    candidate that matches the filter and scores at least [minScore] (not
    below it).  When [topK] is not negative there are at most [2 * topK]
    candidates and at most [topK] results, and every kept entry is
    returned when there are no more than [topK] of them; in general the
    number of results is what [slice(0, topK)] leaves of the kept
    entries. *)
Theorem retrieve_filters_thresholds_truncates options :
  let k := int_or (opt_topK options) (topK svc) in
  let minScore := num_or (opt_minScore options) 0.3 in
  let candidates :=
    search (vectorStore svc) (query_embedding embeddings_create svc query)
      (k * 2) in
  let kept :=
    filter (fun r => minScore <=? score r)
      (apply_filter (opt_filter options) candidates) in
  let results := fst (retrieve' options) in
  results = slice kept 0 k
  /\ (forall r, In r kept <->
                In r candidates /\ matches (opt_filter options) r
                /\ (minScore <=? score r) = true)
  /\ (exists keep,
        kept = filter keep candidates
        /\ forall r, keep r = true <->
                     matches (opt_filter options) r
                     /\ (minScore <=? score r) = true)
  /\ (exists rest, kept = results ++ rest)
  /\ Forall (fun r => In r candidates /\ matches (opt_filter options) r
                      /\ (minScore <=? score r) = true
                      /\ (score r <? minScore) = false) results
  /\ (0 <= k -> Z.of_nat (length candidates) <= k * 2)%Z
  /\ (0 <= k -> Z.of_nat (length results) <= k)%Z
  /\ (Z.of_nat (length kept) <= k -> results = kept)%Z
  /\ Z.of_nat (length results) = clamp_index (Z.of_nat (length kept)) k
  /\ chunksRetrieved (snd (retrieve' options)) = length results.
Proof.
  intros k minScore candidates kept results.
  assert (E : results = slice kept 0 k) by reflexivity.
  assert (Hkept : forall r, In r kept <->
                    In r candidates /\ matches (opt_filter options) r
                    /\ (minScore <=? score r) = true).
  { intros r. unfold kept. rewrite filter_In, apply_filter_spec. tauto. }
  split; [exact E|]. split; [exact Hkept|].
  split; [|split; [|split; [|split; [|split; [|split; [|split; [|reflexivity]]]]]]].
  - unfold kept, apply_filter. destruct (opt_filter options) as [f|].
    + exists (fun r => passes_filter f r && (minScore <=? score r)).
      split; [apply filter_filter|].
      intros r. now rewrite andb_true_iff, passes_filter_spec.
    + exists (fun r => minScore <=? score r). split; [reflexivity|].
      intros r. split; [|tauto]. intros H. split; [|exact H]. intros f' [=].
  - exists (skipn (Z.to_nat (clamp_index (Z.of_nat (length kept)) k)) kept).
    rewrite E, slice_from_start. symmetry. apply firstn_skipn.
  - apply Forall_forall. intros r Hr. rewrite E in Hr. apply In_slice in Hr.
    apply Hkept in Hr. destruct Hr as [H1 [H2 H3]].
    split; [exact H1|]. split; [exact H2|]. split; [exact H3|].
    now apply leb_not_ltb.
  - intros Hk. unfold candidates, search. apply slice_length_bound. lia.
  - rewrite E. apply slice_length_bound.
  - intros Hlen. rewrite E, slice_from_start. apply firstn_all2.
    unfold clamp_index.
    replace (k <? 0)%Z with false by (symmetry; apply Z.ltb_ge; lia). lia.
  - rewrite E. apply slice_count.
Qed.

Definition with_topK (options : RetrieveOptions) (v : option Z) :=
  {| opt_topK := v; opt_minScore := opt_minScore options;
     opt_filter := opt_filter options |}.

Definition with_minScore (options : RetrieveOptions) (v : option float) :=
  {| opt_topK := opt_topK options; opt_minScore := v;
     opt_filter := opt_filter options |}.

(** C10.  An explicit [topK] of 0 and an explicit [minScore] of 0 are
    falsy: [retrieve] returns what it returns when the option is omitted.
    [topK] is then the configured one (5 unless the constructor was given
    another), [minScore] is 0.3, and every result returned under an
    explicit [minScore] of 0 scores at least 0.3. *)
Theorem retrieve_zero_is_default options :
  retrieve' (with_topK options (Some 0%Z)) = retrieve' (with_topK options None)
  /\ retrieve' (with_minScore options (Some 0))
     = retrieve' (with_minScore options None)
  /\ int_or (Some 0%Z) (topK svc) = topK svc
  /\ num_or (Some 0) 0.3 = 0.3
  /\ Forall (fun r => (0.3 <=? score r) = true
                      /\ (score r <? 0.3) = false)
       (fst (retrieve' (with_minScore options (Some 0))))
  /\ forall env, topK (ragService env) = 5%Z.
Proof.
  split; [reflexivity|]. split; [reflexivity|].
  split; [reflexivity|]. split; [reflexivity|]. split; [|reflexivity].
  apply (results_meet_threshold (with_minScore options (Some 0))).
Qed.

End Provider.

End RetrieverSpec.

(** ** An index of four passages *)
Module IndexExamples.
Import JS Rag FloatFacts VectorIndexSpec RetrieverSpec.
#[local] Open Scope float_scope.

Definition entry (name : string) (category : string) (v : list float)
    : DocumentChunk :=
  {| id := lit name; content := lit name;
     metadata := {| source := lit "msa.txt"; page := None;
                    clauseType := Some (lit category);
                    heading := Some (lit "Unnamed Section");
                    charStart := 0; charEnd := 0 |};
     embedding := Some v |}.

Definition index : InMemoryVectorStore :=
  fst (upsert new_store
         [ entry "b" "liability" [1; 1];
           entry "d" "payment" [0; 1];
           entry "a" "liability" [1; 0];
           entry "c" "payment" [2; 2] ]).

Definition names (l : list RetrievalResult) : list jsstring :=
  map (fun r => id (chunk r)) l.

Definition service : Service :=
  {| vectorStore := index;
     embeddingModel := embeddingModel (ragService None);
     completionModel := completionModel (ragService None);
     chunkSize := chunkSize (ragService None);
     chunkOverlap := chunkOverlap (ragService None);
     topK := topK (ragService None) |}.

(** The provider embeds every query as [[1; 0]]. *)
Definition embedder (_ _ : jsstring) : outcome (list float) := Returned [1; 0].

Example scores_in_insertion_order :
  map score (scored index [1; 0])
  = [0.70710678118654746; 0; 1; 0.70710678118654746].
Proof. reflexivity. Qed.

(** The two passages of equal score keep their insertion order, [b]
    before [c]. *)
Example search_top_three :
  names (search index [1; 0] 3) = [lit "a"; lit "b"; lit "c"].
Proof. reflexivity. Qed.

Example search_all :
  names (search index [1; 0] 10) = [lit "a"; lit "b"; lit "c"; lit "d"].
Proof. reflexivity. Qed.

(** Setting an existing key keeps its place in the iteration order. *)
Example upsert_keeps_position :
  map fst (embeddings (fst (upsert index [entry "d" "payment" [3; 0]])))
  = [lit "b"; lit "d"; lit "a"; lit "c"]
  /\ names (search (fst (upsert index [entry "d" "payment" [3; 0]])) [1; 0] 2)
     = [lit "d"; lit "a"].
Proof. split; reflexivity. Qed.

Lemma search_witness :
  Forall is_number (scored index [1; 0])
  /\ StronglySorted at_least (search index [1; 0] 3).
Proof.
  assert (H : Forall is_number (scored index [1; 0]))
    by (repeat constructor).
  split; [exact H|].
  destruct (search_sorted_stable_at_most_k index [1; 0] 3)
    as [_ [cut [_ Hsorted]]].
  exact (proj1 (Hsorted H)).
Defined.

(** Three passages, the second of which has the zero vector: it scores
    [NaN] against every query. *)
Definition index_with_zero_vector : InMemoryVectorStore :=
  fst (upsert new_store
         [ entry "b" "liability" [1; 1];
           entry "z" "general" [0; 0];
           entry "a" "liability" [1; 0] ]).

(** C7, counterexample.  The scores of the three entries are 0.707...,
    [NaN] and 1, in insertion order.  The comparison function returns
    [NaN], read as 0, for [z] against its neighbour on either side, so the
    sort finds nothing to move (the array is one run for an insertion or
    merge sort, as for the run detection of V8's TimSort) and [search]
    returns the entries as they are: [b] comes before [a], whose score is
    higher, and for [k = 2] the entries returned are [b] and [z], without
    the best-scoring [a].  With [k = -2], which is what [retrieve] asks
    for when [topK] is [-1], [slice(0, -2)] returns two of the four
    passages of [index], more than [k]. *)
Lemma nan_score_leaves_entries_unsorted :
  map score (scored index_with_zero_vector [1; 0])
  = [0.70710678118654746; nan; 1]
  /\ names (search index_with_zero_vector [1; 0] 4) = [lit "b"; lit "z"; lit "a"]
  /\ (exists r r',
        nth_error (search index_with_zero_vector [1; 0] 4) 0 = Some r
        /\ nth_error (search index_with_zero_vector [1; 0] 4) 2 = Some r'
        /\ (score r <? score r') = true)
  /\ ~ StronglySorted at_least (search index_with_zero_vector [1; 0] 4)
  /\ names (search index_with_zero_vector [1; 0] 2) = [lit "b"; lit "z"]
  /\ names (search index [1; 0] (-2)) = [lit "a"; lit "b"]
  /\ ~ Z.le (Z.of_nat (length (search index [1; 0] (-2)))) (-2).
Proof.
  split; [reflexivity|]. split; [reflexivity|].
  split; [eexists _, _; repeat split|].
  split.
  - intros H. change (search index_with_zero_vector [1; 0] 4)
      with (scored index_with_zero_vector [1; 0]) in H.
    inversion H as [|r l _ Hall]; subst.
    inversion Hall as [|z l' [_ [Hz _]] _]; subst.
    discriminate Hz.
  - split; [reflexivity|]. split; [reflexivity|].
    vm_compute. intros H. now apply H.
Qed.

Definition options (k : option Z) (minScore : option float)
    (f : option Filter) : RetrieveOptions :=
  {| opt_topK := k; opt_minScore := minScore; opt_filter := f |}.

Example retrieve_defaults :
  names (fst (retrieve embedder service (lit "indemnity") no_retrieve_options))
  = [lit "a"; lit "b"; lit "c"].
Proof. reflexivity. Qed.

(** An explicit [minScore] of 0 still drops [d], whose score is 0. *)
Example retrieve_explicit_zero_minScore :
  names (fst (retrieve embedder service (lit "indemnity")
                (options None (Some 0) None)))
  = [lit "a"; lit "b"; lit "c"].
Proof. reflexivity. Qed.

(** A [minScore] that is truthy is used: [-1] keeps [d]. *)
Example retrieve_negative_minScore :
  names (fst (retrieve embedder service (lit "indemnity")
                (options None (Some (-1)) None)))
  = [lit "a"; lit "b"; lit "c"; lit "d"].
Proof. reflexivity. Qed.

(** An explicit [topK] of 0 is the default of 5, not an empty result. *)
Example retrieve_explicit_zero_topK :
  names (fst (retrieve embedder service (lit "indemnity")
                (options (Some 0%Z) None None)))
  = [lit "a"; lit "b"; lit "c"].
Proof. reflexivity. Qed.

(** The filter is applied to the [2 * topK] candidates: with [topK = 1]
    the only payment passage among the two candidates [a], [b] is none. *)
Example retrieve_filter_after_search :
  names (fst (retrieve embedder service (lit "indemnity")
                (options (Some 1%Z) None
                   (Some {| flt_clauseType := Some (lit "payment");
                            flt_source := None |}))))
  = []
  /\ names (fst (retrieve embedder service (lit "indemnity")
                   (options (Some 2%Z) None
                      (Some {| flt_clauseType := Some (lit "payment");
                               flt_source := None |}))))
     = [lit "c"].
Proof. split; reflexivity. Qed.

(** A threshold above the best score gives an empty result. *)
Example retrieve_high_threshold :
  fst (retrieve embedder service (lit "indemnity") (options None (Some 1.5) None))
  = [].
Proof. reflexivity. Qed.

(** The results of a filtered retrieval, as the theorem describes them:
    with [topK = 2] the candidates are [a], [b], [c], [d], and the one
    liability passage that the source filter leaves out is none. *)
Lemma retrieve_filter_witness :
  Forall (fun r => clauseType (metadata (chunk r)) = Some (lit "liability"))
    (fst (retrieve embedder service (lit "indemnity")
            (options (Some 2%Z) None
               (Some {| flt_clauseType := Some (lit "liability");
                        flt_source := Some [] |})))).
Proof.
  destruct (retrieve_filters_thresholds_truncates embedder service
              (lit "indemnity")
              (options (Some 2%Z) None
                 (Some {| flt_clauseType := Some (lit "liability");
                          flt_source := Some [] |})))
    as [_ [_ [_ [_ [H _]]]]].
  cbv zeta in H. eapply Forall_impl; [|exact H]. cbv beta.
  intros r [_ [Hm _]]. destruct (Hm _ eq_refl) as [Hc _].
  apply (Hc (lit "liability") eq_refl). discriminate.
Defined.

Example retrieve_liability_only :
  names (fst (retrieve embedder service (lit "indemnity")
                (options (Some 2%Z) None
                   (Some {| flt_clauseType := Some (lit "liability");
                            flt_source := Some [] |}))))
  = [lit "a"; lit "b"].
Proof. reflexivity. Qed.

(** C6, counterexample.  With [topK = -1], which [||] keeps, the index is
    searched with [slice(0, -2)], which leaves the candidates [a] and [b]
    of the four passages; both score at least 0.3, and [slice(0, -1)]
    returns [a]: one result, which is more than [topK]. *)
Lemma negative_topK_returns_more_than_topK :
  let results :=
    fst (retrieve embedder service (lit "indemnity")
           (options (Some (-1)%Z) None None)) in
  int_or (Some (-1)%Z) (topK service) = (-1)%Z
  /\ names (search index [1; 0] (-1 * 2)) = [lit "a"; lit "b"]
  /\ names results = [lit "a"]
  /\ ~ (Z.of_nat (length results) <= -1)%Z.
Proof.
  cbv zeta. split; [reflexivity|]. split; [reflexivity|].
  split; [reflexivity|]. vm_compute. intros H. now apply H.
Qed.

End IndexExamples.

(* ================================================================== *)
(** * Part IX.  Properties of the confidence score                     *)
(* ================================================================== *)

Module ConfidenceSpec.
Import JS Rag FloatFacts.
#[local] Open Scope Z_scope.

(** A score between 0 and 1, both included. *)
Definition unit_score (x : float) : Prop :=
  (0 <=? x)%float = true /\ (x <=? 1)%float = true.

Lemma unit_score_within x : unit_score x <-> within (2 ^ 1074) x.
Proof.
  unfold unit_score, within. rewrite !leb_key, key_0, key_1.
  destruct (key x) as [k|].
  - rewrite !Z.leb_le. split.
    + intros [L U]. exists k. split; [reflexivity|lia].
    + intros [k' [E R]]. injection E as <-. lia.
  - split; [intros [H _]; discriminate|intros [k [H _]]; discriminate].
Qed.

(** The sum of [j] scores is at most [j], as long as [j] is a number. *)
Lemma sum_within (context : list RetrievalResult) : forall (acc : float) (j : nat),
  Forall (fun r => unit_score (score r)) context ->
  Z.of_nat (j + length context) < 2 ^ 53 ->
  within (Z.of_nat j * 2 ^ 1074) acc ->
  within (Z.of_nat (j + length context) * 2 ^ 1074)
         (fold_left (fun sum r => (sum + score r)%float) context acc).
Proof.
  assert (T : 0 < 2 ^ 1074) by (apply pow2_positive; lia).
  pose proof one_below_huge as Hh.
  induction context as [|r context IH]; intros acc j Hall Hlen Hacc; cbn [fold_left].
  - rewrite Nat.add_0_r. exact Hacc.
  - inversion Hall as [|? ? Hr Hall']; subst. cbn [length] in *.
    replace (j + S (length context))%nat with (S j + length context)%nat in * by lia.
    apply IH; auto.
    apply (add_within acc (score r) (num_of_nat (S j)) (Z.of_nat j * 2 ^ 1074) (2 ^ 1074)).
    + exact Hacc.
    + now apply unit_score_within.
    + apply key_of_integer. lia.
    + lia.
    + assert (2 ^ 53 < 2 ^ 63) by (apply Z.pow_lt_mono_r; lia). nia.
Qed.

Lemma key_0_6 : key 0.6%float = Some (5404319552844595 * 2 ^ 1021).
Proof. vm_compute. reflexivity. Qed.

Lemma key_0_4 : key 0.4%float = Some (7205759403792794 * 2 ^ 1020).
Proof. vm_compute. reflexivity. Qed.

Lemma key_100 : key 100%float = Some (100 * 2 ^ 1074).
Proof. vm_compute. reflexivity. Qed.

(** Every intermediate result of [calculateConfidence] stays below a
    number: the sum of the scores below their count, the mean and the
    capped ratio below 1, the two weighted terms below 0.6 and 0.4 (whose
    sum is 1 exactly), the percentage below 100 before and after
    [Math.round]. *)
Lemma calculateConfidence_unit_score context citationCount :
  Forall (fun r => unit_score (score r)) context ->
  Z.of_nat (length context) < 2 ^ 53 ->
  unit_score (calculateConfidence context citationCount).
Proof.
  intros Hall Hlen. apply unit_score_within. unfold calculateConfidence.
  assert (T : 0 < 2 ^ 1074) by (apply pow2_positive; lia).
  pose proof one_below_huge as Hh.
  assert (H53 : 2 ^ 53 < 2 ^ 63) by (apply Z.pow_lt_mono_r; lia).
  assert (T1 : 2 ^ 1074 < huge) by nia.
  destruct (length context =? 0)%nat eqn:E.
  { exists 0. split; [reflexivity|lia]. }
  apply Nat.eqb_neq in E.
  set (n := num_of_nat (length context)).
  assert (Hn : key n = Some (Z.of_nat (length context) * 2 ^ 1074))
    by (apply key_of_integer; lia).
  pose proof (sum_within context 0%float 0 Hall Hlen) as Hsum.
  cbn [Nat.add] in Hsum.
  specialize (Hsum ltac:(exists 0; split; [reflexivity|lia])).
  set (sum := fold_left _ context 0%float) in *.
  assert (Havg : within (2 ^ 1074) (sum / n)%float).
  { apply (div_within _ _ 1%float _ _ _ Hsum Hn key_1); nia. }
  assert (Hratio : within (2 ^ 1074) (Math_min (num_of_nat citationCount / n) 1)).
  { replace (2 ^ 1074) with (Z.min (2 ^ 63 * 2 ^ 1074) (2 ^ 1074)) at 1 by lia.
    apply Math_min_within; [|apply unit_score_within; split; reflexivity].
    set (c := num_of_nat citationCount).
    destruct (of_uint63_within (Uint63.of_Z (Z.of_nat citationCount))) as [kc [Hc Rc]].
    fold (num_of_Z (Z.of_nat citationCount)) in Hc.
    fold (num_of_nat citationCount) in Hc. fold c in Hc.
    apply (within_weaken kc); [|lia].
    apply (div_within c n c kc _ kc
             ltac:(exists kc; split; [exact Hc|lia]) Hn Hc); nia. }
  set (ratio := Math_min _ 1) in *. set (avg := (sum / n)%float) in *.
  assert (H6 : within (5404319552844595 * 2 ^ 1021) (avg * 0.6)%float).
  { apply (mul_within avg 0.6%float 0.6%float _ _ _ Havg
             (within_key _ _ key_0_6 ltac:(lia)) key_0_6); lia. }
  assert (H4 : within (7205759403792794 * 2 ^ 1020) (ratio * 0.4)%float).
  { apply (mul_within ratio 0.4%float 0.4%float _ _ _ Hratio
             (within_key _ _ key_0_4 ltac:(lia)) key_0_4); lia. }
  assert (Hs : within (2 ^ 1074) (avg * 0.6 + ratio * 0.4)%float).
  { apply (add_within _ _ 1%float _ _ _ H6 H4 key_1); [|lia].
    vm_compute. discriminate. }
  assert (Hp : within (100 * 2 ^ 1074) ((avg * 0.6 + ratio * 0.4) * 100)%float).
  { apply (mul_within _ 100%float 100%float _ _ _ Hs
             (within_key _ _ key_100 ltac:(lia)) key_100); nia. }
  apply (Math_round_within 100) in Hp; [|split; [lia|vm_compute; reflexivity]].
  apply (div_within _ 100%float 1%float _ _ _ Hp key_100 key_1); nia.
Qed.

(** C9 (as amended).  For an empty context the confidence is 0.  For a
    non-empty context it is 0.6 times the mean score plus 0.4 times the
    ratio of the cited count to the context count capped at 1, times 100,
    rounded to the nearest integer and divided by 100, all in binary64
    arithmetic.  It lies between 0 and 1 whenever every score of the
    context does (for scores outside [0, 1] it need not); the context is
    an array, whose length is below [2 ^ 32]. *)
Theorem confidence_formula_and_range :
  (forall citationCount, calculateConfidence [] citationCount = 0%float)
  /\ (forall r context citationCount,
        let n := num_of_nat (length (r :: context)) in
        let avgScore :=
          (fold_left (fun sum r => sum + score r) (r :: context) 0 / n)%float in
        let citationRatio := Math_min (num_of_nat citationCount / n) 1 in
        calculateConfidence (r :: context) citationCount
        = (Math_round ((avgScore * 0.6 + citationRatio * 0.4) * 100) / 100)%float)
  /\ (forall context citationCount,
        Z.of_nat (length context) < 2 ^ 32 ->
        Forall (fun r => unit_score (score r)) context ->
        unit_score (calculateConfidence context citationCount)).
Proof.
  split; [reflexivity|]. split; [reflexivity|].
  intros context citationCount Hlen Hall.
  apply calculateConfidence_unit_score; [exact Hall|].
  assert (2 ^ 32 < 2 ^ 53) by (apply Z.pow_lt_mono_r; lia). lia.
Qed.

#[local] Open Scope float_scope.

Definition scoring (s : float) : RetrievalResult :=
  {| chunk := {| id := lit "msa.txt-0"; content := lit "Fees are payable.";
                 metadata := {| source := lit "msa.txt"; page := None;
                                clauseType := Some (lit "payment");
                                heading := Some (lit "Fees");
                                charStart := 0; charEnd := 17 |};
                 embedding := None |};
     score := s;
     relevanceExplanation := None |}.

Lemma confidence_witness :
  unit_score (calculateConfidence [scoring 0.9; scoring 0.8; scoring 0.7] 2).
Proof.
  apply (proj2 (proj2 confidence_formula_and_range)).
  - reflexivity.
  - repeat (apply Forall_cons; [split; reflexivity|]). apply Forall_nil.
Defined.

Example confidence_of_three_passages :
  calculateConfidence [scoring 0.9; scoring 0.8; scoring 0.7] 2 = 0.75.
Proof. reflexivity. Qed.

Example confidence_rounds_to_two_decimals :
  calculateConfidence [scoring 0.9; scoring 0.8; scoring 0.6] 1 = 0.59.
Proof. reflexivity. Qed.

(** C9, counterexample.  A context whose only passage scores -1 (two
    opposite vectors) and of which nothing is cited has confidence -0.6,
    which is below 0. *)
Lemma negative_score_gives_negative_confidence :
  calculateConfidence [scoring (-1)] 0 = -0.6
  /\ (calculateConfidence [scoring (-1)] 0 <? 0) = true
  /\ (0 <=? calculateConfidence [scoring (-1)] 0) = false.
Proof. repeat split. Qed.

Example opposite_vectors_score_minus_one :
  cosineSimilarity [1; 0] [-1; 0] = -1.
Proof. reflexivity. Qed.

End ConfidenceSpec.

(* ================================================================== *)
(** * Part X.  The index under [upsert], and the similarity *)
(* ================================================================== *)

Module StoreSpec.
Import JS Rag StringFacts.

(** ** Maps *)

Section Maps.
Context {V : Type}.
Implicit Types (m : jsmap V) (k : jsstring) (v : V).

Definition keys m : list jsstring := map fst m.

Lemma map_get_set_same m k v : map_get (map_set m k v) k = Some v.
Proof.
  induction m as [|[k' v'] m IH]; simpl.
  - now rewrite str_eqb_refl.
  - destruct (str_eqb k' k) eqn:E; simpl; rewrite E; auto.
Qed.

Lemma map_get_set_other m k k' v :
  k' <> k -> map_get (map_set m k v) k' = map_get m k'.
Proof.
  intros Hne. induction m as [|[k0 v0] m IH]; simpl.
  - replace (str_eqb k k') with false; [reflexivity|].
    symmetry. apply str_eqb_neq. congruence.
  - destruct (str_eqb k0 k) eqn:E; simpl.
    + apply str_eqb_eq in E. subst k0.
      replace (str_eqb k k') with false; [reflexivity|].
      symmetry. apply str_eqb_neq. congruence.
    + now rewrite IH.
Qed.

Lemma map_get_None m k : map_get m k = None <-> ~ In k (keys m).
Proof.
  induction m as [|[k' v'] m IH]; simpl.
  - tauto.
  - destruct (str_eqb k' k) eqn:E.
    + apply str_eqb_eq in E. subst. split; [discriminate|]. intros H. elim H. now left.
    + apply str_eqb_neq in E. rewrite IH. tauto.
Qed.

Lemma map_get_Some m k v : map_get m k = Some v -> In (k, v) m.
Proof.
  induction m as [|[k' v'] m IH]; simpl; [discriminate|].
  destruct (str_eqb k' k) eqn:E.
  - apply str_eqb_eq in E. subst. intros H. injection H as ->. now left.
  - auto.
Qed.

Lemma In_map_get m k v : NoDup (keys m) -> In (k, v) m -> map_get m k = Some v.
Proof.
  induction m as [|[k' v'] m IH]; simpl; [tauto|].
  intros Hnd [H|H].
  - injection H as -> ->. now rewrite str_eqb_refl.
  - inversion Hnd as [|? ? Hout Hnd']; subst.
    destruct (str_eqb k' k) eqn:E.
    + apply str_eqb_eq in E. subst. elim Hout.
      change k with (fst (k, v)). now apply in_map.
    + auto.
Qed.

Lemma keys_set m k v :
  keys (map_set m k v)
  = match map_get m k with Some _ => keys m | None => keys m ++ [k] end.
Proof.
  unfold keys. induction m as [|[k' v'] m IH]; simpl; [reflexivity|].
  destruct (str_eqb k' k) eqn:E; simpl; [reflexivity|].
  rewrite IH. now destruct (map_get m k).
Qed.

Lemma keys_set_NoDup m k v : NoDup (keys m) -> NoDup (keys (map_set m k v)).
Proof.
  intros H. rewrite keys_set. destruct (map_get m k) eqn:E; [exact H|].
  apply map_get_None in E. revert H E. generalize (keys m) as l.
  induction l as [|x l IH]; simpl; intros H E.
  - constructor; [tauto|constructor].
  - inversion H as [|? ? Hx Hl]; subst. constructor.
    + rewrite in_app_iff. simpl. intuition congruence.
    + apply IH; tauto.
Qed.

End Maps.

Arguments keys {V} m.

Lemma keys_set_In {V} (m : jsmap V) k0 v k :
  In k (keys (map_set m k0 v)) <-> In k (keys m) \/ k = k0.
Proof.
  rewrite keys_set. destruct (map_get m k0) eqn:E.
  - split; [tauto|]. intros [H| ->]; [exact H|].
    destruct (in_dec (list_eq_dec N.eq_dec) k0 (keys m)) as [Hin|Hout]; [exact Hin|].
    apply map_get_None in Hout. congruence.
  - rewrite in_app_iff. simpl. intuition congruence.
Qed.

(** ** The index: [upsert] *)

Lemma upsert_snoc st chunks c :
  fst (upsert st (chunks ++ [c])) = upsert_chunk (fst (upsert st chunks)) c.
Proof. unfold upsert. simpl. now rewrite fold_left_app. Qed.

Definition has_id (k : jsstring) (c : DocumentChunk) : bool := str_eqb (id c) k.

Definition has_vector (k : jsstring) (c : DocumentChunk) : bool :=
  str_eqb (id c) k && match embedding c with Some _ => true | None => false end.

(** X1.  Looking a key up after [upsert]: the last passage of the batch with
    that id, or what the index held before when the batch has none; and
    for the vector, the last passage of the batch with that id that
    carries one. *)
Theorem upsert_last_write_wins st chunks k :
  map_get (documents (fst (upsert st chunks))) k
  = match find (has_id k) (rev chunks) with
    | Some c => Some c
    | None => map_get (documents st) k
    end
  /\ map_get (embeddings (fst (upsert st chunks))) k
     = match find (has_vector k) (rev chunks) with
       | Some c => embedding c
       | None => map_get (embeddings st) k
       end.
Proof.
  induction chunks as [|c chunks [IHd IHe]] using rev_ind; [split; reflexivity|].
  rewrite upsert_snoc, rev_app_distr. cbn [rev app find upsert_chunk documents embeddings].
  unfold has_id, has_vector.
  destruct (str_eqb (id c) k) eqn:E; cbn [andb].
  - apply str_eqb_eq in E. subst k. split; [apply map_get_set_same|].
    destruct (embedding c) as [e|] eqn:Emb; [|exact IHe].
    rewrite Emb. apply map_get_set_same.
  - apply str_eqb_neq in E. split.
    + rewrite map_get_set_other by congruence. exact IHd.
    + destruct (embedding c) as [e|]; [|exact IHe].
      rewrite map_get_set_other by congruence. exact IHe.
Qed.

Lemma keys_set_extends {V} (m : jsmap V) k v :
  exists added, keys (map_set m k v) = keys m ++ added
                /\ incl added [k] /\ length added <= 1.
Proof.
  rewrite keys_set. destruct (map_get m k).
  - exists []. rewrite app_nil_r. repeat split; [apply incl_nil_l|simpl; lia].
  - exists [k]. repeat split; [apply incl_refl|simpl; lia].
Qed.

(** X2.  [upsert] never removes a passage or a vector and never moves one:
    the keys of both maps are the former keys followed by new ones, which
    are ids of the batch.  It returns the length of the batch, which is
    therefore at least the number of passages added. *)
Theorem upsert_never_deletes st chunks :
  let st' := fst (upsert st chunks) in
  (exists added,
     keys (documents st') = keys (documents st) ++ added
     /\ incl added (map id chunks) /\ length added <= length chunks)
  /\ (exists added,
        keys (embeddings st') = keys (embeddings st) ++ added
        /\ incl added (map id chunks) /\ length added <= length chunks)
  /\ getDocumentCount st <= getDocumentCount st'
     <= getDocumentCount st + snd (upsert st chunks)
  /\ snd (upsert st chunks) = length chunks.
Proof.
  cbv zeta.
  assert (H : (exists added,
     keys (documents (fst (upsert st chunks))) = keys (documents st) ++ added
     /\ incl added (map id chunks) /\ length added <= length chunks)
  /\ (exists added,
        keys (embeddings (fst (upsert st chunks))) = keys (embeddings st) ++ added
        /\ incl added (map id chunks) /\ length added <= length chunks)).
  { induction chunks as [|c chunks [[ad [Ed [Id Ld]]] [ae [Ee [Ie Le]]]]] using rev_ind.
    - split; exists []; rewrite app_nil_r; repeat split;
        try apply incl_nil_l; simpl; lia.
    - rewrite upsert_snoc, map_app, length_app. cbn [map length upsert_chunk documents embeddings].
      split.
      + destruct (keys_set_extends (documents (fst (upsert st chunks))) (id c) c)
          as [a [Ea [Ia La]]].
        exists (ad ++ a). rewrite Ea, Ed, app_assoc, length_app. repeat split; [|lia].
        apply incl_app; [now apply incl_appl|now apply incl_appr].
      + destruct (embedding c) as [e|].
        * destruct (keys_set_extends (embeddings (fst (upsert st chunks))) (id c) e)
            as [a [Ea [Ia La]]].
          exists (ae ++ a). rewrite Ea, Ee, app_assoc, length_app. repeat split; [|lia].
          apply incl_app; [now apply incl_appl|now apply incl_appr].
        * exists ae. repeat split; [exact Ee|now apply incl_appl|lia]. }
  destruct H as [Hd He]. split; [exact Hd|]. split; [exact He|].
  split; [|reflexivity].
  destruct Hd as [ad [Ed [_ Ld]]]. unfold getDocumentCount.
  rewrite <- !(length_map fst). fold (keys (documents st)).
  fold (keys (documents (fst (upsert st chunks)))).
  rewrite Ed, length_app. simpl. lia.
Qed.

(** ** Indexes built by [upsert] *)

(** What [upsert] keeps true of the two maps, whose fields are private:
    a passage is stored under its own id, and every vector belongs to a
    stored passage. *)
Definition sound (st : InMemoryVectorStore) : Prop :=
  NoDup (keys (documents st)) /\ NoDup (keys (embeddings st))
  /\ (forall k c, map_get (documents st) k = Some c -> id c = k)
  /\ (forall k, In k (keys (embeddings st)) -> In k (keys (documents st))).

Lemma sound_new : sound new_store.
Proof.
  repeat split; try constructor; simpl; try discriminate; tauto.
Qed.

Lemma sound_upsert_chunk st c : sound st -> sound (upsert_chunk st c).
Proof.
  intros [Hd [He [Hid Hin]]]. unfold upsert_chunk, sound. cbn [documents embeddings].
  split; [now apply keys_set_NoDup|]. split; [|split].
  - destruct (embedding c); [now apply keys_set_NoDup|exact He].
  - intros k c0 H.
    destruct (list_eq_dec N.eq_dec k (id c)) as [->|Hne].
    + rewrite map_get_set_same in H. now injection H as ->.
    + rewrite map_get_set_other in H by exact Hne. now apply Hid.
  - intros k H. apply keys_set_In.
    destruct (embedding c).
    + apply keys_set_In in H. destruct H as [H|H]; [left; now apply Hin|now right].
    + left. now apply Hin.
Qed.

Lemma sound_upsert st chunks : sound st -> sound (fst (upsert st chunks)).
Proof.
  intros H. induction chunks as [|c chunks IH] using rev_ind; [exact H|].
  rewrite upsert_snoc. now apply sound_upsert_chunk.
Qed.

Definition scores (st : InMemoryVectorStore) (q : list float)
    (entry : jsstring * list float) (r : RetrievalResult) : Prop :=
  map_get (documents st) (fst entry) = Some (chunk r)
  /\ score r = cosineSimilarity q (snd entry).

Lemma scored_entries st q : forall entries,
  (forall k, In k (keys entries) -> In k (keys (documents st))) ->
  Forall2 (scores st q)
    entries
    (flat_map
       (fun '(key, emb) =>
          match map_get (documents st) key with
          | Some c => [{| chunk := c; score := cosineSimilarity q emb;
                          relevanceExplanation := None |}]
          | None => []
          end) entries).
Proof.
  induction entries as [|[k e] entries IH]; intros Hin; cbn [flat_map].
  - constructor.
  - destruct (map_get (documents st) k) as [c|] eqn:E.
    + constructor; [now split|]. apply IH. intros k' Hk'. apply Hin. now right.
    + apply map_get_None in E. elim E. apply Hin. now left.
Qed.

Lemma In_firstn {A} (x : A) k : forall l, In x (firstn k l) -> In x l.
Proof.
  induction k as [|k IH]; intros [|y l]; simpl; try tauto.
  intros [H|H]; [now left|right; now apply IH].
Qed.

Lemma Forall2_In_r {A B} (R : A -> B -> Prop) l l' y :
  Forall2 R l l' -> In y l' -> exists x, In x l /\ R x y.
Proof.
  induction 1 as [|x y' l l' HR _ IH]; simpl; [tauto|].
  intros [->|H]; [exists x; auto|].
  destruct (IH H) as [x' [Hx' HR']]. exists x'. auto.
Qed.

Lemma search_length_sound st q (k : Z) :
  sound st ->
  Z.of_nat (length (search st q k))
  = clamp_index (Z.of_nat (length (embeddings st))) k.
Proof.
  intros [_ [_ [_ Hin]]].
  pose proof (scored_entries st q (embeddings st) Hin) as H2.
  fold (scored st q) in H2.
  pose proof (VectorIndexSpec.sort_perm (scored st q)) as Hp.
  unfold search.
  now rewrite slice_count, (Permutation_length Hp), <- (Forall2_length H2).
Qed.

Lemma search_length_count st q (n : nat) :
  sound st ->
  length (search st q (Z.of_nat n)) = Nat.min n (length (embeddings st)).
Proof.
  intros Hs. apply Nat2Z.inj. rewrite (search_length_sound st q _ Hs).
  unfold clamp_index.
  replace (Z.of_nat n <? 0)%Z with false by (symmetry; apply Z.ltb_ge; lia).
  lia.
Qed.

Lemma In_search st q k r : In r (search st q k) -> In r (scored st q).
Proof.
  unfold search. rewrite slice_from_start. intros H. apply In_firstn in H.
  now apply (Permutation_in _ (VectorIndexSpec.sort_perm (scored st q))).
Qed.

(** X3.  On an index built by [upsert], [search] returns one result per
    stored vector, up to [k] of them (for an integer [k] that may be
    negative: what [slice(0, k)] leaves of that many results); each
    result is the passage stored under its id, scored against the vector
    stored under that id. *)
Theorem search_on_built_index chunks q (k : Z) :
  let st := fst (upsert new_store chunks) in
  (forall n : nat,
     length (search st q (Z.of_nat n)) = Nat.min n (length (embeddings st)))
  /\ Z.of_nat (length (search st q k))
     = clamp_index (Z.of_nat (length (embeddings st))) k
  /\ Forall (fun r =>
               map_get (documents st) (id (chunk r)) = Some (chunk r)
               /\ exists e, map_get (embeddings st) (id (chunk r)) = Some e
                            /\ score r = cosineSimilarity q e)
       (search st q k).
Proof.
  cbv zeta. set (st := fst (upsert new_store chunks)).
  assert (Hs : sound st) by (apply sound_upsert, sound_new).
  split; [intros n; now apply search_length_count|].
  split; [now apply search_length_sound|].
  destruct Hs as [Hd [He [Hid Hin]]].
  pose proof (scored_entries st q (embeddings st) Hin) as H2.
  fold (scored st q) in H2.
  apply Forall_forall. intros r Hr. apply In_search in Hr.
  destruct (Forall2_In_r _ _ _ _ H2 Hr) as [[key emb] [Hentry [Hdoc Hscore]]].
  cbn [fst snd] in *. pose proof (Hid _ _ Hdoc) as Hkey. subst key.
  split; [exact Hdoc|]. exists emb. split; [|exact Hscore].
  apply In_map_get; [exact He|exact Hentry].
Qed.

End StoreSpec.

Module SimilaritySpec.
Import JS Rag FloatFacts StoreSpec.
#[local] Open Scope float_scope.

Lemma SFmul_comm x y : SF64mul x y = SF64mul y x.
Proof.
  destruct x as [sx|sx| |sx mx ex], y as [sy|sy| |sy my ey];
    unfold SF64mul; cbn [SFmul]; try reflexivity;
    try (now rewrite xorb_comm).
  now rewrite xorb_comm, Pos.mul_comm, Z.add_comm.
Qed.

Lemma mul_comm (x y : float) : x * y = y * x.
Proof.
  apply Prim2SF_inj. rewrite !FloatAxioms.mul_spec. apply SFmul_comm.
Qed.

Definition sums_step (acc : float * float * float) (p : float * float)
    : float * float * float :=
  let '(dotProduct, normA, normB) := acc in
  let '(x, y) := p in
  (dotProduct + x * y, normA + x * x, normB + y * y).

Lemma cosine_sums_step a b :
  cosine_sums a b = fold_left sums_step (combine a b) (0, 0, 0).
Proof.
  unfold cosine_sums. generalize (0, 0, 0) as acc.
  induction (combine a b) as [|[x y] l IH]; intros [[d na] nb]; [reflexivity|].
  cbn [fold_left]. apply IH.
Qed.

Lemma sums_swap a : forall b d na nb,
  fold_left sums_step (combine b a) (d, nb, na)
  = let '(d', na', nb') := fold_left sums_step (combine a b) (d, na, nb) in
    (d', nb', na').
Proof.
  induction a as [|x a IH]; intros [|y b] d na nb; cbn [combine fold_left];
    try reflexivity.
  cbn [sums_step]. rewrite IH, (mul_comm y x). reflexivity.
Qed.

(** X4.  The similarity of two vectors does not depend on their order. *)
Theorem cosineSimilarity_symmetric a b :
  cosineSimilarity a b = cosineSimilarity b a.
Proof.
  unfold cosineSimilarity. rewrite (Nat.eqb_sym (length b)).
  destruct (length a =? length b)%nat; cbn [negb]; [|reflexivity].
  rewrite !cosine_sums_step, (sums_swap a b).
  destruct (fold_left sums_step (combine a b) (0, 0, 0)) as [[d na] nb].
  now rewrite (mul_comm (sqrt nb)).
Qed.

(** ** [NaN] *)

Lemma Prim2SF_nan : Prim2SF nan = S754_nan.
Proof. reflexivity. Qed.

Lemma nan_mul_l y : nan * y = nan.
Proof.
  apply Prim2SF_inj. rewrite FloatAxioms.mul_spec, Prim2SF_nan. reflexivity.
Qed.

Lemma nan_add_l y : nan + y = nan.
Proof.
  apply Prim2SF_inj. rewrite FloatAxioms.add_spec, Prim2SF_nan. reflexivity.
Qed.

Lemma nan_add_r x : x + nan = nan.
Proof.
  apply Prim2SF_inj. rewrite FloatAxioms.add_spec, Prim2SF_nan.
  now destruct (Prim2SF x).
Qed.

Lemma nan_div_l y : nan / y = nan.
Proof.
  apply Prim2SF_inj. rewrite FloatAxioms.div_spec, Prim2SF_nan. reflexivity.
Qed.

Lemma leb_nan_r x : (x <=? nan) = false.
Proof. rewrite leb_key. destruct (key x); reflexivity. Qed.

(** ** [generateMockEmbedding] *)

Lemma add_at_length l : forall i x, length (add_at l i x) = length l.
Proof. induction l as [|v l IH]; intros [|i] x; simpl; auto. Qed.

Lemma mock_accumulate_length text : forall i emb,
  length (mock_accumulate text i emb) = length emb.
Proof.
  induction text as [|c text IH]; intros i emb; simpl; [reflexivity|].
  now rewrite IH, add_at_length.
Qed.

Lemma mock_embedding_empty : generateMockEmbedding [] = repeat nan 1536.
Proof. vm_compute. reflexivity. Qed.

(** X5.  The mock embedding of every text has 1536 entries; that of the empty
    text is the zero vector divided by its magnitude, all [NaN]. *)
Theorem generateMockEmbedding_shape :
  (forall text, length (generateMockEmbedding text) = 1536%nat)
  /\ generateMockEmbedding [] = repeat nan 1536.
Proof.
  split; [|exact mock_embedding_empty].
  intros text. unfold generateMockEmbedding.
  rewrite length_map, mock_accumulate_length. apply repeat_length.
Qed.

End SimilaritySpec.

Module RetrieveEdgeSpec.
Import JS Rag FloatFacts StringFacts StoreSpec SimilaritySpec.
#[local] Open Scope float_scope.

Lemma scored_In st q r :
  In r (scored st q) ->
  exists entry, In entry (embeddings st)
                /\ score r = cosineSimilarity q (snd entry).
Proof.
  unfold scored. rewrite in_flat_map. intros [[key emb] [Hin Hr]].
  exists (key, emb). split; [exact Hin|].
  destruct (map_get (documents st) key); simpl in Hr; [|contradiction].
  destruct Hr as [<-|[]]. reflexivity.
Qed.

Lemma filter_none {A} (f : A -> bool) l :
  (forall x, In x l -> f x = false) -> filter f l = [].
Proof.
  induction l as [|x l IH]; simpl; intros H; [reflexivity|].
  rewrite (H x) by now left. apply IH. intros y Hy. apply H. now right.
Qed.

Lemma apply_filter_In f results r :
  In r (apply_filter f results) -> In r results.
Proof.
  destruct f as [f|]; simpl; [|auto]. rewrite filter_In. tauto.
Qed.

Section Retrieval.
Variable embeddings_create : jsstring -> jsstring -> outcome (list float).

(** When no candidate meets the threshold, nothing is retrieved. *)
Lemma retrieve_nothing svc q options :
  (forall entry, In entry (embeddings (vectorStore svc)) ->
     (num_or (opt_minScore options) 0.3
      <=? cosineSimilarity (query_embedding embeddings_create svc q) (snd entry))
     = false) ->
  fst (retrieve embeddings_create svc q options) = []
  /\ chunksRetrieved (snd (retrieve embeddings_create svc q options)) = 0%nat.
Proof.
  intros H. unfold retrieve. cbn [fst snd chunksRetrieved].
  rewrite filter_none; [now rewrite slice_nil|].
  intros r Hr. apply apply_filter_In, In_search, scored_In in Hr.
  destruct Hr as [entry [Hin ->]]. now apply H.
Qed.

(** X6.  Vectors of another dimension than the query embedding score 0: with
    a positive threshold (0.3 unless the caller gave one) nothing is
    retrieved from an index that holds only such vectors. *)
Theorem retrieve_dimension_mismatch svc q options :
  Forall (fun entry =>
            length (snd entry)
            <> length (query_embedding embeddings_create svc q))
    (embeddings (vectorStore svc)) ->
  (num_or (opt_minScore options) 0.3 <=? 0) = false ->
  fst (retrieve embeddings_create svc q options) = []
  /\ chunksRetrieved (snd (retrieve embeddings_create svc q options)) = 0%nat.
Proof.
  intros Hdim Hmin. apply retrieve_nothing. intros entry Hin.
  rewrite Forall_forall in Hdim. specialize (Hdim entry Hin).
  unfold cosineSimilarity.
  replace (length (query_embedding embeddings_create svc q) =? length (snd entry))%nat
    with false; [exact Hmin|].
  symmetry. apply Nat.eqb_neq. congruence.
Qed.

Lemma dot_stays_nan l : forall na nb,
  fst (fst (fold_left sums_step l (nan, na, nb))) = nan.
Proof.
  induction l as [|[x y] l IH]; intros na nb; [reflexivity|].
  cbn [fold_left sums_step]. rewrite nan_add_l. apply IH.
Qed.

Lemma cosineSimilarity_nan n emb :
  length emb = S n -> cosineSimilarity (repeat nan (S n)) emb = nan.
Proof.
  intros Hlen. unfold cosineSimilarity.
  rewrite repeat_length, Hlen, Nat.eqb_refl. cbn [negb].
  rewrite cosine_sums_step.
  destruct emb as [|y emb]; [discriminate|].
  cbn [repeat combine fold_left sums_step].
  rewrite nan_mul_l, nan_add_r.
  pose proof (dot_stays_nan (combine (repeat nan n) emb) (0 + nan * nan) (0 + y * y)) as H.
  destruct (fold_left sums_step _ _) as [[d na] nb]. cbn [fst] in H. subst d.
  apply nan_div_l.
Qed.

(** X7.  With the embeddings call failing, the empty query is embedded as a
    vector of [NaN]: every stored vector scores [NaN], or 0 when it has
    another dimension, and with a positive threshold nothing is
    retrieved, whatever the index holds. *)
Theorem retrieve_empty_query_without_provider svc options message :
  embeddings_create (embeddingModel svc) [] = Thrown message ->
  (num_or (opt_minScore options) 0.3 <=? 0) = false ->
  fst (retrieve embeddings_create svc [] options) = []
  /\ chunksRetrieved (snd (retrieve embeddings_create svc [] options)) = 0%nat.
Proof.
  intros Hdown Hmin. apply retrieve_nothing. intros entry Hin.
  unfold query_embedding. rewrite Hdown.
  rewrite mock_embedding_empty.
  destruct (Nat.eq_dec (length (snd entry)) 1536) as [Heq|Hne].
  - change 1536%nat with (S 1535) in *. rewrite cosineSimilarity_nan by exact Heq.
    apply leb_nan_r.
  - unfold cosineSimilarity. rewrite repeat_length.
    replace (1536 =? length (snd entry))%nat with false; [exact Hmin|].
    symmetry. apply Nat.eqb_neq. congruence.
Qed.

End Retrieval.

End RetrieveEdgeSpec.

(* ================================================================== *)
(** * Part XI.  Passages: spans, ids, headings and categories *)
(* ================================================================== *)

Module ChunkSpec.
Import JS Rag ChunkerSpec StoreSpec.
#[local] Open Scope Z_scope.

(** ** Slices *)

Lemma slice_firstn_skipn {A} (l : list A) i j :
  0 <= i <= j -> j <= Z.of_nat (length l) ->
  slice l i j = firstn (Z.to_nat (j - i)) (skipn (Z.to_nat i) l).
Proof.
  intros Hi Hj. unfold slice, clamp_index.
  replace (i <? 0) with false by (symmetry; apply Z.ltb_ge; lia).
  replace (j <? 0) with false by (symmetry; apply Z.ltb_ge; lia).
  now rewrite !Z.min_l by lia.
Qed.

Lemma slice_length {A} (l : list A) i j :
  0 <= i <= j -> j <= Z.of_nat (length l) ->
  Z.of_nat (length (slice l i j)) = j - i.
Proof.
  intros Hi Hj. rewrite slice_firstn_skipn by lia.
  rewrite length_firstn, length_skipn. lia.
Qed.

Lemma slice_whole {A} (l : list A) : slice l 0 (Z.of_nat (length l)) = l.
Proof.
  rewrite slice_firstn_skipn by lia. rewrite Z.sub_0_r, Nat2Z.id. simpl.
  apply firstn_all.
Qed.

Lemma slice_inside {A} (a s b : list A) i j :
  0 <= i <= j -> j <= Z.of_nat (length s) ->
  slice (a ++ s ++ b) (Z.of_nat (length a) + i) (Z.of_nat (length a) + j)
  = slice s i j.
Proof.
  intros Hi Hj.
  rewrite !slice_firstn_skipn by (rewrite ?length_app; lia).
  replace (Z.of_nat (length a) + j - (Z.of_nat (length a) + i)) with (j - i) by lia.
  replace (Z.to_nat (Z.of_nat (length a) + i)) with (length a + Z.to_nat i)%nat by lia.
  rewrite skipn_app, skipn_all2 by lia.
  replace (length a + Z.to_nat i - length a)%nat with (Z.to_nat i) by lia.
  cbn [app]. rewrite skipn_app, firstn_app, length_skipn.
  replace (Z.to_nat (j - i) - (length s - Z.to_nat i))%nat with O by lia.
  cbn [firstn]. now rewrite app_nil_r.
Qed.

(** ** Passage ids *)

Lemma lit_injective s t : lit s = lit t -> s = t.
Proof.
  unfold lit. intros H.
  rewrite <- (string_of_list_ascii_of_string s), <- (string_of_list_ascii_of_string t).
  f_equal. revert H. generalize (list_ascii_of_string s) (list_ascii_of_string t).
  induction l as [|a l IH]; intros [|b l']; simpl; intros H; try discriminate;
    [reflexivity|].
  injection H as H1 H2. f_equal; [|now apply IH].
  rewrite <- (ascii_N_embedding a), <- (ascii_N_embedding b). now f_equal.
Qed.

Lemma decimal_injective n m : decimal n = decimal m -> n = m.
Proof.
  unfold decimal. intros H. apply lit_injective in H.
  apply (f_equal NilEmpty.uint_of_string) in H. rewrite !NilEmpty.usu in H.
  injection H as H. apply (f_equal Nat.of_uint) in H.
  now rewrite !Unsigned.of_to in H.
Qed.

Lemma chunk_id_injective src n m : chunk_id src n = chunk_id src m -> n = m.
Proof.
  unfold chunk_id. intros H. apply app_inv_head in H. apply app_inv_head in H.
  now apply decimal_injective.
Qed.

Lemma NoDup_map_injective {A B} (f : A -> B) l :
  (forall x y, f x = f y -> x = y) -> NoDup l -> NoDup (map f l).
Proof.
  intros Hf. induction 1 as [|x l Hx _ IH]; simpl; constructor; [|exact IH].
  rewrite in_map_iff. intros [y [Hy Hin]]. apply Hf in Hy. now subst.
Qed.

(** ** The passages of one segment, and of all of them *)

Section Chunks.
Variable extractHeading : jsstring -> jsstring.
Variable classifyClauseType : jsstring -> jsstring.
Variables chunkSize chunkOverlap : Z.
Variable src : jsstring.

#[local] Abbreviation step := (chunkSize - chunkOverlap).

(** What the body of the [for] loop appends for [segment], when the
    array holds [n] passages. *)
Definition pieces_of (segment : jsstring) (charOffset : Z) (n : nat)
    : list DocumentChunk :=
  if len segment <=? chunkSize then
    [make_chunk extractHeading classifyClauseType src n segment
       charOffset (charOffset + len segment)]
  else
    windows_from extractHeading classifyClauseType chunkSize chunkOverlap
      src segment charOffset (window_count chunkSize chunkOverlap segment) 0 n.

Fixpoint pieces_from (segments : list jsstring) (charOffset : Z) (n : nat)
    : list DocumentChunk :=
  match segments with
  | [] => []
  | segment :: rest =>
      pieces_of segment charOffset n
      ++ pieces_from rest (charOffset + len segment)
           (n + length (pieces_of segment charOffset n))
  end.

Lemma window_count_le segment :
  0 < step -> (window_count chunkSize chunkOverlap segment <= length segment)%nat.
Proof.
  intros Hstep. unfold window_count, len.
  set (L := Z.of_nat (length segment)).
  assert (HL : 0 <= L) by lia.
  enough ((L + step - 1) / step <= L) by lia.
  destruct (Z.eq_dec L 0) as [->|Hne].
  - rewrite Z.div_small; lia.
  - apply Z.div_le_upper_bound; [lia|]. nia.
Qed.

Lemma chunk_segments_runs fuel segments : forall charOffset chunks,
  0 < step ->
  Forall (fun segment => (length segment < fuel)%nat) segments ->
  chunk_segments extractHeading classifyClauseType chunkSize chunkOverlap
    fuel src segments charOffset chunks
  = Some (chunks ++ pieces_from segments charOffset (length chunks)).
Proof.
  induction segments as [|segment rest IH]; intros charOffset chunks Hstep Hfuel;
    cbn [chunk_segments pieces_from].
  - now rewrite app_nil_r.
  - inversion Hfuel as [|? ? Hseg Hrest]; subst.
    assert (Hafter :
      (if len segment <=? chunkSize
       then Some (chunks ++ [make_chunk extractHeading classifyClauseType src
                               (length chunks) segment charOffset
                               (charOffset + len segment)])
       else window_loop extractHeading classifyClauseType chunkSize chunkOverlap
              fuel src segment charOffset 0 chunks)
      = Some (chunks ++ pieces_of segment charOffset (length chunks))).
    { unfold pieces_of. destruct (len segment <=? chunkSize); [reflexivity|].
      pose proof (window_count_le segment Hstep).
      destruct (window_count_spec chunkSize chunkOverlap segment Hstep)
        as [Hend Hlast]; [unfold len; lia|].
      apply window_loop_runs; try lia. }
    rewrite Hafter, IH by assumption.
    rewrite length_app, <- app_assoc. reflexivity.
Qed.

Lemma pieces_of_window segment charOffset n i c :
  0 < step -> chunkSize < len segment ->
  nth_error (pieces_of segment charOffset n) i = Some c ->
  Z.of_nat i * step < len segment
  /\ c = window extractHeading classifyClauseType chunkSize src segment
           charOffset (n + i) (Z.of_nat i * step).
Proof.
  intros Hstep E H. unfold pieces_of in H.
  replace (len segment <=? chunkSize) with false in H
    by (symmetry; apply Z.leb_gt; lia).
  assert (Hi : (i < window_count chunkSize chunkOverlap segment)%nat).
  { assert (Hsome : nth_error
              (windows_from extractHeading classifyClauseType chunkSize
                 chunkOverlap src segment charOffset
                 (window_count chunkSize chunkOverlap segment) 0 n) i <> None)
      by (rewrite H; discriminate).
    apply nth_error_Some in Hsome. now rewrite windows_from_length in Hsome. }
  apply windows_from_nth in H. rewrite Z.add_0_l in H.
  destruct (window_count_spec chunkSize chunkOverlap segment Hstep)
    as [Hend Hlast]; [unfold len; lia|].
  destruct Hlast as [H0|Hlast]; [lia|].
  split; [nia|exact H].
Qed.

Lemma pieces_of_id segment charOffset n i c :
  0 < step ->
  nth_error (pieces_of segment charOffset n) i = Some c ->
  id c = chunk_id src (n + i).
Proof.
  intros Hstep H. destruct (Z.leb_spec (len segment) chunkSize) as [E|E].
  - unfold pieces_of in H.
    replace (len segment <=? chunkSize) with true in H
      by (symmetry; apply Z.leb_le; lia).
    destruct i as [|i]; simpl in H; [|now destruct i].
    injection H as <-. now rewrite Nat.add_0_r.
  - destruct (pieces_of_window _ _ _ _ _ Hstep E H) as [_ ->]. reflexivity.
Qed.

Lemma pieces_from_id segments : forall charOffset n i c,
  0 < step ->
  nth_error (pieces_from segments charOffset n) i = Some c ->
  id c = chunk_id src (n + i).
Proof.
  induction segments as [|segment rest IH]; intros charOffset n i c Hstep H;
    cbn [pieces_from] in H.
  - now destruct i.
  - destruct (Nat.lt_ge_cases i (length (pieces_of segment charOffset n))) as [Hi|Hi].
    + rewrite nth_error_app1 in H by exact Hi. now apply pieces_of_id in H.
    + rewrite nth_error_app2 in H by exact Hi. apply IH in H; [|exact Hstep].
      rewrite H. f_equal. lia.
Qed.

(** The facts about one passage that the chunker establishes, relative
    to the segment it was cut from. *)
Definition cut_from (segment : jsstring) (charOffset : Z)
    (c : DocumentChunk) : Prop :=
  exists first last n,
    0 <= first <= last /\ last <= len segment /\ last - first <= chunkSize
    /\ c = make_chunk extractHeading classifyClauseType src n
             (slice segment first last) (charOffset + first) (charOffset + last).

Lemma pieces_of_cut segment charOffset n c :
  0 < chunkSize -> 0 < step ->
  In c (pieces_of segment charOffset n) ->
  cut_from segment charOffset c.
Proof.
  intros Hsize Hstep Hin.
  destruct (Z.leb_spec (len segment) chunkSize) as [E|E].
  - unfold pieces_of in Hin.
    replace (len segment <=? chunkSize) with true in Hin
      by (symmetry; apply Z.leb_le; lia).
    destruct Hin as [<-|[]]. exists 0, (len segment), n. unfold len in *.
    rewrite slice_whole, Z.add_0_r. repeat split; lia.
  - apply In_nth_error in Hin. destruct Hin as [i Hi].
    destruct (pieces_of_window _ _ _ _ _ Hstep E Hi) as [Hstart ->].
    exists (Z.of_nat i * step),
      (Z.min (Z.of_nat i * step + chunkSize) (len segment)), (n + i)%nat.
    repeat split; try lia; nia.
Qed.

Lemma pieces_from_cut segments : forall charOffset n c,
  0 < chunkSize -> 0 < step ->
  In c (pieces_from segments charOffset n) ->
  exists before segment rest,
    segments = before ++ segment :: rest
    /\ cut_from segment (charOffset + len (concat before)) c.
Proof.
  induction segments as [|segment rest IH]; intros charOffset n c Hsize Hstep Hin;
    cbn [pieces_from] in Hin; [contradiction|].
  apply in_app_or in Hin. destruct Hin as [Hin|Hin].
  - exists [], segment, rest. split; [reflexivity|].
    unfold len at 1. cbn [concat length]. rewrite Z.add_0_r.
    now apply pieces_of_cut in Hin.
  - destruct (IH _ _ _ Hsize Hstep Hin) as [before [seg [rest' [-> Hcut]]]].
    exists (segment :: before), seg, rest'. split; [reflexivity|].
    replace (charOffset + len (concat (segment :: before)))
      with (charOffset + len segment + len (concat before)); [exact Hcut|].
    unfold len. cbn [concat]. rewrite length_app. lia.
Qed.

Lemma pieces_of_cover segment charOffset n p :
  0 <= chunkOverlap -> 0 < step ->
  charOffset <= p < charOffset + len segment ->
  exists c, In c (pieces_of segment charOffset n)
            /\ charStart (metadata c) <= p < charEnd (metadata c).
Proof.
  intros Hover Hstep Hp. destruct (Z.leb_spec (len segment) chunkSize) as [E|E].
  - unfold pieces_of.
    replace (len segment <=? chunkSize) with true
      by (symmetry; apply Z.leb_le; lia).
    eexists. split; [now left|]. simpl. lia.
  - set (i := Z.to_nat ((p - charOffset) / step)).
    assert (Hdiv : Z.of_nat i = (p - charOffset) / step).
    { unfold i. rewrite Z2Nat.id; [reflexivity|]. apply Z.div_pos; lia. }
    pose proof (Z.mul_div_le (p - charOffset) step Hstep) as Hlow.
    pose proof (Z.mul_succ_div_gt (p - charOffset) step Hstep) as Hhigh.
    rewrite <- Hdiv in Hlow, Hhigh.
    destruct (window_count_spec chunkSize chunkOverlap segment Hstep)
      as [Hend _]; [unfold len; lia|].
    assert (Hi : (i < window_count chunkSize chunkOverlap segment)%nat) by nia.
    destruct (nth_error (pieces_of segment charOffset n) i) as [c|] eqn:Hnth.
    + exists c. split; [now apply nth_error_In in Hnth|].
      destruct (pieces_of_window _ _ _ _ _ Hstep E Hnth) as [Hstart ->].
      unfold window. simpl. lia.
    + apply nth_error_None in Hnth. unfold pieces_of in Hnth.
      replace (len segment <=? chunkSize) with false in Hnth
        by (symmetry; apply Z.leb_gt; lia).
      rewrite windows_from_length in Hnth. lia.
Qed.

Lemma pieces_from_cover segments : forall charOffset n p,
  0 <= chunkOverlap -> 0 < step ->
  charOffset <= p < charOffset + len (concat segments) ->
  exists c, In c (pieces_from segments charOffset n)
            /\ charStart (metadata c) <= p < charEnd (metadata c).
Proof.
  induction segments as [|segment rest IH]; intros charOffset n p Hover Hstep Hp;
    cbn [pieces_from concat] in *.
  - unfold len in Hp. simpl in Hp. lia.
  - unfold len in Hp. rewrite length_app in Hp.
    destruct (Z.lt_ge_cases p (charOffset + len segment)) as [Hin|Hout].
    + destruct (pieces_of_cover segment charOffset n p Hover Hstep) as [c [Hc Hspan]];
        [lia|].
      exists c. split; [apply in_or_app; now left|exact Hspan].
    + destruct (IH (charOffset + len segment)
                  (n + length (pieces_of segment charOffset n))%nat p Hover Hstep)
        as [c [Hc Hspan]]; [unfold len in *; lia|].
      exists c. split; [apply in_or_app; now right|exact Hspan].
Qed.

Lemma pieces_ids segments :
  0 < step ->
  let chunks := pieces_from segments 0 0 in
  map id chunks = map (chunk_id src) (seq 0 (length chunks))
  /\ NoDup (map id chunks).
Proof.
  intros Hstep chunks.
  assert (Hids : map id chunks = map (chunk_id src) (seq 0 (length chunks))).
  { apply nth_error_ext. intros i.
    rewrite !nth_error_map.
    destruct (nth_error chunks i) as [c|] eqn:Hc.
    - assert (Hi : (i < length chunks)%nat)
        by (apply nth_error_Some; rewrite Hc; discriminate).
      rewrite nth_error_seq. replace (i <? length chunks)%nat with true
        by (symmetry; apply Nat.ltb_lt; exact Hi).
      cbn [option_map]. f_equal.
      apply (pieces_from_id segments 0 0%nat i c); [lia|exact Hc].
    - apply nth_error_None in Hc. rewrite nth_error_seq.
      replace (i <? length chunks)%nat with false
        by (symmetry; apply Nat.ltb_ge; exact Hc).
      reflexivity. }
  split; [exact Hids|]. rewrite Hids.
  apply NoDup_map_injective; [|apply seq_NoDup].
  intros n m. apply chunk_id_injective.
Qed.

Lemma createChunks_runs fuel segments :
  0 < step ->
  Forall (fun segment => (length segment < fuel)%nat) segments ->
  createChunks extractHeading classifyClauseType chunkSize chunkOverlap
    fuel segments src = Some (pieces_from segments 0 0).
Proof.
  intros Hstep Hfuel. unfold createChunks.
  now rewrite chunk_segments_runs by assumption.
Qed.

(** X8.  The ids of the passages of one document are the source followed by
    [-0], [-1], [-2], ... in the order of the passages, and no two are
    equal.  (The window advance must be positive for the chunker to
    return at all.) *)
Theorem createChunks_ids fuel segments :
  chunkOverlap < chunkSize ->
  Forall (fun segment => (length segment < fuel)%nat) segments ->
  exists chunks,
    createChunks extractHeading classifyClauseType chunkSize chunkOverlap
      fuel segments src = Some chunks
    /\ map id chunks = map (chunk_id src) (seq 0 (length chunks))
    /\ NoDup (map id chunks).
Proof.
  intros Hstep Hfuel. exists (pieces_from segments 0 0).
  split; [apply createChunks_runs; [lia|exact Hfuel]|].
  apply pieces_ids. lia.
Qed.

(** X9.  Every passage is the piece of the concatenated segments between its
    [charStart] and its [charEnd], which lie in that order within the
    concatenation; it is no longer than the window, carries the source,
    the heading and the category of its own text, and no vector yet. *)
Theorem createChunks_spans fuel segments :
  0 < chunkSize -> chunkOverlap < chunkSize ->
  Forall (fun segment => (length segment < fuel)%nat) segments ->
  exists chunks,
    createChunks extractHeading classifyClauseType chunkSize chunkOverlap
      fuel segments src = Some chunks
    /\ Forall
         (fun c =>
            let m := metadata c in
            0 <= charStart m <= charEnd m
            /\ charEnd m <= len (concat segments)
            /\ content c = slice (concat segments) (charStart m) (charEnd m)
            /\ len (content c) = charEnd m - charStart m
            /\ len (content c) <= chunkSize
            /\ source m = src
            /\ heading m = Some (extractHeading (content c))
            /\ clauseType m = Some (classifyClauseType (content c))
            /\ page m = None
            /\ embedding c = None)
         chunks.
Proof.
  intros Hsize Hstep Hfuel. unfold createChunks.
  rewrite chunk_segments_runs by (assumption || lia). cbn [app length].
  eexists. split; [reflexivity|].
  apply Forall_forall. intros c Hc.
  destruct (pieces_from_cut segments 0 0%nat c Hsize ltac:(lia) Hc)
    as [before [segment [rest [-> [first [last [n [Hfl [Hlast [Hlen ->]]]]]]]]]].
  cbv zeta. cbn [make_chunk metadata content charStart charEnd source heading
                 clauseType page embedding].
  rewrite Z.add_0_l.
  assert (Hcat : concat (before ++ segment :: rest)
                 = concat before ++ segment ++ concat rest).
  { rewrite concat_app. reflexivity. }
  rewrite Hcat. unfold len in *.
  rewrite slice_inside by lia. rewrite slice_length by lia.
  rewrite !length_app.
  repeat split; lia.
Qed.

(** X10.  With an overlap that is not negative no text is lost: every position
    of the concatenated segments lies in the span of some passage. *)
Theorem createChunks_covers fuel segments :
  0 <= chunkOverlap < chunkSize ->
  Forall (fun segment => (length segment < fuel)%nat) segments ->
  exists chunks,
    createChunks extractHeading classifyClauseType chunkSize chunkOverlap
      fuel segments src = Some chunks
    /\ forall p, 0 <= p < len (concat segments) ->
         exists c, In c chunks
                   /\ charStart (metadata c) <= p < charEnd (metadata c).
Proof.
  intros Hover Hfuel. unfold createChunks.
  rewrite chunk_segments_runs by (assumption || lia). cbn [app length].
  eexists. split; [reflexivity|].
  intros p Hp. apply pieces_from_cover; lia.
Qed.

Lemma chunk_segments_stuck fuel segments : forall charOffset chunks segment,
  step <= 0 ->
  In segment segments -> chunkSize < len segment -> 0 < len segment ->
  chunk_segments extractHeading classifyClauseType chunkSize chunkOverlap
    fuel src segments charOffset chunks = None.
Proof.
  induction segments as [|seg rest IH]; intros charOffset chunks segment
    Hstep Hin Hlong Hpos; [contradiction|].
  cbn [chunk_segments].
  destruct (Z.leb_spec (len seg) chunkSize) as [E|E].
  - destruct Hin as [->|Hin]; [lia|]. now apply (IH _ _ segment).
  - destruct (Z.lt_ge_cases 0 (len seg)) as [Hseg|Hseg].
    + rewrite window_loop_never_returns by lia. reflexivity.
    + destruct Hin as [->|Hin]; [lia|].
      destruct fuel as [|fuel']; [reflexivity|]. cbn [window_loop].
      replace (0 <? len seg) with false by (symmetry; apply Z.ltb_ge; lia).
      now apply (IH _ _ segment).
Qed.

(** With an overlap as large as the window, or larger, the chunker never
    returns once a segment is longer than the window. *)
Lemma createChunks_stuck segments segment :
  chunkSize <= chunkOverlap ->
  In segment segments -> chunkSize < len segment -> segment <> [] ->
  forall fuel,
    createChunks extractHeading classifyClauseType chunkSize chunkOverlap
      fuel segments src = None.
Proof.
  intros Hstep Hin Hlong Hne fuel. unfold createChunks.
  apply (chunk_segments_stuck fuel segments 0 [] segment); try assumption; [lia|].
  unfold len. destruct segment; [contradiction|simpl; lia].
Qed.

End Chunks.

End ChunkSpec.

Module LabelSpec.
Import JS Rag StoreSpec.

(** ** [trim] *)

Lemma drop_while_snoc p l c :
  p c = false -> drop_while p (l ++ [c]) = drop_while p l ++ [c].
Proof.
  intros Hc. induction l as [|x l IH]; simpl; [now rewrite Hc|].
  destruct (p x); [exact IH|reflexivity].
Qed.

Lemma drop_while_idempotent p l :
  drop_while p (drop_while p l) = drop_while p l.
Proof.
  induction l as [|x l IH]; simpl; [reflexivity|].
  destruct (p x) eqn:E; [exact IH|]. simpl. now rewrite E.
Qed.

Lemma drop_while_In p l x : In x (drop_while p l) -> In x l.
Proof.
  induction l as [|y l IH]; simpl; [tauto|].
  destruct (p y); [right; now apply IH|auto].
Qed.

(** Trimming a string that starts with a character that is not white
    space keeps that character and removes the white space at the end. *)
Lemma trim_cons c t :
  is_space c = false ->
  trim (c :: t) = c :: rev (drop_while is_space (rev t)).
Proof.
  intros Hc. unfold trim. cbn [drop_while]. rewrite Hc. cbn [rev].
  rewrite drop_while_snoc by exact Hc. rewrite rev_app_distr. reflexivity.
Qed.

Lemma trim_cons_fixed c t :
  is_space c = false -> trim (trim (c :: t)) = trim (c :: t).
Proof.
  intros Hc. rewrite (trim_cons c t Hc).
  rewrite trim_cons by exact Hc. now rewrite rev_involutive, drop_while_idempotent.
Qed.

(** ** [extractHeading] *)

Ltac decide_comparisons :=
  repeat match goal with
  | |- context [(?a <=? ?b)%N] =>
      first [ replace (a <=? b)%N with true by (symmetry; apply N.leb_le; lia)
            | replace (a <=? b)%N with false by (symmetry; apply N.leb_gt; lia) ]
  | |- context [(?a =? ?b)%N] =>
      first [ replace (a =? b)%N with true by (symmetry; apply N.eqb_eq; lia)
            | replace (a =? b)%N with false by (symmetry; apply N.eqb_neq; lia) ]
  end.

Lemma upper_not_space c : is_upper c = true -> is_space c = false.
Proof.
  unfold is_upper, is_space. intros H. apply andb_true_iff in H.
  destruct H as [H1 H2]. apply N.leb_le in H1, H2.
  decide_comparisons. reflexivity.
Qed.

Lemma upper_heading_unit c : is_upper c = true -> is_heading_unit c = true.
Proof. unfold is_heading_unit. now intros ->. Qed.

Lemma take_while_all p s : Forall (fun c => p c = true) (take_while p s).
Proof.
  induction s as [|c s IH]; simpl; [constructor|].
  destruct (p c) eqn:E; constructor; assumption.
Qed.

Lemma heading_group_shape s g :
  heading_group s = Some g ->
  exists c t, g = c :: t /\ is_upper c = true /\ t <> []
              /\ Forall (fun x => is_heading_unit x = true) t.
Proof.
  unfold heading_group. destruct s as [|c r]; [discriminate|].
  destruct (is_upper c) eqn:Hc; [|discriminate].
  pose proof (take_while_all is_heading_unit r) as Hall.
  destruct (take_while is_heading_unit r) as [|x t]; [discriminate|].
  intros H. injection H as <-. exists c, (x :: t). repeat split; auto. discriminate.
Qed.

Lemma heading_match_shape content g :
  heading_match content = Some g ->
  exists c t, g = c :: t /\ is_upper c = true /\ t <> []
              /\ Forall (fun x => is_heading_unit x = true) t.
Proof.
  unfold heading_match.
  destruct (heading_keyword_rest content) as [rest|].
  - destruct (heading_group (skip_number rest)) as [g'|] eqn:E.
    + intros H. injection H as <-. now apply heading_group_shape in E.
    + apply heading_group_shape.
  - apply heading_group_shape.
Qed.

(** X11.  The heading of every text is a word in capitals-first form: it
    starts with a capital letter, consists of letters, white space and
    [&] only, and has no white space at either end.  It is never empty;
    a text without such a start is headed [Unnamed Section]. *)
Theorem extractHeading_shape content :
  let h := extractHeading content in
  starts_with is_upper h = true
  /\ Forall (fun c => is_heading_unit c = true) h
  /\ trim h = h
  /\ h <> []
  /\ (heading_match content = None -> h = lit "Unnamed Section").
Proof.
  cbv zeta. unfold extractHeading.
  destruct (heading_match content) as [g|] eqn:E.
  - destruct (heading_match_shape content g E) as [c [t [-> [Hc [_ Ht]]]]].
    pose proof (upper_not_space c Hc) as Hs.
    rewrite trim_cons_fixed by exact Hs. rewrite trim_cons by exact Hs.
    cbn [starts_with]. repeat split; try assumption; try discriminate.
    constructor; [now apply upper_heading_unit|].
    apply Forall_forall. intros x Hx. rewrite <- in_rev in Hx.
    apply drop_while_In in Hx. rewrite <- in_rev in Hx.
    rewrite Forall_forall in Ht. now apply Ht.
  - repeat split; try reflexivity; try discriminate.
    repeat constructor.
Qed.

(** ** [classifyClauseType] *)

Section Categories.
Variable toLowerCase : jsstring -> jsstring.

Definition categories : list jsstring :=
  [ lit "indemnification"; lit "liability"; lit "termination";
    lit "confidentiality"; lit "intellectual_property"; lit "payment";
    lit "data_protection"; lit "governing_law"; lit "force_majeure";
    lit "warranty"; lit "general" ].

Lemma table_categories entry :
  In entry clausePatterns ->
  In (fst entry) categories /\ fst entry <> lit "general".
Proof.
  unfold clausePatterns. intros H.
  repeat (destruct H as [<-|H]; [split; [cbn [fst categories In]; tauto|discriminate]|]).
  contradiction.
Qed.

(** X12.  The category of every text is one of the ten of the table or
    [general], and it is [general] exactly when no word of the table
    occurs in the lower-cased text. *)
Theorem classifyClauseType_categories content :
  In (classifyClauseType toLowerCase content) categories
  /\ (classifyClauseType toLowerCase content = lit "general"
      <-> forall entry word,
            In entry clausePatterns -> In word (snd entry) ->
            includes word (toLowerCase content) = false).
Proof.
  unfold classifyClauseType.
  destruct (find (fun entry => test (snd entry) (toLowerCase content)) clausePatterns)
    as [entry|] eqn:E.
  - apply find_some in E. destruct E as [Hin Htest].
    destruct (table_categories entry Hin) as [Hcat Hne].
    split; [exact Hcat|]. split; [contradiction|].
    intros Hnone. unfold test in Htest. apply existsb_exists in Htest.
    destruct Htest as [word [Hword Hinc]].
    rewrite (Hnone entry word Hin Hword) in Hinc. discriminate.
  - split; [cbn [categories In]; tauto|]. split; [|reflexivity].
    intros _ entry word Hin Hword.
    pose proof (find_none _ _ E entry Hin) as Htest. cbn beta in Htest.
    unfold test in Htest.
    destruct (includes word (toLowerCase content)) eqn:Hinc; [|reflexivity].
    assert (existsb (fun w => includes w (toLowerCase content)) (snd entry) = true)
      by (apply existsb_exists; eauto).
    congruence.
Qed.

End Categories.

End LabelSpec.

(* ================================================================== *)
(** * Part XII.  Batched embedding and ingestion *)
(* ================================================================== *)

Module EmbedSpec.
Import JS Rag StoreSpec.

(** [c'] is [c] with a vector. *)
Definition embedded (c c' : DocumentChunk) : Prop :=
  exists e, c' = with_embedding c e.

Lemma embedded_fields c c' :
  embedded c c' ->
  id c' = id c /\ content c' = content c /\ metadata c' = metadata c
  /\ embedding c' <> None.
Proof. intros [e ->]. repeat split. discriminate. Qed.

Lemma attach_spec batch : forall data,
  Forall2 embedded (firstn (length data) batch) (fst (attach batch data))
  /\ snd (attach batch data) = (length data <? length batch)%nat
  /\ fst (attach batch data)
     = map (fun p => with_embedding (fst p) (snd p)) (combine batch data).
Proof.
  induction batch as [|c batch IH]; intros [|e data]; cbn [attach length firstn combine map].
  - repeat split; constructor.
  - repeat split; constructor.
  - repeat split; constructor.
  - destruct (IH data) as [H1 [H2 H3]].
    destruct (attach batch data) as [pushed threw]. cbn [fst snd] in *.
    repeat split.
    + constructor; [now exists e|exact H1].
    + exact H2.
    + now rewrite H3.
Qed.

Lemma mock_embedded_all batch : Forall2 embedded batch (map mock_embedded batch).
Proof.
  induction batch as [|c batch IH]; simpl; constructor; [|exact IH].
  now exists (generateMockEmbedding (content c)).
Qed.

Lemma Forall2_In_l {A B} (R : A -> B -> Prop) l l' x :
  Forall2 R l l' -> In x l -> exists y, In y l' /\ R x y.
Proof.
  induction 1 as [|x' y l l' HR _ IH]; simpl; [tauto|].
  intros [->|H]; [exists y; auto|].
  destruct (IH H) as [y' [Hy' HR']]. exists y'. auto.
Qed.

(** What a run of the loop appends for the passages [rest]: vectors for
    all of them, and nothing that is not one of them. *)
Definition covers (rest new : list DocumentChunk) : Prop :=
  Forall (fun c' => exists c, In c rest /\ embedded c c') new
  /\ (forall c, In c rest -> exists c', In c' new /\ embedded c c')
  /\ length rest <= length new.

Lemma Forall2_covers rest new : Forall2 embedded rest new -> covers rest new.
Proof.
  intros H. repeat split.
  - apply Forall_forall. intros c' Hc'.
    destruct (Forall2_In_r _ _ _ _ H Hc') as [c [Hc He]]. eauto.
  - intros c Hc. now apply (Forall2_In_l _ _ _ _ H).
  - now rewrite (Forall2_length H).
Qed.

Lemma covers_app a b new1 new2 :
  covers a new1 -> covers b new2 -> covers (a ++ b) (new1 ++ new2).
Proof.
  intros [F1 [C1 L1]] [F2 [C2 L2]]. repeat split.
  - apply Forall_app. split; eapply Forall_impl; eauto; cbn beta;
      intros c' [c [Hc He]]; exists c; (split; [apply in_or_app; auto|exact He]).
  - intros c Hc. apply in_app_or in Hc. destruct Hc as [Hc|Hc].
    + destruct (C1 c Hc) as [c' [Hc' He]]. exists c'. split; [apply in_or_app; auto|exact He].
    + destruct (C2 c Hc) as [c' [Hc' He]]. exists c'. split; [apply in_or_app; auto|exact He].
  - rewrite !length_app. lia.
Qed.

Lemma covers_more rest extra new :
  Forall (fun c' => exists c, In c rest /\ embedded c c') extra ->
  covers rest new -> covers rest (extra ++ new).
Proof.
  intros Hextra [F [C L]]. repeat split.
  - apply Forall_app. auto.
  - intros c Hc. destruct (C c Hc) as [c' [Hc' He]].
    exists c'. split; [apply in_or_app; auto|exact He].
  - rewrite length_app. lia.
Qed.

Section Provider.
Variable embeddings_create_batch :
  jsstring -> list jsstring -> outcome (list (list float)).

Abbreviation embed_batch' := (embed_batch embeddings_create_batch).
Abbreviation batch_loop' := (batch_loop embeddings_create_batch).
Abbreviation batchEmbed' := (batchEmbed embeddings_create_batch).

Lemma embed_batch_covers svc results batch :
  exists new, embed_batch' svc results batch = results ++ new /\ covers batch new.
Proof.
  unfold embed_batch.
  destruct (embeddings_create_batch (embeddingModel svc) (map content batch))
    as [data|message].
  - destruct (attach_spec batch data) as [H1 [H2 _]].
    destruct (attach batch data) as [pushed threw]. cbn [fst snd] in *.
    destruct threw.
    + exists (pushed ++ map mock_embedded batch). split; [reflexivity|].
      apply covers_more; [|apply Forall2_covers, mock_embedded_all].
      apply Forall_forall. intros c' Hc'.
      destruct (Forall2_In_r _ _ _ _ H1 Hc') as [c [Hc He]].
      exists c. split; [now apply In_firstn in Hc|exact He].
    + exists pushed. split; [reflexivity|]. apply Forall2_covers.
      symmetry in H2. apply Nat.ltb_ge in H2.
      now rewrite firstn_all2 in H1 by exact H2.
  - exists (map mock_embedded batch). split; [reflexivity|].
    apply Forall2_covers, mock_embedded_all.
Qed.

Lemma skipn_shorter {A} (l : list A) turns :
  l <> [] -> length l <= S turns -> length (skipn BATCH_SIZE l) <= turns.
Proof.
  intros Hne Hlen. rewrite length_skipn. unfold BATCH_SIZE.
  destruct l; [contradiction|simpl in *; lia].
Qed.

Lemma batch_loop_step svc turns rest results :
  rest <> [] ->
  batch_loop' (S turns) svc rest results
  = batch_loop' turns svc (skipn BATCH_SIZE rest)
      (embed_batch' svc results (firstn BATCH_SIZE rest)).
Proof. destruct rest; [contradiction|reflexivity]. Qed.

Lemma batch_loop_done svc turns results :
  batch_loop' turns svc [] results = results.
Proof. now destruct turns. Qed.

Lemma batch_loop_covers svc turns : forall rest results,
  length rest <= turns ->
  exists new,
    batch_loop' turns svc rest results = results ++ new /\ covers rest new.
Proof.
  induction turns as [|turns IH]; intros rest results Hlen.
  - destruct rest; [|simpl in Hlen; lia].
    exists []. rewrite app_nil_r. split; [reflexivity|].
    repeat split; [constructor|intros ? []|lia].
  - destruct rest as [|c rest'].
    + exists []. rewrite app_nil_r, batch_loop_done. split; [reflexivity|].
      repeat split; [constructor|intros ? []|lia].
    + set (rest := c :: rest') in *.
      assert (Hne : rest <> []) by (unfold rest; discriminate).
      rewrite batch_loop_step by exact Hne.
      destruct (embed_batch_covers svc results (firstn BATCH_SIZE rest))
        as [new1 [E1 C1]].
      destruct (IH (skipn BATCH_SIZE rest) (results ++ new1)) as [new2 [E2 C2]].
      { now apply skipn_shorter. }
      exists (new1 ++ new2). rewrite E1, E2, app_assoc. split; [reflexivity|].
      rewrite <- (firstn_skipn BATCH_SIZE rest) at 1. now apply covers_app.
Qed.

(** The provider answers in full for [svc] when every answer has a vector
    for every text. *)
Definition answers_in_full (svc : Service) : Prop :=
  forall texts data,
    embeddings_create_batch (embeddingModel svc) texts = Returned data ->
    length texts <= length data.

Lemma embed_batch_complete svc results batch :
  answers_in_full svc ->
  exists new,
    embed_batch' svc results batch = results ++ new /\ Forall2 embedded batch new.
Proof.
  intros Hcomplete. unfold embed_batch.
  destruct (embeddings_create_batch (embeddingModel svc) (map content batch))
    as [data|message] eqn:E.
  - apply Hcomplete in E. rewrite length_map in E.
    destruct (attach_spec batch data) as [H1 [H2 _]].
    destruct (attach batch data) as [pushed threw]. cbn [fst snd] in *.
    replace (length data <? length batch) with false in H2
      by (symmetry; apply Nat.ltb_ge; exact E).
    subst threw. exists pushed. split; [reflexivity|].
    now rewrite firstn_all2 in H1 by exact E.
  - exists (map mock_embedded batch). split; [reflexivity|apply mock_embedded_all].
Qed.

Lemma batch_loop_complete svc turns : forall rest results,
  answers_in_full svc ->
  length rest <= turns ->
  exists new,
    batch_loop' turns svc rest results = results ++ new
    /\ Forall2 embedded rest new.
Proof.
  induction turns as [|turns IH]; intros rest results Hcomplete Hlen.
  - destruct rest; [|simpl in Hlen; lia].
    exists []. rewrite app_nil_r. split; [reflexivity|constructor].
  - destruct rest as [|c rest'].
    + exists []. rewrite app_nil_r, batch_loop_done. split; [reflexivity|constructor].
    + set (rest := c :: rest') in *.
      assert (Hne : rest <> []) by (unfold rest; discriminate).
      rewrite batch_loop_step by exact Hne.
      destruct (embed_batch_complete svc results (firstn BATCH_SIZE rest) Hcomplete)
        as [new1 [E1 C1]].
      destruct (IH (skipn BATCH_SIZE rest) (results ++ new1) Hcomplete)
        as [new2 [E2 C2]].
      { now apply skipn_shorter. }
      exists (new1 ++ new2). rewrite E1, E2, app_assoc. split; [reflexivity|].
      rewrite <- (firstn_skipn BATCH_SIZE rest) at 1. now apply Forall2_app.
Qed.

Lemma batchEmbed_embedded svc chunks :
  answers_in_full svc -> Forall2 embedded chunks (batchEmbed' svc chunks).
Proof.
  intros Hcomplete. unfold batchEmbed.
  destruct (batch_loop_complete svc (length chunks) chunks [] Hcomplete (le_n _))
    as [new [-> H]].
  exact H.
Qed.

Lemma batchEmbed_covers svc chunks : covers chunks (batchEmbed' svc chunks).
Proof.
  unfold batchEmbed.
  destruct (batch_loop_covers svc (length chunks) chunks [] (le_n _))
    as [new [-> H]].
  exact H.
Qed.

(** X13.  Whatever the provider does, [batchEmbed] returns every passage with
    a vector, and returns nothing but the passages it was given, with
    their ids, texts and metadata. *)
Theorem batchEmbed_gives_vectors svc chunks :
  Forall (fun c' =>
            embedding c' <> None
            /\ exists c, In c chunks /\ id c' = id c
                         /\ content c' = content c /\ metadata c' = metadata c)
    (batchEmbed embeddings_create_batch svc chunks)
  /\ (forall c, In c chunks ->
        exists c', In c' (batchEmbed embeddings_create_batch svc chunks)
                   /\ id c' = id c /\ content c' = content c
                   /\ metadata c' = metadata c /\ embedding c' <> None)
  /\ length chunks <= length (batchEmbed embeddings_create_batch svc chunks).
Proof.
  destruct (batchEmbed_covers svc chunks) as [F [C L]].
  split; [|split; [|exact L]].
  - eapply Forall_impl; [|exact F]. cbn beta. intros c' [c [Hc He]].
    destruct (embedded_fields c c' He) as [H1 [H2 [H3 H4]]].
    split; [exact H4|]. exists c. auto.
  - intros c Hc. destruct (C c Hc) as [c' [Hc' He]].
    destruct (embedded_fields c c' He) as [H1 [H2 [H3 H4]]].
    exists c'. auto.
Qed.

(** X14.  With a provider that, when it answers, has a vector for every text,
    [batchEmbed] returns the passages it was given, one for one and in
    their order, each with a vector and otherwise unchanged. *)
Theorem batchEmbed_one_for_one svc chunks :
  answers_in_full svc ->
  Forall2 (fun c c' =>
             id c' = id c /\ content c' = content c
             /\ metadata c' = metadata c /\ embedding c' <> None)
    chunks (batchEmbed' svc chunks).
Proof.
  intros Hcomplete.
  eapply Forall2_impl; [|apply batchEmbed_embedded; exact Hcomplete].
  intros c c'. apply embedded_fields.
Qed.

(** X15.  An answer with fewer vectors than texts: the passages that got a
    vector stay in the result, and the whole batch follows with mock
    vectors, so those passages are returned twice. *)
Theorem batchEmbed_short_answer svc chunks data :
  length chunks <= BATCH_SIZE ->
  embeddings_create_batch (embeddingModel svc) (map content chunks)
  = Returned data ->
  length data < length chunks ->
  batchEmbed' svc chunks
  = map (fun p => with_embedding (fst p) (snd p)) (combine chunks data)
    ++ map mock_embedded chunks
  /\ length (batchEmbed' svc chunks) = length data + length chunks.
Proof.
  intros Hsmall Hreply Hshort.
  assert (Hne : chunks <> []) by (destruct chunks; [simpl in Hshort; lia|discriminate]).
  assert (E : batchEmbed' svc chunks
              = map (fun p => with_embedding (fst p) (snd p)) (combine chunks data)
                ++ map mock_embedded chunks).
  { unfold batchEmbed. destruct (length chunks) as [|turns] eqn:El.
    { destruct chunks; [contradiction|discriminate]. }
    rewrite batch_loop_step by exact Hne.
    rewrite skipn_all2 by lia. rewrite batch_loop_done.
    rewrite firstn_all2 by lia. unfold embed_batch. rewrite Hreply.
    destruct (attach_spec chunks data) as [_ [H2 H3]].
    destruct (attach chunks data) as [pushed threw]. cbn [fst snd] in *.
    replace (length data <? length chunks) with true in H2
      by (symmetry; apply Nat.ltb_lt; lia).
    subst threw pushed. reflexivity. }
  split; [exact E|].
  rewrite E, length_app, !length_map, length_combine. lia.
Qed.

End Provider.

End EmbedSpec.

Module IngestSpec.
Import JS Rag StoreSpec ChunkSpec EmbedSpec.

Lemma segmentClauses_within text s :
  In s (segmentClauses text) -> 50 < length s <= length text.
Proof.
  unfold segmentClauses. rewrite filter_In. intros [Hin Hlong].
  apply Nat.ltb_lt in Hlong. apply SegmenterSpec.trimmed_within in Hin. lia.
Qed.

Lemma segmentClauses_short text :
  length text <= 50 -> segmentClauses text = [].
Proof.
  intros Hshort. destruct (segmentClauses text) as [|s l] eqn:E; [reflexivity|].
  assert (Hin : In s (segmentClauses text)) by (rewrite E; now left).
  apply segmentClauses_within in Hin. lia.
Qed.

Lemma with_store_same svc : with_store svc (vectorStore svc) = svc.
Proof. now destruct svc. Qed.

(** ** Indexes in which every passage has a vector *)

Definition fully_embedded (st : InMemoryVectorStore) : Prop :=
  keys (embeddings st) = keys (documents st).

Lemma upsert_chunk_fully st c :
  fully_embedded st -> embedding c <> None ->
  fully_embedded (upsert_chunk st c).
Proof.
  unfold fully_embedded, upsert_chunk. intros Hk He. cbn [documents embeddings].
  destruct (embedding c) as [e|]; [|contradiction].
  rewrite !keys_set.
  destruct (map_get (documents st) (id c)) eqn:Ed,
           (map_get (embeddings st) (id c)) eqn:Ee; try congruence.
  - apply map_get_None in Ee. rewrite Hk in Ee. apply map_get_None in Ee. congruence.
  - apply map_get_None in Ed. rewrite <- Hk in Ed. apply map_get_None in Ed. congruence.
Qed.

Lemma upsert_fully st chunks :
  fully_embedded st -> Forall (fun c => embedding c <> None) chunks ->
  fully_embedded (fst (upsert st chunks)).
Proof.
  intros Hst. induction chunks as [|c chunks IH] using rev_ind; intros Hall;
    [exact Hst|].
  apply Forall_app in Hall. destruct Hall as [Hall Hc].
  rewrite upsert_snoc. apply upsert_chunk_fully; [now apply IH|].
  now inversion Hc.
Qed.

Lemma count_keys st : getDocumentCount st = length (keys (documents st)).
Proof. unfold getDocumentCount, keys. now rewrite length_map. Qed.

Lemma upsert_count st chunks :
  getDocumentCount st <= getDocumentCount (fst (upsert st chunks))
  <= getDocumentCount st + length chunks.
Proof.
  induction chunks as [|c chunks IH] using rev_ind; [simpl; lia|].
  rewrite upsert_snoc, length_app. cbn [length].
  rewrite !count_keys in *. unfold upsert_chunk. cbn [documents].
  destruct (keys_set_extends (documents (fst (upsert st chunks))) (id c) c)
    as [added [-> [_ Hlen]]].
  rewrite length_app. lia.
Qed.

Lemma upsert_keys_fresh chunks :
  NoDup (map id chunks) ->
  keys (documents (fst (upsert new_store chunks))) = map id chunks.
Proof.
  induction chunks as [|c chunks IH] using rev_ind; intros Hnd; [reflexivity|].
  rewrite map_app in Hnd. cbn [map] in Hnd.
  assert (Hprefix : NoDup (map id chunks)) by now apply NoDup_app_remove_r in Hnd.
  assert (Hout : ~ In (id c) (map id chunks)).
  { intros Hin. apply NoDup_remove_2 in Hnd. rewrite app_nil_r in Hnd. contradiction. }
  rewrite upsert_snoc. unfold upsert_chunk. cbn [documents].
  rewrite keys_set, map_app. cbn [map].
  specialize (IH Hprefix). rewrite <- IH in Hout.
  apply map_get_None in Hout. rewrite Hout, IH. reflexivity.
Qed.

Lemma embedded_ids l l' : Forall2 embedded l l' -> map id l' = map id l.
Proof.
  induction 1 as [|c c' l l' [e ->] _ IH]; simpl; [reflexivity|now rewrite IH].
Qed.

(** ** [ingestDocument] *)

Section Ingestion.
Variable toLowerCase : jsstring -> jsstring.
Variable embeddings_create_batch :
  jsstring -> list jsstring -> outcome (list (list float)).

Abbreviation ingest := (ingestDocument toLowerCase embeddings_create_batch).
Abbreviation chunk_all svc :=
  (createChunks extractHeading (classifyClauseType toLowerCase)
     (chunkSize svc) (chunkOverlap svc)).
Abbreviation embed_all := (batchEmbed embeddings_create_batch).

Lemma enough_fuel text fuel :
  length text < fuel ->
  Forall (fun segment => length segment < fuel) (segmentClauses text).
Proof.
  intros H. apply Forall_forall. intros s Hs.
  apply segmentClauses_within in Hs. lia.
Qed.

(** What [ingestDocument] returns when the chunker returns. *)
Lemma ingest_runs svc fuel text src :
  (chunkOverlap svc < chunkSize svc)%Z -> length text < fuel ->
  exists chunks,
    chunk_all svc fuel (segmentClauses text) src = Some chunks
    /\ ingest svc fuel text src
       = Some (with_store svc
                 (fst (upsert (vectorStore svc) (embed_all svc chunks))),
               length (embed_all svc chunks)).
Proof.
  intros Hstep Hfuel.
  exists (pieces_from extractHeading (classifyClauseType toLowerCase)
            (chunkSize svc) (chunkOverlap svc) src (segmentClauses text) 0 0).
  assert (Hrun := createChunks_runs extractHeading (classifyClauseType toLowerCase)
                    (chunkSize svc) (chunkOverlap svc) src fuel (segmentClauses text)
                    ltac:(lia) (enough_fuel text fuel Hfuel)).
  split; [exact Hrun|]. unfold ingestDocument. rewrite Hrun. reflexivity.
Qed.

(** X16.  A text of at most 50 characters has no segment: nothing is indexed,
    the provider is not called, and the service is left as it was. *)
Theorem ingestDocument_short_text svc fuel text src :
  length text <= 50 ->
  ingestDocument toLowerCase embeddings_create_batch svc fuel text src
  = Some (svc, 0).
Proof.
  intros Hshort.
  unfold ingestDocument. rewrite segmentClauses_short by exact Hshort.
  cbn. now rewrite with_store_same.
Qed.

(** X17.  With an overlap below the window, [ingestDocument] returns for every
    text (fuel for one turn per character is enough, and more fuel
    changes nothing).  It changes nothing of the service but the index,
    from which it removes nothing; the number of passages in the index
    grows by at most [chunksIndexed]. *)
Theorem ingestDocument_returns svc fuel text src :
  (chunkOverlap svc < chunkSize svc)%Z -> length text < fuel ->
  exists svc' chunksIndexed,
    ingest svc fuel text src = Some (svc', chunksIndexed)
    /\ (forall fuel', length text < fuel' ->
          ingest svc fuel' text src = ingest svc fuel text src)
    /\ svc' = with_store svc (vectorStore svc')
    /\ getDocumentCount (vectorStore svc)
       <= getDocumentCount (vectorStore svc')
       <= getDocumentCount (vectorStore svc) + chunksIndexed
    /\ (exists added,
          keys (documents (vectorStore svc'))
          = keys (documents (vectorStore svc)) ++ added).
Proof.
  intros Hstep Hfuel.
  destruct (ingest_runs svc fuel text src Hstep Hfuel) as [chunks [Hchunks Hrun]].
  eexists _, _. split; [exact Hrun|]. split; [|split; [reflexivity|split]].
  - intros fuel' Hfuel'.
    destruct (ingest_runs svc fuel' text src Hstep Hfuel') as [chunks' [Hchunks' Hrun']].
    rewrite Hrun, Hrun'.
    assert (Hpos : (0 < chunkSize svc - chunkOverlap svc)%Z) by lia.
    rewrite (createChunks_runs _ _ _ _ _ _ _ Hpos (enough_fuel text fuel Hfuel))
      in Hchunks.
    rewrite (createChunks_runs _ _ _ _ _ _ _ Hpos (enough_fuel text fuel' Hfuel'))
      in Hchunks'.
    congruence.
  - cbn [vectorStore with_store]. apply upsert_count.
  - cbn [vectorStore with_store].
    generalize (embed_all svc chunks) as l. intros l.
    induction l as [|c l [added IH]] using rev_ind.
    + exists []. now rewrite app_nil_r.
    + rewrite upsert_snoc. unfold upsert_chunk. cbn [documents].
      destruct (keys_set_extends (documents (fst (upsert (vectorStore svc) l))) (id c) c)
        as [a [-> _]].
      exists (added ++ a). now rewrite IH, app_assoc.
Qed.

(** X18.  With a window that is not larger than the overlap, [ingestDocument]
    never returns for a text that has a clause longer than the window:
    no amount of fuel is enough.  (The overlap is 200 unless the
    constructor was given another one, so a service constructed with a
    window of at most 200 alone is such a service.) *)
Theorem ingestDocument_never_returns svc text src segment :
  (chunkSize svc <= chunkOverlap svc)%Z ->
  In segment (segmentClauses text) ->
  (chunkSize svc < len segment)%Z ->
  forall fuel, ingest svc fuel text src = None.
Proof.
  intros Hstep Hin Hlong fuel. unfold ingestDocument.
  rewrite (createChunks_stuck extractHeading (classifyClauseType toLowerCase)
             (chunkSize svc) (chunkOverlap svc) src (segmentClauses text) segment
             Hstep Hin Hlong); [reflexivity|].
  apply segmentClauses_within in Hin. destruct segment; [simpl in Hin; lia|discriminate].
Qed.

(** ** Services that were only fed by [ingestDocument] *)

Inductive fed : Service -> Prop :=
| fed_new AUTOLAWYER_MODEL options : fed (new_service AUTOLAWYER_MODEL options)
| fed_ingest svc fuel text src svc' chunksIndexed :
    fed svc ->
    ingest svc fuel text src = Some (svc', chunksIndexed) ->
    fed svc'.

Lemma fed_sound svc :
  fed svc -> sound (vectorStore svc) /\ fully_embedded (vectorStore svc).
Proof.
  induction 1 as [env options|svc fuel text src svc' n _ [Hs Hf] Hrun].
  - split; [apply sound_new|reflexivity].
  - unfold ingestDocument in Hrun.
    destruct (chunk_all svc fuel (segmentClauses text) src) as [chunks|];
      [|discriminate].
    cbn in Hrun. injection Hrun as <- _. cbn [vectorStore with_store].
    split; [now apply sound_upsert|].
    change (fold_left upsert_chunk (embed_all svc chunks) (vectorStore svc))
      with (fst (upsert (vectorStore svc) (embed_all svc chunks))).
    apply upsert_fully; [exact Hf|].
    destruct (batchEmbed_covers embeddings_create_batch svc chunks) as [F _].
    eapply Forall_impl; [|exact F]. cbn beta. intros c' [c [_ [e ->]]]. discriminate.
Qed.

(** X19.  On a service that was only fed by [ingestDocument], every passage of
    the index has a vector: [search] returns as many results as asked
    for, up to the number of passages that [getIndexStats] reports, and
    the service is ready once that number is not 0. *)
Theorem search_after_ingestion svc q (k : nat) :
  fed svc ->
  length (search (vectorStore svc) q (Z.of_nat k))
  = Nat.min k (fst (getIndexStats svc))
  /\ (snd (getIndexStats svc) = true <-> documents (vectorStore svc) <> []).
Proof.
  intros Hfed. destruct (fed_sound svc Hfed) as [Hs Hf]. split.
  - rewrite search_length_count by exact Hs. cbn [getIndexStats fst].
    rewrite count_keys, <- Hf. unfold keys. now rewrite length_map.
  - cbn [getIndexStats snd]. unfold getDocumentCount.
    destruct (documents (vectorStore svc)); simpl; split; try discriminate;
      try reflexivity; congruence.
Qed.

(** X20.  A first document, with a provider that has a vector for every text:
    [chunksIndexed] is the number of passages of the chunker, which is
    the number of passages in the index afterwards, stored under the ids
    [src-0], [src-1], ... *)
Theorem ingestDocument_first_document svc fuel text src :
  answers_in_full embeddings_create_batch svc ->
  vectorStore svc = new_store ->
  (chunkOverlap svc < chunkSize svc)%Z -> length text < fuel ->
  exists svc' chunks,
    chunk_all svc fuel (segmentClauses text) src = Some chunks
    /\ ingest svc fuel text src = Some (svc', length chunks)
    /\ getDocumentCount (vectorStore svc') = length chunks
    /\ keys (documents (vectorStore svc'))
       = map (chunk_id src) (seq 0 (length chunks)).
Proof.
  intros Hcomplete Hnew Hstep Hfuel.
  destruct (ingest_runs svc fuel text src Hstep Hfuel) as [chunks [Hchunks Hrun]].
  pose proof (batchEmbed_embedded embeddings_create_batch svc chunks Hcomplete) as Hemb.
  assert (Hids : map id (embed_all svc chunks) = map id chunks)
    by now apply embedded_ids.
  assert (Hlen : length (embed_all svc chunks) = length chunks)
    by (symmetry; apply (Forall2_length Hemb)).
  assert (Hpieces : chunks = pieces_from extractHeading (classifyClauseType toLowerCase)
                               (chunkSize svc) (chunkOverlap svc) src
                               (segmentClauses text) 0 0).
  { assert (Hpos : (0 < chunkSize svc - chunkOverlap svc)%Z) by lia.
    rewrite (createChunks_runs _ _ _ _ _ _ _ Hpos (enough_fuel text fuel Hfuel))
      in Hchunks. congruence. }
  destruct (pieces_ids extractHeading (classifyClauseType toLowerCase)
              (chunkSize svc) (chunkOverlap svc) src (segmentClauses text)
              ltac:(lia)) as [Hseq Hnd].
  cbv zeta in Hseq, Hnd. rewrite <- Hpieces in Hseq, Hnd.
  eexists _, chunks. split; [exact Hchunks|].
  rewrite Hrun, Hlen. split; [reflexivity|].
  cbn [vectorStore with_store]. rewrite Hnew.
  assert (Hkeys : keys (documents (fst (upsert new_store (embed_all svc chunks))))
                  = map id chunks).
  { rewrite upsert_keys_fresh; [exact Hids|]. now rewrite Hids. }
  split; [|now rewrite Hkeys].
  rewrite count_keys, Hkeys. apply length_map.
Qed.

End Ingestion.

End IngestSpec.

(* ================================================================== *)
(** * Part XIII.  Answers and the constructor *)
(* ================================================================== *)

Module AnswerSpec.
Import JS Rag StringFacts StoreSpec RetrieveEdgeSpec GeneratorSpec.
#[local] Open Scope float_scope.

(** Distinct positions of a list are no more than its length. *)
Lemma distinct_positions (n : nat) (kept : list Z) :
  NoDup kept -> Forall (fun i => (0 <= i < Z.of_nat n)%Z) kept ->
  (length kept <= n)%nat.
Proof.
  intros Hnd Hrange.
  replace n with (length (map Z.of_nat (seq 0 n)))
    by (rewrite length_map; apply length_seq).
  apply NoDup_incl_length; [exact Hnd|].
  intros i Hi. rewrite Forall_forall in Hrange. specialize (Hrange i Hi).
  apply in_map_iff. exists (Z.to_nat i). split; [lia|].
  apply in_seq. lia.
Qed.

Lemma keptIndices_NoDup text context : NoDup (keptIndices text context).
Proof.
  unfold keptIndices, citedIndices.
  eapply sorted_NoDup, StronglySorted_filter, added_sorted.
Qed.

Lemma cited_passages context kept :
  Forall (fun i => (0 <= i < Z.of_nat (length context))%Z) kept ->
  length (flat_map (cite context) kept) = length kept
  /\ Forall (fun c => exists p, In p context /\ c = citation_of p)
       (flat_map (cite context) kept).
Proof.
  intros Hrange. pose proof (cite_in_range context kept Hrange) as H2.
  split; [symmetry; apply (Forall2_length H2)|].
  apply Forall_forall. intros c Hc.
  destruct (Forall2_In_r _ _ _ _ H2 Hc) as [i [_ [p [Hp ->]]]].
  exists p. split; [eapply nth_error_In, Hp|reflexivity].
Qed.

Lemma firstn_passages {A B} (f : A -> B) n (l : list A) :
  Forall (fun c => exists p, In p l /\ c = f p) (map f (firstn n l)).
Proof.
  apply Forall_forall. intros c Hc. apply in_map_iff in Hc.
  destruct Hc as [p [<- Hp]]. exists p. split; [|reflexivity].
  eapply In_firstn, Hp.
Qed.

Section Provider.
Variable embeddings_create : jsstring -> jsstring -> outcome (list float).
Variable chat_completions_create :
  jsstring -> jsstring -> jsstring -> outcome (option jsstring).

Abbreviation generate' := (generate chat_completions_create).
Abbreviation retrieve' := (retrieve embeddings_create).
Abbreviation query' := (query embeddings_create chat_completions_create).

Lemma generate_bounds svc q context :
  exists r,
    generate' svc q context = Returned r
    /\ (length (citations r) <= length context)%nat
    /\ Forall (fun c => exists p, In p context /\ c = citation_of p)
         (citations r).
Proof.
  unfold generate, try_catch.
  destruct (chat_completions_create (completionModel svc) (systemPrompt context) q)
    as [content|message].
  - eexists. split; [reflexivity|]. cbn [citations].
    set (kept := keptIndices (str_or content []) context).
    assert (Hrange : Forall (fun i => (0 <= i < Z.of_nat (length context))%Z) kept)
      by apply keptIndices_in_range.
    destruct (cited_passages context kept Hrange) as [Hlen Hfrom].
    split; [|exact Hfrom].
    rewrite Hlen. apply distinct_positions; [apply keptIndices_NoDup|exact Hrange].
  - eexists. split; [reflexivity|]. cbn [citations].
    replace (slice context 0 3) with (firstn 3 context)
      by (symmetry; apply (slice_prefix context 3)).
    split; [|apply firstn_passages].
    rewrite length_map, length_firstn. lia.
Qed.

Lemma ungrounded_has_no_citation svc q context r :
  generate' svc q context = Returned r ->
  groundedOnSources r = false -> citations r = [].
Proof.
  unfold generate, try_catch.
  destruct (chat_completions_create (completionModel svc) (systemPrompt context) q)
    as [content|message]; intros [= <-]; cbn [groundedOnSources citations].
  - intros Hg. apply negb_false_iff, Nat.eqb_eq in Hg.
    now apply length_zero_iff_nil.
  - discriminate.
Qed.

(** X21.  [generate] always returns a response, whether the completion call
    answers or fails.  Its citations are no more than the passages of the
    context, each is the citation of one of these passages, and a response
    that is not marked as grounded has no citation. *)
Theorem generate_cites_only_the_context svc q context :
  exists r,
    generate' svc q context = Returned r
    /\ (length (citations r) <= length context)%nat
    /\ Forall (fun c => exists p, In p context /\ c = citation_of p)
         (citations r)
    /\ (groundedOnSources r = false -> citations r = []).
Proof.
  destruct (generate_bounds svc q context) as [r [Hr [Hlen Hfrom]]].
  exists r. split; [exact Hr|]. split; [exact Hlen|]. split; [exact Hfrom|].
  now apply (ungrounded_has_no_citation svc q context).
Qed.

Lemma retrieve_from_index svc q options :
  let results := fst (retrieve' svc q options) in
  let k := int_or (opt_topK options) (topK svc) in
  (0 <= k -> Z.of_nat (length results) <= k)%Z
  /\ chunksRetrieved (snd (retrieve' svc q options)) = length results
  /\ Forall (fun r =>
               (num_or (opt_minScore options) 0.3 <=? score r) = true
               /\ exists k, map_get (documents (vectorStore svc)) k
                            = Some (chunk r))
       results.
Proof.
  unfold retrieve. cbn [fst snd chunksRetrieved]. split; [|split; [reflexivity|]].
  - apply slice_length_bound.
  - apply Forall_forall. intros r Hr. rewrite slice_from_start in Hr.
    apply In_firstn, filter_In in Hr. destruct Hr as [Hr Hmin].
    split; [exact Hmin|].
    apply apply_filter_In, In_search in Hr.
    unfold scored in Hr. apply in_flat_map in Hr.
    destruct Hr as [[key emb] [_ Hr]].
    destruct (map_get (documents (vectorStore svc)) key) as [c|] eqn:E;
      [|contradiction].
    destruct Hr as [<-|[]]. now exists key.
Qed.

(** X22.  [query] always returns.  Its response cites no more passages
    than it retrieved, and every citation names a passage that is stored
    in the index, with a relevance score of at least 0.3.  When the
    [topK] of the service is not negative it retrieves at most [topK]
    passages.  (The constructor keeps a negative [topK]; the two slices
    then drop entries from the end, and more than [topK] passages can be
    retrieved.) *)
Theorem query_cites_the_index svc q :
  exists r metrics,
    query' svc q = Returned (r, metrics)
    /\ (0 <= topK svc -> Z.of_nat (chunksRetrieved metrics) <= topK svc)%Z
    /\ (length (citations r) <= chunksRetrieved metrics)%nat
    /\ Forall (fun c =>
                 (0.3 <=? relevanceScore c) = true
                 /\ exists k p, map_get (documents (vectorStore svc)) k = Some p
                                /\ chunkId c = id p
                                /\ cit_source c = source (metadata p))
         (citations r).
Proof.
  unfold query.
  destruct (retrieve_from_index svc q no_retrieve_options) as [Hk [Hn Hfrom]].
  cbv zeta in Hk, Hfrom.
  destruct (retrieve' svc q no_retrieve_options) as [results metrics].
  cbn [fst snd] in *.
  destruct (generate_bounds svc q results) as [r [-> [Hlen Hcit]]].
  exists r, metrics. split; [reflexivity|].
  split; [now rewrite Hn|]. split; [now rewrite Hn|].
  apply Forall_forall. intros c Hc.
  rewrite Forall_forall in Hcit, Hfrom.
  destruct (Hcit c Hc) as [p [Hp ->]].
  destruct (Hfrom p Hp) as [Hmin [k Hk']].
  cbn [citation_of relevanceScore chunkId cit_source].
  split; [exact Hmin|]. now exists k, (chunk p).
Qed.

(** X23.  On an index without vectors nothing is retrieved.  When the
    completion call answers, the response has no citation, confidence 0
    and is not grounded; when it fails, the fallback response reports 0
    sections, has no citation either, and yet has confidence 0.5 and is
    marked as grounded. *)
Theorem query_on_empty_index svc q :
  embeddings (vectorStore svc) = [] ->
  exists r metrics,
    query' svc q = Returned (r, metrics)
    /\ chunksRetrieved metrics = 0%nat
    /\ citations r = []
    /\ match chat_completions_create (completionModel svc) (systemPrompt []) q with
       | Returned content =>
           answer r = str_or content []
           /\ confidence r = 0 /\ groundedOnSources r = false
       | Thrown _ =>
           answer r = fallback_answer []
           /\ confidence r = 0.5 /\ groundedOnSources r = true
       end.
Proof.
  intros Hempty. unfold query, retrieve, search, scored. rewrite Hempty.
  cbn [flat_map sort fold_right]. rewrite slice_nil.
  replace (apply_filter (opt_filter no_retrieve_options) []) with (@nil RetrievalResult)
    by reflexivity.
  cbn [filter]. rewrite slice_nil. cbn [length].
  unfold generate, try_catch.
  destruct (chat_completions_create (completionModel svc) (systemPrompt []) q)
    as [content|message].
  - eexists _, _. split; [reflexivity|]. cbn.
    split; [reflexivity|].
    assert (E : flat_map (cite []) (keptIndices (str_or content []) []) = []).
    { apply length_zero_iff_nil.
      pose proof (keptIndices_in_range (str_or content []) []) as Hr.
      destruct (cited_passages [] _ Hr) as [Hl _]. rewrite Hl.
      pose proof (distinct_positions 0 _ (keptIndices_NoDup (str_or content []) []) Hr).
      lia. }
    rewrite E. repeat split.
  - eexists _, _. split; [reflexivity|]. cbn. repeat split.
Qed.

End Provider.

(** ** The constructor *)

(** X24.  No option of the constructor can be given as 0 or as the empty
    string: the service then has the default, so its window, overlap and
    [topK] are never 0 and its model names are never empty; in particular
    an overlap of 0 gives the overlap 200.  The index starts empty. *)
Theorem constructor_never_keeps_a_falsy_option AUTOLAWYER_MODEL options :
  let svc := new_service AUTOLAWYER_MODEL options in
  chunkSize svc <> 0%Z /\ chunkOverlap svc <> 0%Z /\ topK svc <> 0%Z
  /\ embeddingModel svc <> [] /\ completionModel svc <> []
  /\ (o_chunkOverlap options = Some 0%Z -> chunkOverlap svc = 200%Z)
  /\ getIndexStats svc = (0%nat, false).
Proof.
  cbv zeta. unfold new_service.
  cbn [chunkSize chunkOverlap topK embeddingModel completionModel].
  repeat split.
  - unfold int_or. destruct (o_chunkSize options) as [z|]; [|discriminate].
    destruct (Z.eqb_spec z 0); [discriminate|assumption].
  - unfold int_or. destruct (o_chunkOverlap options) as [z|]; [|discriminate].
    destruct (Z.eqb_spec z 0); [discriminate|assumption].
  - unfold int_or. destruct (o_topK options) as [z|]; [|discriminate].
    destruct (Z.eqb_spec z 0); [discriminate|assumption].
  - unfold str_or. destruct (o_embeddingModel options) as [[|c s]|]; discriminate.
  - unfold str_or.
    destruct (o_completionModel options) as [[|c s]|];
      destruct AUTOLAWYER_MODEL as [[|c' s']|]; discriminate.
  - intros ->. reflexivity.
Qed.

End AnswerSpec.

(* ================================================================== *)
(** * Part XIV.  Payloads of the streaming session, and the wire format *)
(* ================================================================== *)

Module SessionSpec.
Import JS Route RouteSpec.

(** ** Runs that do not depend on what is already queued *)

(** [runs m r evs]: on every open controller, [m] ends with [r], leaves
    the controller open and appends exactly [evs] to its queue. *)
Definition runs {A} (m : M A) (r : outcome A) (evs : list StreamEvent) : Prop :=
  forall c, closed c = false ->
    m c = (r, {| queue := queue c ++ evs; closed := false |}).

(** [m] runs in that way, with a result and events that satisfy [Q]. *)
Definition yields {A} (m : M A)
    (Q : outcome A -> list StreamEvent -> Prop) : Prop :=
  exists r evs, runs m r evs /\ Q r evs.

Lemma runs_ret {A} (a : A) : runs (ret a) (Returned a) [].
Proof. intros c Hc. unfold ret. f_equal. now apply open_controller_eta. Qed.

Lemma runs_throw {A} e : runs (@throw A e) (Thrown e) [].
Proof. intros c Hc. unfold throw. f_equal. now apply open_controller_eta. Qed.

Lemma runs_emit t fields :
  runs (emit t fields) (Returned tt) [{| type := t; data := JObj fields |}].
Proof. intros c Hc. unfold emit, enqueue. now rewrite Hc. Qed.

Lemma runs_bind {A B} (m : M A) (f : A -> M B) a evs1 r evs2 :
  runs m (Returned a) evs1 -> runs (f a) r evs2 ->
  runs (bind m f) r (evs1 ++ evs2).
Proof.
  intros Hm Hf c Hc. unfold bind. rewrite (Hm c Hc).
  rewrite (Hf {| queue := queue c ++ evs1; closed := false |} eq_refl).
  cbn [queue]. now rewrite app_assoc.
Qed.

Lemma runs_bind_thrown {A B} (m : M A) (f : A -> M B) e evs :
  runs m (Thrown e) evs -> runs (bind m f) (Thrown e) evs.
Proof. intros Hm c Hc. unfold bind. now rewrite (Hm c Hc). Qed.

Lemma runs_try_catch_returned {A} (m : M A) handler a evs :
  runs m (Returned a) evs -> runs (try_catch m handler) (Returned a) evs.
Proof. intros Hm c Hc. unfold try_catch. now rewrite (Hm c Hc). Qed.

Lemma runs_try_catch_thrown {A} (m : M A) handler e evs1 r evs2 :
  runs m (Thrown e) evs1 -> runs (handler e) r evs2 ->
  runs (try_catch m handler) r (evs1 ++ evs2).
Proof.
  intros Hm Hh c Hc. unfold try_catch. rewrite (Hm c Hc).
  rewrite (Hh {| queue := queue c ++ evs1; closed := false |} eq_refl).
  cbn [queue]. now rewrite app_assoc.
Qed.

Lemma runs_unique {A} (m : M A) r evs :
  runs m r evs ->
  r = fst (m new_controller) /\ evs = queue (snd (m new_controller)).
Proof. intros H. rewrite (H new_controller eq_refl). auto. Qed.

Lemma yields_weaken {A} (m : M A) (Q Q' : outcome A -> list StreamEvent -> Prop) :
  yields m Q -> (forall r evs, Q r evs -> Q' r evs) -> yields m Q'.
Proof. intros [r [evs [H HQ]]] Himp. exists r, evs. auto. Qed.

Lemma yields_ret {A} (a : A) (Q : outcome A -> list StreamEvent -> Prop) :
  Q (Returned a) [] -> yields (ret a) Q.
Proof. intros HQ. exists (Returned a), []. split; [apply runs_ret|exact HQ]. Qed.

Lemma yields_throw {A} e (Q : outcome A -> list StreamEvent -> Prop) :
  Q (Thrown e) [] -> yields (throw e) Q.
Proof. intros HQ. exists (Thrown e), []. split; [apply runs_throw|exact HQ]. Qed.

Lemma yields_emit t fields (Q : outcome unit -> list StreamEvent -> Prop) :
  Q (Returned tt) [{| type := t; data := JObj fields |}] ->
  yields (emit t fields) Q.
Proof. intros HQ. eexists _, _. split; [apply runs_emit|exact HQ]. Qed.

Lemma yields_bind {A B} (m : M A) (f : A -> M B) Q1 Q2
    (Q : outcome B -> list StreamEvent -> Prop) :
  yields m Q1 ->
  (forall a, yields (f a) (Q2 a)) ->
  (forall e evs, Q1 (Thrown e) evs -> Q (Thrown e) evs) ->
  (forall a r evs1 evs2,
     Q1 (Returned a) evs1 -> Q2 a r evs2 -> Q r (evs1 ++ evs2)) ->
  yields (bind m f) Q.
Proof.
  intros [[a|e] [evs1 [H1 HQ1]]] Hf Hthrown Hseq.
  - destruct (Hf a) as [r [evs2 [H2 HQ2]]].
    exists r, (evs1 ++ evs2). split; [now apply runs_bind with a|eauto].
  - exists (Thrown e), evs1. split; [now apply runs_bind_thrown|auto].
Qed.

Lemma yields_try_catch {A} (m : M A) (handler : jsstring -> M A) Q1 Q2
    (Q : outcome A -> list StreamEvent -> Prop) :
  yields m Q1 ->
  (forall e, yields (handler e) (Q2 e)) ->
  (forall a evs, Q1 (Returned a) evs -> Q (Returned a) evs) ->
  (forall e r evs1 evs2,
     Q1 (Thrown e) evs1 -> Q2 e r evs2 -> Q r (evs1 ++ evs2)) ->
  yields (try_catch m handler) Q.
Proof.
  intros [[a|e] [evs1 [H1 HQ1]]] Hh Hreturned Hseq.
  - exists (Returned a), evs1. split; [now apply runs_try_catch_returned|auto].
  - destruct (Hh e) as [r [evs2 [H2 HQ2]]].
    exists r, (evs1 ++ evs2). split; [now apply runs_try_catch_thrown with e|eauto].
Qed.

(** ** Payloads *)

Definition lookup (key : string) (fields : list (string * json)) : option json :=
  match find (fun kv => String.eqb (fst kv) key) fields with
  | Some kv => Some (snd kv)
  | None => None
  end.

(** The field [key] of the payload of an event. *)
Definition field (key : string) (ev : StreamEvent) : option json :=
  match data ev with
  | JObj fields => lookup key fields
  | _ => None
  end.

#[local] Open Scope float_scope.

Definition percentage (p : float) : Prop :=
  (0 <=? p) = true /\ (p <=? 100) = true.

(** A [progress] event carries a percentage and a [chunk] event a text
    that is not empty. *)
Definition well_formed (ev : StreamEvent) : Prop :=
  match type ev with
  | progress => exists p, field "progress" ev = Some (JNum p) /\ percentage p
  | chunk => exists s, field "content" ev = Some (JStr s) /\ s <> []
  | _ => True
  end.

Definition well_formedb (ev : StreamEvent) : bool :=
  match type ev with
  | progress =>
      match field "progress" ev with
      | Some (JNum p) => (0 <=? p) && (p <=? 100)
      | _ => false
      end
  | chunk =>
      match field "content" ev with
      | Some (JStr s) => truthy_str s
      | _ => false
      end
  | _ => true
  end.

Lemma truthy_str_nonempty s : truthy_str s = true <-> s <> [].
Proof. destruct s; simpl; split; congruence. Qed.

Lemma well_formedb_sound ev : well_formedb ev = true -> well_formed ev.
Proof.
  unfold well_formedb, well_formed. destruct (type ev); auto.
  - destruct (field "progress" ev) as [[|p| |]|]; try discriminate.
    intros H. apply andb_true_iff in H. now exists p.
  - destruct (field "content" ev) as [[| |s|]|]; try discriminate.
    intros H. exists s. split; [reflexivity|now apply truthy_str_nonempty].
Qed.

Lemma percentage_within p :
  FloatFacts.within (100 * 2 ^ 1074) p -> percentage p.
Proof.
  intros [k [Hk R]]. unfold percentage.
  rewrite !FloatFacts.leb_key, Hk, FloatFacts.key_0, ConfidenceSpec.key_100.
  split; apply Z.leb_le; lia.
Qed.

Lemma key_2 : FloatFacts.key 2 = Some (2 * 2 ^ 1074)%Z.
Proof. vm_compute. reflexivity. Qed.

Lemma key_30 : FloatFacts.key 30 = Some (30 * 2 ^ 1074)%Z.
Proof. vm_compute. reflexivity. Qed.

Lemma key_90 : FloatFacts.key 90 = Some (90 * 2 ^ 1074)%Z.
Proof. vm_compute. reflexivity. Qed.

Lemma key_2_64 :
  FloatFacts.key 18446744073709551616 = Some (2 ^ 64 * 2 ^ 1074)%Z.
Proof. vm_compute. reflexivity. Qed.

Lemma key_2_65 :
  FloatFacts.key 36893488147419103232 = Some (2 ^ 65 * 2 ^ 1074)%Z.
Proof. vm_compute. reflexivity. Qed.

(** [Math.min(30 + (chunkCount * 2), 90)] is a percentage for every
    count. *)
Lemma streaming_progress_percentage n :
  percentage (Math_min (30 + num_of_nat n * 2) 90).
Proof.
  apply percentage_within.
  assert (U : (0 < 2 ^ 1074)%Z) by (apply Z.pow_pos_nonneg; lia).
  assert (HH : (2 ^ 65 * 2 ^ 1074 < FloatFacts.huge)%Z).
  { unfold FloatFacts.huge. rewrite <- Z.pow_add_r by lia.
    apply Z.pow_lt_mono_r; lia. }
  assert (E64 : (2 ^ 64 = 2 * 2 ^ 63)%Z) by reflexivity.
  assert (E65 : (2 ^ 65 = 4 * 2 ^ 63)%Z) by reflexivity.
  assert (P63 : (0 < 2 ^ 63)%Z) by reflexivity.
  set (u := (2 ^ 1074)%Z) in *.
  assert (W1 : FloatFacts.within (2 ^ 63 * u) (num_of_nat n))
    by apply FloatFacts.of_uint63_within.
  assert (W2 : FloatFacts.within (2 ^ 64 * u) (num_of_nat n * 2)).
  { apply (FloatFacts.mul_within _ _ 18446744073709551616 (2 ^ 63 * u) (2 * u));
      [exact W1|apply FloatFacts.within_key; [exact key_2|lia]|exact key_2_64
      | | | | ]; rewrite ?E64, ?E65 in *; set (v := (2 ^ 63)%Z) in *; nia. }
  assert (W3 : FloatFacts.within (2 ^ 65 * u) (30 + num_of_nat n * 2)).
  { apply (FloatFacts.add_within _ _ 36893488147419103232 (30 * u) (2 ^ 64 * u));
      [apply FloatFacts.within_key; [exact key_30|lia]|exact W2|exact key_2_65
      | | ]; rewrite ?E64, ?E65 in *; set (v := (2 ^ 63)%Z) in *; nia. }
  assert (W4 : FloatFacts.within (90 * u) 90)
    by (apply FloatFacts.within_key; [exact key_90|lia]).
  eapply FloatFacts.within_weaken;
    [exact (FloatFacts.Math_min_within _ _ _ _ W3 W4)|lia].
Qed.

Lemma percentage_literal p :
  ((0 <=? p) && (p <=? 100)) = true -> percentage p.
Proof. intros H. apply andb_true_iff in H. exact H. Qed.

Lemma well_formed_progress p message :
  percentage p ->
  well_formed {| type := progress;
                 data := JObj [num "progress" p; str "message" message] |}.
Proof. intros H. now exists p. Qed.

Lemma well_formed_chunk content rest :
  truthy_str content = true ->
  well_formed {| type := chunk; data := JObj (str "content" content :: rest) |}.
Proof.
  intros H. exists content. split; [reflexivity|now apply truthy_str_nonempty].
Qed.

(** The texts of the [chunk] events, in order. *)
Definition chunk_texts (evs : list StreamEvent) : list jsstring :=
  flat_map
    (fun ev =>
       match type ev, field "content" ev with
       | chunk, Some (JStr s) => [s]
       | _, _ => []
       end) evs.

Definition is_chunk (ev : StreamEvent) : bool :=
  match type ev with chunk => true | _ => false end.

Definition chunk_event (content : jsstring) (chunkIndex : nat) : StreamEvent :=
  {| type := chunk;
     data := JObj [str "content" content;
                   num "chunkIndex" (num_of_nat chunkIndex)] |}.

(** The [chunk] events of [texts], numbered from [first]. *)
Fixpoint numbered_chunks (texts : list jsstring) (first : nat)
    : list StreamEvent :=
  match texts with
  | [] => []
  | text :: rest => chunk_event text first :: numbered_chunks rest (S first)
  end.

Definition error_event (message : jsstring) : StreamEvent :=
  {| type := error; data := JObj [str "message" message] |}.

(** The events of the scripted path. *)
Definition mock_events : list StreamEvent :=
  queue (snd (streamMockAnalysis [] new_controller)).

Lemma mock_loop_yields chunks total : forall i,
  yields (mock_loop chunks i total) (fun r _ => r = Returned tt).
Proof.
  induction chunks as [|text rest IH]; intros i; cbn [mock_loop].
  - now apply yields_ret.
  - apply yields_bind with
      (Q1 := fun r _ => r = Returned tt) (Q2 := fun _ r _ => r = Returned tt);
      [now apply yields_emit| |discriminate|auto].
    intros _.
    apply yields_bind with
      (Q1 := fun r _ => r = Returned tt) (Q2 := fun _ r _ => r = Returned tt);
      [|intros _; apply IH|discriminate|auto].
    destruct (i mod 5 =? 0)%nat; [now apply yields_emit|now apply yields_ret].
Qed.

Lemma mock_runs input :
  runs (streamMockAnalysis input) (Returned tt) mock_events.
Proof.
  assert (H : yields (streamMockAnalysis input) (fun r _ => r = Returned tt)).
  { unfold streamMockAnalysis.
    apply yields_bind with
      (Q1 := fun r _ => r = Returned tt) (Q2 := fun _ r _ => r = Returned tt);
      [apply mock_loop_yields| |discriminate|auto].
    intros _. now apply yields_emit. }
  destruct H as [r [evs [H ->]]].
  destruct (runs_unique _ _ _ H) as [_ ->]. exact H.
Qed.

Lemma mock_events_well_formed : Forall well_formed mock_events.
Proof.
  apply Forall_forall. intros ev Hev. apply well_formedb_sound.
  assert (H : forallb well_formedb mock_events = true) by (vm_compute; reflexivity).
  rewrite forallb_forall in H. now apply H.
Qed.

(** ** The streaming functions *)

Section Session.
Variable OPENAI_API_KEY : option jsstring.
Variable AUTOLAWYER_MODEL : option jsstring.
Variable provider : jsstring -> jsstring -> jsstring -> outcome completion_stream.

Abbreviation reply_to system user :=
  (provider (model AUTOLAWYER_MODEL) system user).
Abbreviation GET' := (GET OPENAI_API_KEY AUTOLAWYER_MODEL provider).
Abbreviation events' := (events OPENAI_API_KEY AUTOLAWYER_MODEL provider).

(** The message with which a streamed completion fails, if it does. *)
Definition failure (reply : outcome completion_stream) : option jsstring :=
  match reply with
  | Returned (_, ends) => None
  | Returned (_, breaks e) => Some e
  | Thrown e => Some e
  end.

(** The result of a streaming function that wraps failures with [label]. *)
Definition ends_as (label : string) (reply : outcome completion_stream)
    (r : outcome unit) : Prop :=
  match failure reply with
  | None => r = Returned tt
  | Some e => r = Thrown (lit label ++ e)
  end.

Lemma runs_create system user :
  runs (create AUTOLAWYER_MODEL provider system user) (reply_to system user) [].
Proof.
  intros c Hc. unfold create.
  destruct (reply_to system user); f_equal; now apply open_controller_eta.
Qed.

(** Events that all satisfy [P], and a normal return. *)
Definition passes {A} (P : StreamEvent -> Prop) (m : M A) : Prop :=
  yields m (fun r evs => (exists a, r = Returned a) /\ Forall P evs).

Lemma passes_ret {A} P (a : A) : passes P (ret a).
Proof. apply yields_ret. split; [now exists a|constructor]. Qed.

Lemma passes_emit (P : StreamEvent -> Prop) t fields :
  P {| type := t; data := JObj fields |} -> passes P (emit t fields).
Proof.
  intros HP. apply yields_emit. split; [now exists tt|].
  constructor; [exact HP|constructor].
Qed.

Lemma passes_bind {A B} P (m : M A) (f : A -> M B) :
  passes P m -> (forall a, passes P (f a)) -> passes P (bind m f).
Proof.
  intros Hm Hf.
  apply yields_bind with
    (Q1 := fun r evs => (exists a, r = Returned a) /\ Forall P evs)
    (Q2 := fun _ r evs => (exists b, r = Returned b) /\ Forall P evs);
    [exact Hm|exact Hf| |].
  - intros e evs [[a H] _]. discriminate H.
  - intros a r evs1 evs2 [_ H1] [Hr H2]. split; [exact Hr|].
    apply Forall_app. auto.
Qed.

Lemma for_await_yields {S} P items fin (body : S -> jsstring -> M S) :
  (forall s x, passes P (body s x)) ->
  forall s,
    yields (for_await items fin body s)
      (fun r evs =>
         Forall P evs
         /\ match fin with
            | ends => exists s', r = Returned s'
            | breaks e => r = Thrown e
            end).
Proof.
  intros Hb. induction items as [|item rest IH]; intros s; cbn [for_await].
  - destruct fin as [|e].
    + apply yields_ret. split; [constructor|now exists s].
    + apply yields_throw. split; [constructor|reflexivity].
  - apply yields_bind with
      (Q1 := fun r evs => (exists a, r = Returned a) /\ Forall P evs)
      (Q2 := fun _ r evs =>
               Forall P evs
               /\ match fin with
                  | ends => exists s', r = Returned s'
                  | breaks e => r = Thrown e
                  end);
      [apply Hb|intros; apply IH| |].
    + intros e evs [[a H] _]. discriminate H.
    + intros a r evs1 evs2 [_ H1] [H2 Hr]. split; [|exact Hr].
      apply Forall_app. auto.
Qed.

(** The shape shared by the three streaming functions. *)
Lemma streaming_yields {S} P label system user (before : M unit)
    (body : S -> jsstring -> M S) (s0 : S) (after : S -> M unit) :
  passes P before ->
  (forall s x, passes P (body s x)) ->
  (forall s, yields (after s) (fun r evs => r = Returned tt /\ Forall P evs)) ->
  yields
    (rethrow label
       (bind (create AUTOLAWYER_MODEL provider system user)
          (fun stream =>
             before ;;
             bind (for_await (fst stream) (snd stream) body s0) after)))
    (fun r evs => Forall P evs /\ ends_as label (reply_to system user) r).
Proof.
  intros Hbefore Hbody Hafter. unfold rethrow.
  apply yields_try_catch with
    (Q1 := fun r evs =>
             Forall P evs
             /\ match failure (reply_to system user) with
                | None => r = Returned tt
                | Some e => r = Thrown e
                end)
    (Q2 := fun e r evs => r = Thrown (lit label ++ e) /\ evs = []).
  - apply yields_bind with
      (Q1 := fun r evs => r = reply_to system user /\ evs = [])
      (Q2 := fun stream r evs =>
               Forall P evs
               /\ match snd stream with
                  | ends => r = Returned tt
                  | breaks e => r = Thrown e
                  end).
    + eexists _, _. split; [apply runs_create|auto].
    + intros [items fin]. cbn [fst snd].
      apply yields_bind with
        (Q1 := fun r evs => (exists a, r = Returned a) /\ Forall P evs)
        (Q2 := fun _ r evs =>
                 Forall P evs
                 /\ match fin with
                    | ends => r = Returned tt
                    | breaks e => r = Thrown e
                    end);
        [exact Hbefore| | |].
      * intros _.
        apply yields_bind with
          (Q1 := fun r evs =>
                   Forall P evs
                   /\ match fin with
                      | ends => exists s', r = Returned s'
                      | breaks e => r = Thrown e
                      end)
          (Q2 := fun _ r evs => r = Returned tt /\ Forall P evs);
          [now apply for_await_yields|exact Hafter| |].
        -- intros e evs [HP Hr]. split; [exact HP|].
           destruct fin; [destruct Hr as [s' Hr]; discriminate Hr|].
           now injection Hr as ->.
        -- intros a r evs1 evs2 [HP1 Hr1] [-> HP2].
           split; [apply Forall_app; auto|].
           destruct fin; [reflexivity|discriminate Hr1].
      * intros e evs [[a H] _]. discriminate H.
      * intros a r evs1 evs2 [_ H1] [H2 Hr]. split; [|exact Hr].
        apply Forall_app. auto.
    + intros e evs [<- ->]. split; [constructor|reflexivity].
    + intros [items fin] r evs1 evs2 [<- ->] [HP Hr]. cbn [app failure snd] in *.
      split; [exact HP|]. destruct fin; exact Hr.
  - intros e. apply yields_throw. auto.
  - intros a evs [HP Hr]. split; [exact HP|]. unfold ends_as.
    destruct (failure (reply_to system user)); [discriminate Hr|].
    destruct a. reflexivity.
  - intros e r evs1 evs2 [HP Hr] [-> ->]. rewrite app_nil_r.
    split; [exact HP|]. unfold ends_as.
    destruct (failure (reply_to system user)); [|discriminate Hr].
    now injection Hr as ->.
Qed.

(** A prefix of events that pass, then a computation that yields. *)
Lemma yields_after {A B} P (m : M A) (k : A -> M B) (R : outcome B -> Prop) :
  passes P m ->
  (forall a, yields (k a) (fun r evs => Forall P evs /\ R r)) ->
  yields (bind m k) (fun r evs => Forall P evs /\ R r).
Proof.
  intros Hm Hk.
  apply yields_bind with
    (Q1 := fun r evs => (exists a, r = Returned a) /\ Forall P evs)
    (Q2 := fun _ r evs => Forall P evs /\ R r);
    [exact Hm|exact Hk| |].
  - intros e evs [[a H] _]. discriminate H.
  - intros a r evs1 evs2 [_ H1] [H2 Hr]. split; [|exact Hr].
    apply Forall_app. auto.
Qed.

Ltac literal_progress :=
  apply passes_emit, well_formed_progress, percentage_literal;
  vm_compute; reflexivity.

Lemma streamContractAnalysis_yields clauseText :
  yields (streamContractAnalysis AUTOLAWYER_MODEL provider clauseText)
    (fun r evs =>
       Forall well_formed evs
       /\ ends_as "OpenAI streaming failed: "
            (reply_to analysis_system_prompt
               (or_else (Some clauseText) sample_clause)) r).
Proof.
  unfold streamContractAnalysis.
  apply yields_after; [literal_progress|intros _].
  apply streaming_yields.
  - literal_progress.
  - intros [fullResponse chunkCount] content. cbv beta iota.
    destruct (truthy_str content) eqn:E; [|apply passes_ret].
    apply passes_bind; [now apply passes_emit, well_formed_chunk|intros _].
    apply passes_bind; [|intros _; apply passes_ret].
    destruct (S chunkCount mod 10 =? 0)%nat; [|apply passes_ret].
    apply passes_emit, well_formed_progress, streaming_progress_percentage.
  - intros [fullResponse chunkCount].
    apply yields_bind with
      (Q1 := fun r evs => r = Returned tt /\ Forall well_formed evs)
      (Q2 := fun _ r evs => r = Returned tt /\ Forall well_formed evs).
    + apply yields_emit. split; [reflexivity|]. repeat constructor.
    + intros _. apply yields_emit. split; [reflexivity|]. repeat constructor.
    + intros e evs [H _]. discriminate H.
    + intros a r evs1 evs2 [_ H1] [-> H2]. split; [reflexivity|].
      apply Forall_app. auto.
Qed.

Lemma streaming_at_once_yields {S} P label system user
    (body : S -> jsstring -> M S) (s0 : S) (after : S -> M unit) :
  (forall s x, passes P (body s x)) ->
  (forall s, yields (after s) (fun r evs => r = Returned tt /\ Forall P evs)) ->
  yields
    (rethrow label
       (bind (create AUTOLAWYER_MODEL provider system user)
          (fun stream => bind (for_await (fst stream) (snd stream) body s0) after)))
    (fun r evs => Forall P evs /\ ends_as label (reply_to system user) r).
Proof.
  intros Hbody Hafter.
  exact (streaming_yields P label system user (ret tt) body s0 after
           (passes_ret P tt) Hbody Hafter).
Qed.

Lemma streamChatResponse_yields userMessage :
  yields (streamChatResponse AUTOLAWYER_MODEL provider userMessage)
    (fun r evs =>
       Forall well_formed evs
       /\ ends_as "Chat streaming failed: "
            (reply_to chat_system_prompt userMessage) r).
Proof.
  unfold streamChatResponse.
  apply yields_after; [literal_progress|intros _].
  apply streaming_at_once_yields.
  - intros fullResponse content.
    destruct (truthy_str content) eqn:E; [|apply passes_ret].
    apply passes_bind; [now apply passes_emit, well_formed_chunk|intros _].
    apply passes_ret.
  - intros fullResponse. apply yields_emit. split; [reflexivity|].
    repeat constructor.
Qed.

Lemma streamSummary_yields documentText :
  yields (streamSummary AUTOLAWYER_MODEL provider documentText)
    (fun r evs =>
       Forall well_formed evs
       /\ ends_as "Summary streaming failed: "
            (reply_to summary_system_prompt documentText) r).
Proof.
  unfold streamSummary.
  apply yields_after; [literal_progress|intros _].
  apply streaming_at_once_yields.
  - intros [] content.
    destruct (truthy_str content) eqn:E; [|apply passes_ret].
    now apply passes_emit, well_formed_chunk.
  - intros _. apply yields_emit. split; [reflexivity|]. repeat constructor.
Qed.

(** X25.  When the provider's stream ends normally, [streamContractAnalysis]
    returns, and its events are the two first [progress] events, the
    events of the loop, [analysis] and [complete].  The loop emits one
    [chunk] per text of the stream that is not empty, numbered from 1, and
    besides that only [progress] events; the [fullResponse] of [analysis]
    is the concatenation of these texts, its [chunkCount] and the
    [totalChunks] of [complete] their number, and [responseLength] the
    length of the concatenation. *)
Theorem analysis_reports_what_was_streamed clauseText items :
  reply_to analysis_system_prompt (or_else (Some clauseText) sample_clause)
  = Returned (items, ends) ->
  let texts := filter truthy_str (map (fun item => or_else item []) items) in
  exists loop,
    runs (streamContractAnalysis AUTOLAWYER_MODEL provider clauseText)
      (Returned tt)
      ({| type := progress;
          data := JObj [num "progress" 10;
                        str "message" (lit "Initializing analysis...")] |}
       :: {| type := progress;
             data := JObj [num "progress" 30;
                           str "message" (lit "Analyzing clause...")] |}
       :: loop
       ++ [ {| type := analysis;
               data := JObj [str "fullResponse" (concat texts);
                             num "chunkCount" (num_of_nat (length texts));
                             str "model" (model AUTOLAWYER_MODEL)] |};
            {| type := complete;
               data := JObj [str "message" (lit "Analysis complete");
                             num "totalChunks" (num_of_nat (length texts));
                             num "responseLength"
                               (num_of_nat (length (concat texts)))] |} ])
    /\ filter is_chunk loop = numbered_chunks texts 1
    /\ Forall (fun ev => type ev = chunk \/ type ev = progress) loop.
Proof.
  intros Hreply texts. unfold streamContractAnalysis.
  match goal with
  | |- context [for_await _ _ ?b _] => set (body := b)
  end.
  assert (Hloop : forall items fullResponse chunkCount,
            let texts :=
              filter truthy_str (map (fun item => or_else item []) items) in
            exists loop,
              runs (for_await items ends body (fullResponse, chunkCount))
                (Returned (fullResponse ++ concat texts,
                           (chunkCount + length texts)%nat)) loop
              /\ filter is_chunk loop = numbered_chunks texts (S chunkCount)
              /\ Forall (fun ev => type ev = chunk \/ type ev = progress) loop).
  { clear. induction items as [|item rest IH]; intros fullResponse chunkCount;
      cbv zeta; cbn [for_await map filter].
    - exists []. cbn [concat length numbered_chunks filter].
      rewrite app_nil_r, Nat.add_0_r.
      split; [apply runs_ret|]. split; [reflexivity|constructor].
    - destruct (truthy_str (or_else item [])) eqn:E.
      + destruct (IH (fullResponse ++ or_else item []) (S chunkCount))
          as [loop [Hrest [Hchunks Hkinds]]].
        cbv zeta in Hrest, Hchunks.
        cbn [concat length numbered_chunks].
        replace (fullResponse ++ or_else item [] ++ concat _)
          with ((fullResponse ++ or_else item []) ++
                concat (filter truthy_str
                          (map (fun item => or_else item []) rest)))
          by (now rewrite app_assoc).
        replace (chunkCount + S _)%nat
          with (S chunkCount + length (filter truthy_str
                                         (map (fun item => or_else item []) rest)))%nat
          by lia.
        unfold body at 1. cbv beta iota. rewrite E.
        destruct (S chunkCount mod 10 =? 0)%nat.
        * eexists. split; [|split].
          -- eapply runs_bind; [|exact Hrest].
             eapply runs_bind; [apply runs_emit|].
             eapply runs_bind; [apply runs_emit|apply runs_ret].
          -- cbn [app filter is_chunk type]. now rewrite Hchunks.
          -- cbn [app]. constructor; [now left|]. constructor; [now right|].
             exact Hkinds.
        * eexists. split; [|split].
          -- eapply runs_bind; [|exact Hrest].
             eapply runs_bind; [apply runs_emit|].
             eapply runs_bind; [apply runs_ret|apply runs_ret].
          -- cbn [app filter is_chunk type]. now rewrite Hchunks.
          -- cbn [app]. constructor; [now left|]. exact Hkinds.
      + destruct (IH fullResponse chunkCount) as [loop [Hrest [Hchunks Hkinds]]].
        exists loop. split; [|split; assumption].
        unfold body at 1. cbv beta iota. rewrite E.
        change loop with ([] ++ loop).
        eapply runs_bind; [apply runs_ret|exact Hrest]. }
  destruct (Hloop items [] O) as [loop [Hrun [Hchunks Hkinds]]].
  cbv zeta in Hrun, Hchunks. fold texts in Hrun, Hchunks.
  cbn [app Nat.add] in Hrun.
  exists loop. split; [|split; assumption].
  change (?a :: ?b :: loop ++ ?l) with ([a] ++ ([] ++ ([b] ++ (loop ++ l)))).
  eapply runs_bind; [apply runs_emit|].
  unfold rethrow. apply runs_try_catch_returned.
  eapply runs_bind.
  - pose proof (runs_create analysis_system_prompt
                  (or_else (Some clauseText) sample_clause)) as Hc.
    rewrite Hreply in Hc. exact Hc.
  - cbn [fst snd].
    eapply runs_bind; [apply runs_emit|].
    eapply runs_bind; [exact Hrun|].
    cbv beta iota.
    change [?a; ?b] with ([a] ++ [b]).
    eapply runs_bind; apply runs_emit.
Qed.

(** ** The session *)

(** What [start] runs for a request that passed the validation. *)
Definition dispatch (request : Request) : M unit :=
  let mode := or_else (mode request) (lit "analyze") in
  if falsy OPENAI_API_KEY then
    streamMockAnalysis (or_else (prompt request) (lit "Sample contract analysis"))
  else if str_eqb mode (lit "analyze") then
    streamContractAnalysis AUTOLAWYER_MODEL provider (or_else (prompt request) [])
  else if str_eqb mode (lit "chat") then
    streamChatResponse AUTOLAWYER_MODEL provider (or_else (prompt request) [])
  else if str_eqb mode (lit "summarize") then
    streamSummary AUTOLAWYER_MODEL provider (or_else (prompt request) [])
  else
    streamContractAnalysis AUTOLAWYER_MODEL provider (or_else (prompt request) []).

(** The text that a streaming function puts before the message of a
    failure, by the mode of the request. *)
Definition failure_label (request : Request) : string :=
  let mode := or_else (mode request) (lit "analyze") in
  if str_eqb mode (lit "analyze") then "OpenAI streaming failed: "
  else if str_eqb mode (lit "chat") then "Chat streaming failed: "
  else if str_eqb mode (lit "summarize") then "Summary streaming failed: "
  else "OpenAI streaming failed: ".

Definition connected_event (request : Request) : StreamEvent :=
  {| type := connected;
     data := JObj [str "message" (lit "Stream connected");
                   ("caseId"%string, nullable (caseId request));
                   str "mode" (or_else (mode request) (lit "analyze"))] |}.

(** The event of the [catch] block of [start]. *)
Definition reported (r : outcome unit) : list StreamEvent :=
  match r with
  | Returned _ => []
  | Thrown message =>
      [error_event (or_else (Some message) (lit "Stream error occurred"))]
  end.

Lemma dispatch_yields request :
  yields (dispatch request)
    (fun r evs =>
       Forall well_formed evs
       /\ if falsy OPENAI_API_KEY then r = Returned tt /\ evs = mock_events
          else ends_as (failure_label request)
                 (session_reply AUTOLAWYER_MODEL provider request) r).
Proof.
  unfold dispatch, failure_label, session_reply.
  destruct (falsy OPENAI_API_KEY).
  - eexists _, _. split; [apply mock_runs|].
    split; [apply mock_events_well_formed|auto].
  - repeat match goal with
    | |- context [if str_eqb ?a ?b then _ else _] => destruct (str_eqb a b)
    end;
    first [ apply streamContractAnalysis_yields
          | apply streamChatResponse_yields
          | apply streamSummary_yields ].
Qed.

Lemma GET_invalid request :
  invalid request = true ->
  GET' request
  = (Thrown (lit "Invalid state: Controller is already closed"),
     {| queue := [connected_event request;
                  error_event (lit "Either prompt or caseId is required")];
        closed := true |}).
Proof.
  unfold invalid, GET, start, start_body. intros ->. reflexivity.
Qed.

Lemma GET_valid request r evs :
  invalid request = false ->
  runs (dispatch request) r evs ->
  GET' request
  = (Returned tt,
     {| queue := connected_event request :: evs ++ reported r;
        closed := true |}).
Proof.
  unfold invalid. intros Hvalid Hruns.
  unfold GET, start, start_body. rewrite Hvalid. fold (dispatch request).
  unfold try_finally, try_catch, bind, emit at 1, enqueue at 1.
  cbn [closed new_controller queue app].
  fold (connected_event request).
  rewrite (Hruns {| queue := [connected_event request]; closed := false |} eq_refl).
  cbn [queue app]. destruct r as [[]|message]; cbn [reported].
  - unfold close. cbn [closed queue]. now rewrite app_nil_r.
  - unfold emit, enqueue, close. cbn [closed queue]. reflexivity.
Qed.

(** X26.  For a request with neither a prompt nor a case reference, the
    body of [start] enqueues [connected] and the [error] event and closes
    the controller itself.  The [close] of the [finally] block is then
    called on a closed controller and throws, so [start] throws; what it
    has enqueued by then is those two events.  (This branch awaits
    nothing: it runs to its end before the stream has a consumer.) *)
Theorem start_throws_for_invalid_requests request :
  invalid request = true ->
  let told := [connected_event request;
               error_event (lit "Either prompt or caseId is required")] in
  start_body OPENAI_API_KEY AUTOLAWYER_MODEL provider request new_controller
  = (Returned tt, {| queue := told; closed := true |})
  /\ close {| queue := told; closed := true |}
     = (Thrown (lit "Invalid state: Controller is already closed"),
        {| queue := told; closed := true |})
  /\ fst (GET' request)
     = Thrown (lit "Invalid state: Controller is already closed")
  /\ events' request = told.
Proof.
  intros Hinv told. split; [|split; [reflexivity|]].
  - revert Hinv. unfold invalid, start_body. intros ->. reflexivity.
  - unfold events. rewrite (GET_invalid request Hinv). split; reflexivity.
Qed.

(** X27.  In every session, every [progress] event carries a number between 0
    and 100 as its [progress], and every [chunk] event a text that is
    not empty as its [content]. *)
Theorem payloads_are_well_formed request :
  Forall well_formed (events' request).
Proof.
  unfold events. destruct (invalid request) eqn:Hinv.
  - rewrite (GET_invalid request Hinv). cbn [snd queue]. repeat constructor.
  - destruct (dispatch_yields request) as [r [evs [Hruns [Hwf _]]]].
    rewrite (GET_valid request r evs Hinv Hruns). cbn [snd queue].
    constructor; [exact I|]. apply Forall_app. split; [exact Hwf|].
    destruct r; cbn [reported]; repeat constructor.
Qed.

(** X28.  When the provider fails, at the request or in the middle of the
    stream, the last event of the session is an [error] whose message is
    the label of the mode followed by the provider's message; the default
    message of [start] is not used. *)
Theorem provider_failure_is_reported request e :
  invalid request = false ->
  falsy OPENAI_API_KEY = false ->
  failure (session_reply AUTOLAWYER_MODEL provider request) = Some e ->
  exists init,
    events' request
    = init ++ [error_event (lit (failure_label request) ++ e)].
Proof.
  intros Hinv Hkey Hfail. unfold events.
  destruct (dispatch_yields request) as [r [evs [Hruns [_ Hr]]]].
  rewrite Hkey in Hr. unfold ends_as in Hr. rewrite Hfail in Hr. subst r.
  rewrite (GET_valid request _ evs Hinv Hruns). cbn [snd queue reported].
  exists (connected_event request :: evs). cbn [app]. do 3 f_equal.
  unfold failure_label.
  repeat match goal with
  | |- context [if str_eqb ?a ?b then _ else _] => destruct (str_eqb a b)
  end; reflexivity.
Qed.

(** X29.  Without a provider key, every request that carries a prompt or a
    case reference gets the same events after [connected], whatever its
    prompt, its mode, the model and the provider: the canned report, cut
    after every line feed into 35 chunks, and at last [complete]. *)
Theorem demo_mode_replays_the_canned_report request :
  invalid request = false ->
  falsy OPENAI_API_KEY = true ->
  events' request = connected_event request :: mock_events
  /\ chunk_texts (events' request) = mock_chunks
  /\ concat (chunk_texts (events' request)) = mockResponse
  /\ length (chunk_texts (events' request)) = 35%nat.
Proof.
  intros Hinv Hkey.
  assert (E : events' request = connected_event request :: mock_events).
  { unfold events.
    destruct (dispatch_yields request) as [r [evs [Hruns [_ Hr]]]].
    rewrite Hkey in Hr. destruct Hr as [-> ->].
    rewrite (GET_valid request _ _ Hinv Hruns). cbn [snd queue reported].
    now rewrite app_nil_r. }
  rewrite E. split; [reflexivity|].
  assert (T : chunk_texts (connected_event request :: mock_events) = mock_chunks)
    by (vm_compute; reflexivity).
  rewrite T. split; [reflexivity|]. split; vm_compute; reflexivity.
Qed.

End Session.

End SessionSpec.

Module WireSpec.
Import JS Route.

(** No control character: every code unit, or byte, is at least the
    space. *)
Definition plain (l : list N) : Prop := Forall (fun c => (32 <= c)%N) l.

Lemma plain_app a b : plain a -> plain b -> plain (a ++ b).
Proof. intros Ha Hb. apply Forall_app. auto. Qed.

(** Induction over a string two code units at a time. *)
Lemma pair_induction {A} (P : list A -> Prop) :
  P [] -> (forall c, P [c]) ->
  (forall c d s, P s -> P (d :: s) -> P (c :: d :: s)) ->
  forall s, P s.
Proof.
  intros H0 H1 H2 s.
  enough (H : P s /\ forall c, P (c :: s)) by apply H.
  induction s as [|d s [IH IH']]; split; auto.
Qed.

Lemma hex_digit_plain n : (32 <= hex_digit n)%N.
Proof. unfold hex_digit. destruct (n <? 10)%N; lia. Qed.

Lemma UnicodeEscape_plain c : plain (UnicodeEscape c).
Proof.
  unfold UnicodeEscape, plain.
  repeat (constructor; [first [apply hex_digit_plain|lia]|]). constructor.
Qed.

Lemma quote_unit_plain c : plain (quote_unit c).
Proof.
  unfold quote_unit.
  repeat match goal with
  | |- context [if (c =? ?k)%N then _ else _] => destruct (c =? k)%N
  end; try (repeat constructor; lia).
  destruct (c <? 32)%N eqn:E; cbn [orb]; [apply UnicodeEscape_plain|].
  apply N.ltb_ge in E.
  destruct (is_leading_surrogate c || is_trailing_surrogate c);
    [apply UnicodeEscape_plain|]. constructor; [exact E|constructor].
Qed.

Lemma leading_surrogate_plain c : is_leading_surrogate c = true -> (32 <= c)%N.
Proof.
  unfold is_leading_surrogate. intros H. apply andb_true_iff in H.
  destruct H as [H _]. apply N.leb_le in H. lia.
Qed.

Lemma trailing_surrogate_plain c : is_trailing_surrogate c = true -> (32 <= c)%N.
Proof.
  unfold is_trailing_surrogate. intros H. apply andb_true_iff in H.
  destruct H as [H _]. apply N.leb_le in H. lia.
Qed.

Lemma quote_units_plain s : plain (quote_units s).
Proof.
  induction s as [|c|c d s IH IH'] using pair_induction.
  - constructor.
  - apply quote_unit_plain.
  - change (quote_units (c :: d :: s))
      with (if is_leading_surrogate c && is_trailing_surrogate d
            then c :: d :: quote_units s
            else quote_unit c ++ quote_units (d :: s)).
    destruct (is_leading_surrogate c && is_trailing_surrogate d) eqn:E.
    + apply andb_true_iff in E. destruct E as [Ec Ed].
      constructor; [now apply leading_surrogate_plain|].
      constructor; [now apply trailing_surrogate_plain|exact IH].
    + apply plain_app; [apply quote_unit_plain|exact IH'].
Qed.

Lemma QuoteJSONString_plain s : plain (QuoteJSONString s).
Proof.
  unfold QuoteJSONString. apply plain_app; [repeat constructor; lia|].
  apply plain_app; [apply quote_units_plain|repeat constructor; lia].
Qed.

Lemma comma_separated_plain l :
  Forall plain l -> plain (comma_separated l).
Proof.
  induction 1 as [|x l Hx Hl IH]; [constructor|].
  destruct l as [|y l]; [exact Hx|].
  change (comma_separated (x :: y :: l))
    with (x ++ lit "," ++ comma_separated (y :: l)).
  apply plain_app; [exact Hx|]. apply plain_app; [|exact IH].
  repeat constructor. vm_compute. discriminate.
Qed.

Lemma type_name_plain t : plain (type_name t).
Proof.
  apply Forall_forall. intros c Hc.
  assert (H : forallb (fun c => (32 <=? c)%N) (type_name t) = true)
    by (destruct t; reflexivity).
  rewrite forallb_forall in H. apply N.leb_le. now apply H.
Qed.

(** ** The bytes *)

Lemma utf8_code_point_plain cp : (32 <= cp)%N -> plain (utf8_code_point cp).
Proof.
  intros H. unfold utf8_code_point, continuation, plain.
  generalize (cp / 64)%N (cp / 4096)%N (cp / 262144)%N. intros q1 q2 q3.
  generalize (cp mod 64)%N (q1 mod 64)%N (q2 mod 64)%N. intros r0 r1 r2.
  destruct (cp <? 128)%N; [repeat (constructor; [lia|]); constructor|].
  destruct (cp <? 2048)%N; [repeat (constructor; [lia|]); constructor|].
  destruct (cp <? 65536)%N; repeat (constructor; [lia|]); constructor.
Qed.

Lemma utf8_unit_plain c : (32 <= c)%N -> plain (utf8_unit c).
Proof.
  intros H. unfold utf8_unit.
  destruct (is_leading_surrogate c || is_trailing_surrogate c);
    [repeat constructor; lia|now apply utf8_code_point_plain].
Qed.

Lemma utf8_plain s : plain s -> plain (utf8 s).
Proof.
  induction s as [|c|c d s IH IH'] using pair_induction; intros H.
  - constructor.
  - inversion H; subst. now apply utf8_unit_plain.
  - inversion H as [|? ? Hc Hrest]; subst. inversion Hrest; subst.
    change (utf8 (c :: d :: s))
      with (if is_leading_surrogate c && is_trailing_surrogate d
            then utf8_code_point (65536 + (c - 55296) * 1024 + (d - 56320))
                 ++ utf8 s
            else utf8_unit c ++ utf8 (d :: s)).
    destruct (is_leading_surrogate c && is_trailing_surrogate d).
    + apply plain_app; [apply utf8_code_point_plain; lia|auto].
    + apply plain_app; [now apply utf8_unit_plain|auto].
Qed.

(** A line feed is encoded as the byte 10, wherever it stands. *)
Lemma utf8_line_feed a : forall b, utf8 (a ++ LF :: b) = utf8 a ++ 10%N :: utf8 b.
Proof.
  induction a as [|c|c d a IH IH'] using pair_induction; intros b.
  - destruct b; reflexivity.
  - change (utf8 ([c] ++ LF :: b))
      with (if is_leading_surrogate c && false
            then utf8_code_point (65536 + (c - 55296) * 1024 + (LF - 56320))
                 ++ utf8 b
            else utf8_unit c ++ utf8 (LF :: b)).
    rewrite andb_false_r.
    change (utf8 [c]) with (utf8_unit c). f_equal.
    destruct b; reflexivity.
  - change (utf8 ((c :: d :: a) ++ LF :: b))
      with (if is_leading_surrogate c && is_trailing_surrogate d
            then utf8_code_point (65536 + (c - 55296) * 1024 + (d - 56320))
                 ++ utf8 (a ++ LF :: b)
            else utf8_unit c ++ utf8 ((d :: a) ++ LF :: b)).
    change (utf8 (c :: d :: a))
      with (if is_leading_surrogate c && is_trailing_surrogate d
            then utf8_code_point (65536 + (c - 55296) * 1024 + (d - 56320))
                 ++ utf8 a
            else utf8_unit c ++ utf8 (d :: a)).
    destruct (is_leading_surrogate c && is_trailing_surrogate d).
    + now rewrite IH, app_assoc.
    + now rewrite IH', app_assoc.
Qed.

Section Format.
Variable Number_toString : float -> jsstring.
Hypothesis Number_toString_plain : forall x, plain (Number_toString x).

Abbreviation stringify := (JSON_stringify Number_toString).

Lemma JSON_stringify_plain : forall v, plain (stringify v).
Proof.
  fix IH 1. intros [|x|s|fields]; cbn [JSON_stringify].
  - repeat constructor; vm_compute; discriminate.
  - destruct (is_finite x); [apply Number_toString_plain|].
    repeat constructor; vm_compute; discriminate.
  - apply QuoteJSONString_plain.
  - apply plain_app; [repeat constructor; vm_compute; discriminate|].
    apply plain_app; [|repeat constructor; vm_compute; discriminate].
    apply comma_separated_plain.
    induction fields as [|[key value] fields IHf]; cbn [map]; constructor.
    + apply plain_app; [apply QuoteJSONString_plain|].
      apply plain_app; [repeat constructor; vm_compute; discriminate|].
      cbn [snd]. apply IH.
    + exact IHf.
Qed.

(** X30.  Every event goes on the wire as two lines and a blank line: the
    bytes of [event: ] and its type, the byte 10, the bytes of [data: ]
    and the JSON text of its payload, and the bytes 10, 10.  The JSON
    text has no control character, whatever the strings of the payload
    hold, and neither line has a byte below 32: no line break occurs
    inside an event. *)
Theorem encoded_event_is_two_lines event :
  let first := lit "event: " ++ type_name (type event) in
  let second := lit "data: " ++ stringify (data event) in
  formatSSE Number_toString event = first ++ [LF] ++ second ++ [LF; LF]
  /\ plain (stringify (data event))
  /\ encode Number_toString event
     = utf8 first ++ [10%N] ++ utf8 second ++ [10%N; 10%N]
  /\ plain (utf8 first) /\ plain (utf8 second).
Proof.
  cbv zeta.
  assert (E : formatSSE Number_toString event
              = (lit "event: " ++ type_name (type event)) ++ [LF]
                ++ (lit "data: " ++ stringify (data event)) ++ [LF; LF]).
  { unfold formatSSE. now rewrite <- !app_assoc. }
  assert (P1 : plain (lit "event: " ++ type_name (type event))).
  { apply plain_app; [|apply type_name_plain].
    repeat constructor; vm_compute; discriminate. }
  assert (P2 : plain (lit "data: " ++ stringify (data event))).
  { apply plain_app; [|apply JSON_stringify_plain].
    repeat constructor; vm_compute; discriminate. }
  split; [exact E|]. split; [apply JSON_stringify_plain|].
  split; [|split; now apply utf8_plain].
  unfold encode. rewrite E. cbn [app].
  rewrite utf8_line_feed. f_equal. f_equal.
  change (?s ++ [LF; LF]) with (s ++ LF :: [LF]).
  rewrite utf8_line_feed. reflexivity.
Qed.

End Format.

End WireSpec.

(* ================================================================== *)
(** * Part XV.  Worked examples of the pipeline *)
(* ================================================================== *)

Module PipelineExamples.
Import JS Rag Route.
Import StoreSpec SimilaritySpec RetrieveEdgeSpec ChunkSpec LabelSpec EmbedSpec
  IngestSpec AnswerSpec SessionSpec WireSpec.
#[local] Open Scope float_scope.

(** ** Providers and platform functions *)

(** The embeddings call fails. *)
Definition embeddings_down (_ _ : jsstring) : outcome (list float) :=
  Thrown (lit "503 Service Unavailable").

(** The batched embeddings call answers with one vector per text. *)
Definition embeds_all (_ : jsstring) (texts : list jsstring)
    : outcome (list (list float)) :=
  Returned (map (fun _ => [1; 0]) texts).

(** It answers with a single vector, whatever it is asked. *)
Definition embeds_one (_ : jsstring) (_ : list jsstring)
    : outcome (list (list float)) :=
  Returned [[1; 0]].

(** The case mapping on the letters A to Z. *)
Definition ascii_lower (s : jsstring) : jsstring :=
  map (fun c => if is_upper c then (c + 32)%N else c) s.

(** ** Headings and categories *)

Example headings :
  extractHeading (lit "Section 12. Limitation of Liability. The cap is...")
  = lit "Limitation of Liability"
  /\ extractHeading (lit "3. Fees & Expenses are due") = lit "Fees & Expenses are due"
  /\ extractHeading (lit "Section 1: scope") = lit "Section"
  /\ extractHeading (lit "the parties agree") = lit "Unnamed Section"
  /\ extractHeading (lit "A1") = lit "Unnamed Section".
Proof. repeat split. Qed.

Example categories_by_first_match :
  classifyClauseType ascii_lower (lit "The Supplier shall INDEMNIFY the Client.")
  = lit "indemnification"
  /\ classifyClauseType ascii_lower (lit "Damages and termination fees")
     = lit "liability"
  /\ classifyClauseType ascii_lower (lit "This escape clause applies.")
     = lit "liability"
  /\ classifyClauseType ascii_lower (lit "Notices shall be in writing.")
     = lit "general".
Proof. repeat split. Qed.

(** ** The retriever *)

Lemma retrieve_dimension_mismatch_witness :
  fst (retrieve embeddings_down IndexExamples.service (lit "indemnity")
         no_retrieve_options) = [].
Proof.
  assert (H1 : Forall
                 (fun entry =>
                    length (snd entry)
                    <> length (query_embedding embeddings_down
                                 IndexExamples.service (lit "indemnity")))
                 (embeddings (vectorStore IndexExamples.service)))
    by (repeat constructor; vm_compute; discriminate).
  assert (H2 : (num_or (opt_minScore no_retrieve_options) 0.3 <=? 0) = false)
    by reflexivity.
  exact (proj1 (retrieve_dimension_mismatch embeddings_down
                  IndexExamples.service (lit "indemnity") no_retrieve_options
                  H1 H2)).
Defined.

Lemma retrieve_empty_query_witness :
  fst (retrieve embeddings_down IndexExamples.service [] no_retrieve_options) = [].
Proof.
  exact (proj1 (retrieve_empty_query_without_provider embeddings_down
                  IndexExamples.service no_retrieve_options
                  (lit "503 Service Unavailable") eq_refl eq_refl)).
Defined.

(** ** The chunker *)

(** Two segments, of 120 and of 30 code units, under a window of 50 with
    an overlap of 10. *)
Definition two_segments : list jsstring := [repeat 120%N 120; repeat 97%N 30].

Lemma two_segments_fuel :
  Forall (fun segment => length segment < 200) two_segments.
Proof. repeat constructor; vm_compute; lia. Defined.

Example two_segments_spans :
  option_map ChunkerSpec.spans
    (createChunks ChunkerSpec.plain_heading ChunkerSpec.plain_category 50 10
       200 two_segments (lit "doc"))
  = Some [(0, 50); (40, 90); (80, 120); (120, 150)]%Z.
Proof. reflexivity. Qed.

Lemma createChunks_ids_witness :
  exists chunks,
    createChunks ChunkerSpec.plain_heading ChunkerSpec.plain_category 50 10
      200 two_segments (lit "doc") = Some chunks
    /\ NoDup (map id chunks).
Proof.
  destruct (createChunks_ids ChunkerSpec.plain_heading
              ChunkerSpec.plain_category 50 10 (lit "doc") 200 two_segments
              eq_refl two_segments_fuel) as [chunks [E [_ Hnd]]].
  exists chunks. split; [exact E|exact Hnd].
Defined.

Lemma createChunks_spans_witness :
  exists chunks,
    createChunks ChunkerSpec.plain_heading ChunkerSpec.plain_category 50 10
      200 two_segments (lit "doc") = Some chunks
    /\ Forall (fun c => (len (content c) <= 50)%Z) chunks.
Proof.
  destruct (createChunks_spans ChunkerSpec.plain_heading
              ChunkerSpec.plain_category 50 10 (lit "doc") 200 two_segments
              eq_refl eq_refl two_segments_fuel) as [chunks [E H]].
  exists chunks. split; [exact E|].
  eapply Forall_impl; [|exact H]. cbv zeta. intros c Hc. apply Hc.
Defined.

Lemma createChunks_covers_witness :
  exists chunks,
    createChunks ChunkerSpec.plain_heading ChunkerSpec.plain_category 50 10
      200 two_segments (lit "doc") = Some chunks
    /\ exists c, In c chunks
                 /\ (charStart (metadata c) <= 100 < charEnd (metadata c))%Z.
Proof.
  assert (H0 : (0 <= 10 < 50)%Z) by lia.
  destruct (createChunks_covers ChunkerSpec.plain_heading
              ChunkerSpec.plain_category 50 10 (lit "doc") 200 two_segments
              H0 two_segments_fuel) as [chunks [E H]].
  exists chunks. split; [exact E|]. apply H. vm_compute.
  split; [discriminate|reflexivity].
Defined.

(** ** Batched embedding *)

Definition passage (n : nat) (text : string) : DocumentChunk :=
  make_chunk ChunkerSpec.plain_heading ChunkerSpec.plain_category
    (lit "doc") n (lit text) 0 0.

Definition two_passages : list DocumentChunk :=
  [passage 0 "Fees are due in thirty days."; passage 1 "Either party may terminate."].

Lemma embeds_all_complete svc : answers_in_full embeds_all svc.
Proof.
  intros texts data H. injection H as <-. rewrite length_map. apply le_n.
Defined.

Lemma batchEmbed_one_for_one_witness :
  length (batchEmbed embeds_all (ragService None) two_passages) = 2%nat.
Proof.
  pose proof (batchEmbed_one_for_one embeds_all (ragService None) two_passages
                (embeds_all_complete (ragService None))) as H.
  symmetry. exact (Forall2_length H).
Defined.

(** An answer with one vector for two texts: the first passage comes
    back twice, once with the vector of the answer and once with a mock
    vector. *)
Lemma batchEmbed_short_answer_witness :
  map id (batchEmbed embeds_one (ragService None) two_passages)
  = [lit "doc-0"; lit "doc-0"; lit "doc-1"].
Proof.
  assert (H1 : length two_passages <= BATCH_SIZE) by (vm_compute; lia).
  assert (H2 : length [[1; 0]] < length two_passages) by (vm_compute; lia).
  destruct (batchEmbed_short_answer embeds_one (ragService None) two_passages
              [[1; 0]] H1 eq_refl H2) as [E _].
  rewrite E. reflexivity.
Defined.

(** ** Ingestion *)

Definition contract : jsstring := SegmenterSpec.contract.

Lemma contract_fuel : length contract < 200.
Proof. vm_compute. lia. Defined.

Example contract_ingested :
  match ingestDocument ascii_lower embeds_all (ragService None) 200 contract
          (lit "msa.txt") with
  | Some (svc, chunksIndexed) =>
      chunksIndexed = 2%nat
      /\ map fst (documents (vectorStore svc)) = [lit "msa.txt-0"; lit "msa.txt-1"]
      /\ map (fun entry => clauseType (metadata (snd entry)))
           (documents (vectorStore svc))
         = [Some (lit "indemnification"); Some (lit "termination")]
      /\ map (fun entry => heading (metadata (snd entry)))
           (documents (vectorStore svc))
         = [Some (lit "Indemnification"); Some (lit "Termination")]
  | None => False
  end.
Proof. vm_compute. repeat split. Qed.

Lemma ingestDocument_short_text_witness :
  ingestDocument ascii_lower embeds_all (ragService None) 0 (lit "Too short.")
    (lit "note.txt")
  = Some (ragService None, 0%nat).
Proof.
  assert (H : length (lit "Too short.") <= 50) by (vm_compute; lia).
  exact (ingestDocument_short_text ascii_lower embeds_all (ragService None) 0
           (lit "Too short.") (lit "note.txt") H).
Defined.

Lemma ingestDocument_returns_witness :
  exists svc' chunksIndexed,
    ingestDocument ascii_lower embeds_all (ragService None) 200 contract
      (lit "msa.txt") = Some (svc', chunksIndexed).
Proof.
  destruct (ingestDocument_returns ascii_lower embeds_all (ragService None) 200
              contract (lit "msa.txt") eq_refl contract_fuel)
    as [svc' [n [E _]]].
  exists svc', n. exact E.
Defined.

(** The service after the contract was ingested. *)
Definition fed_service : Service :=
  match ingestDocument ascii_lower embeds_all (ragService None) 200 contract
          (lit "msa.txt") with
  | Some (svc, _) => svc
  | None => ragService None
  end.

Lemma contract_ingestion :
  ingestDocument ascii_lower embeds_all (ragService None) 200 contract
    (lit "msa.txt")
  = Some (fed_service, 2%nat).
Proof. vm_compute. reflexivity. Defined.

Lemma search_after_ingestion_witness :
  fed ascii_lower embeds_all fed_service
  /\ fst (getIndexStats fed_service) = 2%nat
  /\ length (search (vectorStore fed_service) [1; 0] (Z.of_nat 5)) = 2%nat
  /\ length (search (vectorStore fed_service) [1; 0] (Z.of_nat 1)) = 1%nat
  /\ snd (getIndexStats fed_service) = true.
Proof.
  assert (Hfed : fed ascii_lower embeds_all fed_service).
  { exact (fed_ingest ascii_lower embeds_all (ragService None) 200 contract
             (lit "msa.txt") fed_service 2
             (fed_new ascii_lower embeds_all None no_options)
             contract_ingestion). }
  split; [exact Hfed|]. split; [reflexivity|].
  destruct (search_after_ingestion ascii_lower embeds_all fed_service [1; 0] 5
              Hfed) as [Hfive Hready].
  destruct (search_after_ingestion ascii_lower embeds_all fed_service [1; 0] 1
              Hfed) as [Hone _].
  split; [rewrite Hfive; reflexivity|].
  split; [rewrite Hone; reflexivity|].
  apply Hready. vm_compute. discriminate.
Defined.

Lemma ingestDocument_first_document_witness :
  exists svc' (chunks : list DocumentChunk),
    ingestDocument ascii_lower embeds_all (ragService None) 200 contract
      (lit "msa.txt") = Some (svc', length chunks)
    /\ getDocumentCount (vectorStore svc') = length chunks.
Proof.
  destruct (ingestDocument_first_document ascii_lower embeds_all
              (ragService None) 200 contract (lit "msa.txt")
              (embeds_all_complete (ragService None)) eq_refl eq_refl
              contract_fuel)
    as [svc' [chunks [_ [E [Hn _]]]]].
  exists svc', chunks. split; [exact E|exact Hn].
Defined.

(** A service constructed with a window of 100 and nothing else has the
    overlap 200: a clause of 150 code units is never finished. *)
Definition small_window : Service :=
  new_service None
    {| o_embeddingModel := None; o_completionModel := None;
       o_chunkSize := Some 100%Z; o_chunkOverlap := None; o_topK := None |}.

Lemma ingestDocument_never_returns_witness :
  ingestDocument ascii_lower embeds_all small_window 1000 (repeat 97%N 150)
    (lit "doc") = None.
Proof.
  assert (H1 : (chunkSize small_window <= chunkOverlap small_window)%Z)
    by (vm_compute; discriminate).
  assert (H2 : In (repeat 97%N 150) (segmentClauses (repeat 97%N 150)))
    by (vm_compute; left; reflexivity).
  assert (H3 : (chunkSize small_window < len (repeat 97%N 150))%Z)
    by (vm_compute; reflexivity).
  exact (ingestDocument_never_returns ascii_lower embeds_all small_window
           (repeat 97%N 150) (lit "doc") (repeat 97%N 150) H1 H2 H3 1000).
Defined.

(** ** Queries *)

Lemma query_on_empty_index_witness :
  exists r metrics,
    query embeddings_down GeneratorSpec.unavailable (ragService None)
      (lit "What applies?") = Returned (r, metrics)
    /\ citations r = [] /\ chunksRetrieved metrics = 0%nat.
Proof.
  destruct (query_on_empty_index embeddings_down GeneratorSpec.unavailable
              (ragService None) (lit "What applies?") eq_refl)
    as [r [metrics [E [Hn [Hc _]]]]].
  exists r, metrics. split; [exact E|]. split; [exact Hc|exact Hn].
Defined.

(** The constructor keeps [topK: -1]: [query] then asks [search] for [-2]
    candidates, which are the first two of the four passages, and keeps
    one of them, more than [topK]. *)
Example query_with_negative_topK :
  let svc := with_store
               (new_service None
                  {| o_embeddingModel := None; o_completionModel := None;
                     o_chunkSize := None; o_chunkOverlap := None;
                     o_topK := Some (-1)%Z |})
               IndexExamples.index in
  topK svc = (-1)%Z
  /\ match query IndexExamples.embedder GeneratorSpec.unavailable svc
              (lit "indemnity") with
     | Returned (r, metrics) =>
         chunksRetrieved metrics = 1%nat
         /\ map chunkId (citations r) = [lit "a"]
     | Thrown _ => False
     end.
Proof. vm_compute. repeat split. Qed.

Example empty_index_fallback :
  match query embeddings_down GeneratorSpec.unavailable (ragService None)
          (lit "What applies?") with
  | Returned (r, _) =>
      citations r = [] /\ groundedOnSources r = true /\ confidence r = 0.5
  | Thrown _ => False
  end.
Proof. vm_compute. repeat split. Qed.

(** ** Sessions *)

Definition analyze_request : Request :=
  {| caseId := Some (lit "case-7"); prompt := Some (lit "Clause 4");
     mode := Some (lit "summary") |}.

Lemma analysis_witness :
  exists loop,
    runs (streamContractAnalysis None RouteExamples.answering (lit "Clause 4"))
      (Returned tt)
      ({| type := progress;
          data := JObj [num "progress" 10;
                        str "message" (lit "Initializing analysis...")] |}
       :: {| type := progress;
             data := JObj [num "progress" 30;
                           str "message" (lit "Analyzing clause...")] |}
       :: loop
       ++ [ {| type := analysis;
               data := JObj [str "fullResponse" (lit "Clause 4 is risky.");
                             num "chunkCount" 2;
                             str "model" (lit "gpt-4o-mini")] |};
            {| type := complete;
               data := JObj [str "message" (lit "Analysis complete");
                             num "totalChunks" 2;
                             num "responseLength" 18] |} ]).
Proof.
  destruct (analysis_reports_what_was_streamed None RouteExamples.answering
              (lit "Clause 4")
              [Some (lit "Clause 4 "); None; Some (lit "is risky.")] eq_refl)
    as [loop [H _]].
  exists loop. exact H.
Defined.

Lemma start_throws_witness :
  fst (GET RouteExamples.key None RouteExamples.answering
         RouteExamples.no_parameters)
  = Thrown (lit "Invalid state: Controller is already closed")
  /\ event_types RouteExamples.key None RouteExamples.answering
       RouteExamples.no_parameters
     = [connected; error].
Proof.
  destruct (start_throws_for_invalid_requests RouteExamples.key None
              RouteExamples.answering RouteExamples.no_parameters eq_refl)
    as [_ [_ [Hthrows Hevents]]].
  split; [exact Hthrows|].
  unfold event_types. rewrite Hevents. reflexivity.
Defined.

Lemma provider_failure_witness :
  exists init,
    events RouteExamples.key None RouteExamples.failing RouteExamples.chat_request
    = init ++ [error_event (lit "Chat streaming failed: 401 Unauthorized")].
Proof.
  exact (provider_failure_is_reported RouteExamples.key None
           RouteExamples.failing RouteExamples.chat_request
           (lit "401 Unauthorized") eq_refl eq_refl eq_refl).
Defined.

Lemma demo_mode_witness :
  concat (chunk_texts (events None None RouteExamples.failing analyze_request))
  = mockResponse.
Proof.
  exact (proj1 (proj2 (proj2
           (demo_mode_replays_the_canned_report None None
              RouteExamples.failing analyze_request eq_refl eq_refl)))).
Defined.

(** An unknown mode is served as an analysis. *)
Example unknown_mode_is_analyzed :
  event_types RouteExamples.key None RouteExamples.answering analyze_request
  = [connected; progress; progress; chunk; chunk; analysis; complete].
Proof. reflexivity. Qed.

(** ** The wire format *)

Definition prints_zero (_ : float) : jsstring := lit "0".

Lemma prints_zero_plain x : plain (prints_zero x).
Proof. repeat constructor. vm_compute. discriminate. Defined.

Example quoted_strings :
  QuoteJSONString (lit "a" ++ [LF] ++ lit "b" ++ [34%N; 9%N; 1%N; 55357%N])
  = [34%N] ++ lit "a\nb\" ++ [34%N] ++ lit "\t\u0001\ud83d" ++ [34%N].
Proof. reflexivity. Qed.

Example formatted_error :
  formatSSE prints_zero
    (error_event (lit "Either prompt or caseId is required"))
  = lit "event: error" ++ [LF]
    ++ lit "data: {" ++ [34%N] ++ lit "message" ++ [34%N] ++ lit ":" ++ [34%N]
    ++ lit "Either prompt or caseId is required" ++ [34%N] ++ lit "}" ++ [LF; LF].
Proof. reflexivity. Qed.

Lemma encoded_event_witness :
  plain (JSON_stringify prints_zero
           (data (chunk_event ([13%N; LF] ++ lit "Clause 4") 1))).
Proof.
  exact (proj1 (proj2
           (encoded_event_is_two_lines prints_zero prints_zero_plain
              (chunk_event ([13%N; LF] ++ lit "Clause 4") 1)))).
Defined.

End PipelineExamples.
